(* ===================================================================== *)
(* websocket.go: the per-connection concurrency kernel of Conn           *)
(*                                                                       *)
(* The connection is embedded as a record of its fields.  A buffered     *)
(* channel of capacity one is a bool (true = the buffer holds a token),  *)
(* an unbuffered channel is the partner parked on it, the closed channel *)
(* is a bool latch.  A method is a function from the connection state to *)
(* the list of its possible outcomes: Go's select picks any ready case,  *)
(* so an operation has one outcome per ready case, and none when it      *)
(* cannot proceed.                                                       *)
(* ===================================================================== *)

From Stdlib Require Import ZArith List Bool Lia.
From stdpp Require Import base option list gmap strings pretty.

Open Scope Z_scope.

(* --------------------------------------------------------------------- *)
(* Errors                                                                *)
(* --------------------------------------------------------------------- *)

Definition StatusCode := Z.

Record CloseError := mkCloseError { Code : StatusCode; Reason : string }.

(* A Go error value; nil is None of [option error].
   ErrWrap m e is xerrors.Errorf("m: %w", e), with e possibly nil. *)
Inductive error : Type :=
| ErrCanceled                      (* ctx.Err() of a cancelled scope *)
| ErrEOF                           (* io.EOF *)
| ErrIO (msg : string)             (* an error of the byte stream *)
| ErrNew (msg : string)            (* xerrors.New / Errorf without %w *)
| ErrCloseError (ce : CloseError)
| ErrWrap (msg : string) (inner : option error).

(* xerrors.Is(err, target) for the targets websocket.go uses (io.EOF and
   CloseError values, compared with ==), walking the %w chain. *)
Fixpoint errors_Is (target : error) (e : error) : bool :=
  match e with
  | ErrWrap m inner =>
      match inner with
      | Some i => errors_Is target i
      | None => false
      end
  | ErrEOF => match target with ErrEOF => true | _ => false end
  | ErrCloseError ce =>
      match target with
      | ErrCloseError ce' =>
          bool_decide (Code ce = Code ce') && bool_decide (Reason ce = Reason ce')
      | _ => false
      end
  | _ => false
  end.

(* The sentinel wrapper of Conn.close. *)
Definition websocket_closed (cause : option error) : error :=
  ErrWrap "websocket closed" cause.

(* --------------------------------------------------------------------- *)
(* Frame headers                                                         *)
(* --------------------------------------------------------------------- *)

Definition opcode := Z.
Definition MessageType := Z.

(** Modelled from the spec: the opcode constants are declared outside
    websocket.go; section 6 gives continuation=0x0, text=0x1, binary=0x2,
    close=0x8, ping=0x9, pong=0xA. *)
Definition opContinuation : opcode := 0.
Definition opText : opcode := 1.
Definition opBinary : opcode := 2.
Definition opClose : opcode := 8.
Definition opPing : opcode := 9.
Definition opPong : opcode := 10.

(** Modelled from the spec: opcode.controlOp is declared outside
    websocket.go; the control opcodes are close, ping and pong, the three
    opcodes from 0x8 up that the frame header has (every other opcode is a
    protocol error). *)
Definition controlOp (o : opcode) : bool :=
  (o =? opClose) || (o =? opPing) || (o =? opPong).

(** Modelled from the spec: the status codes are declared outside
    websocket.go; section 6 gives 1002 protocol error, 1011 internal error. *)
Definition StatusProtocolError : StatusCode := 1002.
Definition StatusInternalError : StatusCode := 1011.

Record header := mkHeader {
  fin : bool;
  rsv1 : bool;
  rsv2 : bool;
  rsv3 : bool;
  h_opcode : opcode;
  payloadLength : Z;
  masked : bool;
  maskKey : list Byte.byte
}.

(* header{} and header{fin: f, opcode: o} *)
Definition header_lit (f : bool) (o : opcode) : header :=
  mkHeader f false false false o 0 false [].

(* One Write call on the buffered writer: the bytes of marshalHeader(h),
   or a payload. *)
Inductive chunk :=
| HeaderBytes (h : header)
| PayloadBytes (p : list Byte.byte).

(* A cancellation scope as an operation sees it: its identity and whether
   Done() is ready. context.Background() is never done. *)
Record context := mkContext { ctx_id : nat; ctx_done : bool }.
Definition Background : context := mkContext 0 false.

(* --------------------------------------------------------------------- *)
(* The connection                                                        *)
(* --------------------------------------------------------------------- *)

Record Conn := mkConn {
  client : bool;
  msgReadLimit : Z;
  closer : option error;          (* what closer.Close() returns *)
  closeOnce : bool;               (* sync.Once: Do has been entered *)
  closing : bool;                 (* the Do body fired the latch, its two sends are pending *)
  closeErr : option error;
  closed : bool;                  (* the closed channel is closed *)
  writeMsgLock : bool;
  writeFrameLock : bool;
  readMsgLock : bool;
  readFrameLock : bool;
  readMsg : option header;        (* the reader pump is parked sending this header *)
  readMsgDone : bool;             (* the reader pump is parked receiving the ack *)
  readCtx : context;              (* timeoutLoop's readCtx *)
  writeCtx : context;             (* timeoutLoop's writeCtx *)
  activePings : gmap string nat;  (* payload -> pong channel *)
  bw : list chunk;                (* what was written to the buffered writer, oldest first *)
  flushes : nat                   (* calls of bw.Flush that succeeded *)
}.

(* The four slots, to pass a lock as an argument. *)
Inductive slot := WriteMsg | WriteFrame | ReadMsg | ReadFrame.

Definition slot_get (l : slot) (c : Conn) : bool :=
  match l with
  | WriteMsg => writeMsgLock c
  | WriteFrame => writeFrameLock c
  | ReadMsg => readMsgLock c
  | ReadFrame => readFrameLock c
  end.

Definition slot_set (l : slot) (b : bool) (c : Conn) : Conn :=
  match c with
  | mkConn cl lim cr once cg ce cd wm wf rm rf m d rc wc ap out fl =>
      match l with
      | WriteMsg => mkConn cl lim cr once cg ce cd b wf rm rf m d rc wc ap out fl
      | WriteFrame => mkConn cl lim cr once cg ce cd wm b rm rf m d rc wc ap out fl
      | ReadMsg => mkConn cl lim cr once cg ce cd wm wf b rf m d rc wc ap out fl
      | ReadFrame => mkConn cl lim cr once cg ce cd wm wf rm b m d rc wc ap out fl
      end
  end.

Definition set_msgReadLimit (n : Z) (c : Conn) : Conn :=
  match c with
  | mkConn cl _ cr once cg ce cd wm wf rm rf m d rc wc ap out fl =>
      mkConn cl n cr once cg ce cd wm wf rm rf m d rc wc ap out fl
  end.

Definition set_closing (b : bool) (c : Conn) : Conn :=
  match c with
  | mkConn cl lim cr once _ ce cd wm wf rm rf m d rc wc ap out fl =>
      mkConn cl lim cr once b ce cd wm wf rm rf m d rc wc ap out fl
  end.

(* closeOnce entered, c.closeErr assigned, close(c.closed). *)
Definition set_latch (e : error) (c : Conn) : Conn :=
  match c with
  | mkConn cl lim cr _ _ _ _ wm wf rm rf m d rc wc ap out fl =>
      mkConn cl lim cr true true (Some e) true wm wf rm rf m d rc wc ap out fl
  end.

Definition set_readMsg (h : option header) (c : Conn) : Conn :=
  match c with
  | mkConn cl lim cr once cg ce cd wm wf rm rf _ d rc wc ap out fl =>
      mkConn cl lim cr once cg ce cd wm wf rm rf h d rc wc ap out fl
  end.

Definition set_readMsgDone (b : bool) (c : Conn) : Conn :=
  match c with
  | mkConn cl lim cr once cg ce cd wm wf rm rf m _ rc wc ap out fl =>
      mkConn cl lim cr once cg ce cd wm wf rm rf m b rc wc ap out fl
  end.

Definition set_readCtx (x : context) (c : Conn) : Conn :=
  match c with
  | mkConn cl lim cr once cg ce cd wm wf rm rf m d _ wc ap out fl =>
      mkConn cl lim cr once cg ce cd wm wf rm rf m d x wc ap out fl
  end.

Definition set_writeCtx (x : context) (c : Conn) : Conn :=
  match c with
  | mkConn cl lim cr once cg ce cd wm wf rm rf m d rc _ ap out fl =>
      mkConn cl lim cr once cg ce cd wm wf rm rf m d rc x ap out fl
  end.

Definition set_activePings (ap : gmap string nat) (c : Conn) : Conn :=
  match c with
  | mkConn cl lim cr once cg ce cd wm wf rm rf m d rc wc _ out fl =>
      mkConn cl lim cr once cg ce cd wm wf rm rf m d rc wc ap out fl
  end.

Definition set_bw (out : list chunk) (c : Conn) : Conn :=
  match c with
  | mkConn cl lim cr once cg ce cd wm wf rm rf m d rc wc ap _ fl =>
      mkConn cl lim cr once cg ce cd wm wf rm rf m d rc wc ap out fl
  end.

Definition set_flushes (fl : nat) (c : Conn) : Conn :=
  match c with
  | mkConn cl lim cr once cg ce cd wm wf rm rf m d rc wc ap out _ =>
      mkConn cl lim cr once cg ce cd wm wf rm rf m d rc wc ap out fl
  end.

(* Conn.init, for a stream whose Close returns [cr]; the two background
   tasks start parked in their loops. *)
Definition init (cl : bool) (cr : option error) : Conn :=
  mkConn cl 32768 cr false false None false
         false false false false None false
         Background Background ∅ [] 0.

(* --------------------------------------------------------------------- *)
(* Operations: all outcomes of a call                                    *)
(* --------------------------------------------------------------------- *)

Definition M (A : Type) : Type := Conn -> list (A * Conn).

Definition ret {A} (a : A) : M A := fun c => [(a, c)].

Definition bind {A B} (m : M A) (k : A -> M B) : M B :=
  fun c => flat_map (fun r : A * Conn => k (fst r) (snd r)) (m c).

Definition modify (f : Conn -> Conn) : M unit := fun c => [(tt, f c)].

Definition gets {A} (f : Conn -> A) : M A := fun c => [(f c, c)].

Notation "x <- m ;; k" := (bind m (fun x => k))
  (at level 100, m at next level, right associativity).
Notation "m ;;; k" := (bind m (fun _ => k))
  (at level 100, right associativity).

(* One case of a select: whether its communication can proceed, and what
   the case does then. *)
Definition sel_case (A : Type) : Type := ((Conn -> bool) * M A)%type.

(* select { ... } without default: any ready case may run; with no ready
   case the caller stays parked (no outcome). *)
Definition select {A} (cases : list (sel_case A)) : M A :=
  fun c => flat_map (fun k : sel_case A => if fst k c then snd k c else []) cases.

(* case <-ctx.Done() *)
Definition on_done {A} (ctx : context) (k : M A) : sel_case A :=
  ((fun _ => ctx_done ctx), k).

(* case <-c.closed *)
Definition on_closed {A} (k : M A) : sel_case A := (closed, k).

(* return c.closeErr *)
Definition ret_closeErr {A} (f : option error -> A) : M A :=
  fun c => [(f (closeErr c), c)].

(* func (c *Conn) acquireLock(ctx, lock) error *)
Definition acquireLock (ctx : context) (lock : slot) : M (option error) :=
  select
    [ on_done ctx (ret (Some ErrCanceled));
      on_closed (ret_closeErr id);
      ((fun c => negb (slot_get lock c)), (modify (slot_set lock true) ;;; ret None)) ].

(* func (c *Conn) releaseLock(lock): a receive with a default case. *)
Definition releaseLock (lock : slot) : M unit :=
  fun c => if slot_get lock c then [(tt, slot_set lock false c)] else [(tt, c)].

(* The body under closeOnce.Do up to and including close(c.closed). *)
Definition close_latch (err : option error) (c : Conn) : Conn :=
  let cerr := closer c in
  let cerr := match err with Some _ => err | None => cerr end in
  set_latch (websocket_closed cerr) c.

(* The two sends that end the Do body.  A send waits while the slot is
   taken by a holder; the holder's release followed by the send leaves the
   slot taken, which is the state recorded here. *)
Definition close_poison (c : Conn) : Conn :=
  set_closing false (slot_set WriteFrame true (slot_set ReadFrame true c)).

(* func (c *Conn) close(err error).  A call that finds Do entered by
   another goroutine returns when that Do has returned.  Clearing the
   finalizer and handing back the client's bufio buffers leave the fields
   modelled here alone. *)
Definition close_ (err : option error) : M unit :=
  fun c =>
    if closeOnce c
    then [(tt, if closing c then close_poison c else c)]
    else [(tt, close_poison (close_latch err c))].

(* func (c *Conn) SetReadLimit(n int64) *)
Definition SetReadLimit (n : Z) : M unit := modify (set_msgReadLimit n).

(* --------------------------------------------------------------------- *)
(* Write path                                                            *)
(* --------------------------------------------------------------------- *)

(* What the byte stream and the other goroutines do during one frame
   write: the errors of the two Write calls and of Flush, and a close by
   another goroutine (the deadline coordinator on a fired write deadline,
   say) whose Do body fires the latch while the write is in progress. *)
Record WriteIO := mkWriteIO {
  w_header : option error;
  w_payload : option error;
  w_flush : option error;
  w_race : option (option error)
}.

Definition io_ok : WriteIO := mkWriteIO None None None None.

(* timeoutLoop is parked in its select, ready to receive on
   setReadTimeout and setWriteTimeout, until the latch wakes it. *)
Definition coordinator_ready (c : Conn) : bool := negb (closed c).

Definition race_close (r : option (option error)) : M unit :=
  fun c =>
    match r with
    | Some e => [(tt, if closeOnce c then c else close_latch e c)]
    | None => [(tt, c)]
    end.

Definition failed_to_write (e : error) : option error :=
  Some (ErrWrap "failed to write to connection" (Some e)).

(* The body of writeFrame from h.masked = c.client to its return. *)
Definition writeFrame_body (io : WriteIO) (h : header) (p : list Byte.byte)
  : M (option error) :=
  cl <- gets client ;;
  let h := mkHeader (fin h) (rsv1 h) (rsv2 h) (rsv3 h) (h_opcode h)
                    (Z.of_nat (length p)) cl (maskKey h) in
  race_close (w_race io) ;;;
  match w_header io with
  | Some e => ret (failed_to_write e)
  | None =>
      out <- gets bw ;;
      modify (set_bw (out ++ [HeaderBytes h])) ;;;
      match w_payload io with
      | Some e => ret (failed_to_write e)
      | None =>
          out <- gets bw ;;
          modify (set_bw (out ++ [PayloadBytes p])) ;;;
          if fin h
          then match w_flush io with
               | Some e => ret (failed_to_write e)
               | None =>
                   n <- gets flushes ;;
                   modify (set_flushes (S n)) ;;; ret None
               end
          else ret None
      end
  end.

(* The three deferred calls of writeFrame, last registered first. *)
Definition writeFrame_defers (err : option error) : M unit :=
  match err with
  | Some _ => releaseLock WriteFrame ;;; close_ err
  | None => ret tt
  end ;;;
  select [ on_closed (ret tt);
           (coordinator_ready, modify (set_writeCtx Background)) ] ;;;
  releaseLock WriteFrame.

(* func (c *Conn) writeFrame(ctx, h, p) (err error) *)
Definition writeFrame (io : WriteIO) (ctx : context) (h : header)
  (p : list Byte.byte) : M (option error) :=
  err <- acquireLock ctx WriteFrame ;;
  match err with
  | Some e => ret (Some e)
  | None =>
      armed <- select
        [ on_done ctx (ret (Some (Some ErrCanceled)));
          on_closed (ret_closeErr Some);
          (coordinator_ready, (modify (set_writeCtx ctx) ;;; ret None)) ] ;;
      match armed with
      | Some e => releaseLock WriteFrame ;;; ret e
      | None =>
          err <- writeFrame_body io h p ;;
          writeFrame_defers err ;;;
          ret err
      end
  end.

(* writeMessage after its acquire of the write-message slot. *)
Definition writeMessage_frame (io : WriteIO) (ctx : context) (o : opcode)
  (p : list Byte.byte) : M (option error) :=
  err <- writeFrame io ctx (header_lit true o) p ;;
  match err with
  | Some e => ret (Some (ErrWrap "failed to write frame" (Some e)))
  | None => ret None
  end.

(* func (c *Conn) writeMessage(ctx, opcode, p) error *)
Definition writeMessage (io : WriteIO) (ctx : context) (o : opcode)
  (p : list Byte.byte) : M (option error) :=
  if negb (controlOp o)
  then
    err <- acquireLock ctx WriteMsg ;;
    match err with
    | Some e => ret (Some e)
    | None =>
        r <- writeMessage_frame io ctx o p ;;
        releaseLock WriteMsg ;;;
        ret r
    end
  else writeMessage_frame io ctx o p.

(* func (c *Conn) Write(ctx, typ, p) error *)
Definition Write (io : WriteIO) (ctx : context) (typ : MessageType)
  (p : list Byte.byte) : M (option error) :=
  writeMessage io ctx typ p.

Record messageWriter := mkMessageWriter {
  w_ctx : context;
  w_opcode : opcode;
  w_closed : bool
}.

(* func (c *Conn) writer(ctx, typ) (io.WriteCloser, error) *)
Definition writer (ctx : context) (typ : MessageType)
  : M (messageWriter + error) :=
  err <- acquireLock ctx WriteMsg ;;
  match err with
  | Some e => ret (inr e)
  | None => ret (inl (mkMessageWriter ctx typ false))
  end.

(* func (c *Conn) Writer(ctx, typ) (io.WriteCloser, error) *)
Definition Writer (ctx : context) (typ : MessageType)
  : M (messageWriter + error) :=
  r <- writer ctx typ ;;
  match r with
  | inr e => ret (inr (ErrWrap "failed to get writer" (Some e)))
  | inl w => ret (inl w)
  end.

Definition closed_writer : error := ErrNew "cannot use closed writer".

(* func (w *messageWriter) write(p) (int, error); the writer is returned
   with its fields as the call leaves them. *)
Definition mw_write (io : WriteIO) (w : messageWriter) (p : list Byte.byte)
  : M (messageWriter * (Z * option error)) :=
  if w_closed w then ret (w, (0, Some closed_writer))
  else
    err <- writeFrame io (w_ctx w) (header_lit false (w_opcode w)) p ;;
    match err with
    | Some e => ret (w, (0, Some e))
    | None =>
        ret (mkMessageWriter (w_ctx w) opContinuation (w_closed w),
             (Z.of_nat (length p), None))
    end.

(* func (w *messageWriter) close() error *)
Definition mw_close (io : WriteIO) (w : messageWriter)
  : M (messageWriter * option error) :=
  if w_closed w then ret (w, Some closed_writer)
  else
    let w := mkMessageWriter (w_ctx w) (w_opcode w) true in
    err <- writeFrame io (w_ctx w) (header_lit true (w_opcode w)) [] ;;
    match err with
    | Some e => ret (w, Some e)
    | None => releaseLock WriteMsg ;;; ret (w, None)
    end.

(* --------------------------------------------------------------------- *)
(* Close                                                                 *)
(* --------------------------------------------------------------------- *)

(** Modelled from the spec: the status codes that never go on the wire
    are declared outside websocket.go; section 3 gives 1005, 1006, 1015. *)
Definition forbidden_code (code : StatusCode) : bool :=
  (code =? 1005) || (code =? 1006) || (code =? 1015).

Definition byte_of_Z (z : Z) : Byte.byte :=
  match Byte.of_N (Z.to_N (z mod 256)) with
  | Some b => b
  | None => Byte.x00
  end.

(** Modelled from the spec: CloseError.bytes is declared outside
    websocket.go; section 4.2 says encode rejects a reason of more than
    123 bytes and the forbidden codes, and section 3 that the payload is
    the two-byte big-endian status code followed by the reason. *)
Definition CloseError_bytes (ce : CloseError) : option (list Byte.byte) :=
  if (123 <? Z.of_nat (String.length (Reason ce))) || forbidden_code (Code ce)
  then None
  else Some (byte_of_Z (Code ce / 256) :: byte_of_Z (Code ce)
               :: String.list_byte_of_string (Reason ce)).

(* The environment of one Close: the frame write, and whether the
   5-second scope of writeClose is already done when it is consulted. *)
Record CloseIO := mkCloseIO {
  c_io : WriteIO;
  c_timeout : bool
}.

Definition close_ok : CloseIO := mkCloseIO io_ok false.

(* func (c *Conn) writeClose(p, cerr) error *)
Definition writeClose (env : CloseIO) (p : list Byte.byte) (cerr : CloseError)
  : M (option error) :=
  let ctx := mkContext 1 (c_timeout env) in
  err <- writeMessage (c_io env) ctx opClose p ;;
  close_ (Some (ErrCloseError cerr)) ;;;
  match err with
  | Some e => ret (Some e)
  | None =>
      ce <- gets closeErr ;;
      match ce with
      | Some e => if negb (errors_Is (ErrCloseError cerr) e) then ret ce else ret None
      | None => ret ce
      end
  end.

(* func (c *Conn) exportedClose(code, reason) error *)
Definition exportedClose (env : CloseIO) (code : StatusCode) (reason : string)
  : M (option error) :=
  let ce := mkCloseError code reason in
  match CloseError_bytes ce with
  | Some p => writeClose env p ce
  | None =>
      let ce := mkCloseError StatusInternalError "" in
      writeClose env (default [] (CloseError_bytes ce)) ce
  end.

(* func (c *Conn) Close(code, reason) error *)
Definition Close (env : CloseIO) (code : StatusCode) (reason : string)
  : M (option error) :=
  err <- exportedClose env code reason ;;
  match err with
  | Some e => ret (Some (ErrWrap "failed to close connection" (Some e)))
  | None => ret None
  end.

(* --------------------------------------------------------------------- *)
(* Read path                                                             *)
(* --------------------------------------------------------------------- *)

Record messageReader := mkMessageReader {
  r_ctx : context;
  maskPos : Z;
  r_h : option header;            (* nil between two fragments *)
  eofed : bool
}.

(* The connection's part of the rendezvous channels. *)
Definition readMsg_ready (c : Conn) : bool :=
  negb (closed c) && bool_decide (is_Some (readMsg c)).

Definition readMsgDone_ready (c : Conn) : bool :=
  negb (closed c) && readMsgDone c.

(* h := <-c.readMsg: the pump's send completes and the pump goes on to
   its second select, waiting on readMsgDone. *)
Definition recv_readMsg : M header :=
  fun c =>
    match readMsg c with
    | Some h => [(h, set_readMsgDone true (set_readMsg None c))]
    | None => []
    end.

Definition continuation_first : string :=
  "continuation frame not after data or text frame".
Definition frame_not_finished : string :=
  "cannot read new data frame when previous frame is not finished".

(* The select of Conn.reader, entered with the read-message slot held. *)
Definition reader_wait (env : CloseIO) (ctx : context)
  : M (MessageType * option messageReader * option error) :=
  select
    [ on_closed (ret_closeErr (fun e => (0, None, e)));
      on_done ctx (ret (0, None, Some ErrCanceled));
      (readMsg_ready,
        (h <- recv_readMsg ;;
         if h_opcode h =? opContinuation
         then
           Close env StatusProtocolError continuation_first ;;;
           ret (0, None,
                Some (ErrCloseError (mkCloseError StatusProtocolError continuation_first)))
         else
           ret (h_opcode h, Some (mkMessageReader ctx 0 (Some h) false), None))) ].

(* func (c *Conn) reader(ctx) (MessageType, io.Reader, error) *)
Definition reader (env : CloseIO) (ctx : context)
  : M (MessageType * option messageReader * option error) :=
  err <- acquireLock ctx ReadMsg ;;
  match err with
  | Some e => ret (0, None, Some e)
  | None => reader_wait env ctx
  end.

(* The limitedReader literal built by Reader; its type is declared
   outside websocket.go. *)
Record limitedReader := mkLimitedReader {
  lr_r : messageReader;
  left : Z
}.

(* func (c *Conn) Reader(ctx) (MessageType, io.Reader, error).
   [during] lists the SetReadLimit calls that other goroutines complete
   while this call is inside c.reader. *)
Definition Reader (env : CloseIO) (during : list Z) (ctx : context)
  : M (MessageType * option limitedReader * option error) :=
  res <- reader env ctx ;;
  fold_right (fun n k => SetReadLimit n ;;; k) (ret tt) during ;;;
  match res with
  | (typ, Some r, None) =>
      readLimit <- gets msgReadLimit ;;
      ret (typ, Some (mkLimitedReader r readLimit), None)
  | (_, _, e) => ret (0, None, Some (ErrWrap "failed to get reader" e))
  end.

(** Modelled from the spec: fastXOR is declared outside websocket.go;
    section 4.1 says the mask position is a rolling offset mod 4, so
    masking [n] bytes from position [pos] ends at this position. *)
Definition fastXOR_pos (pos n : Z) : Z := (pos + n) mod 4.

(* The environment of one messageReader.read: what io.ReadFull does (None:
   the buffer is filled; Some (n, e): n bytes, then e), the Close sent on a
   protocol error, and a close by another goroutine whose Do body fires
   the latch while the stream read is in progress. *)
Record ReadIO := mkReadIO {
  r_short : option (Z * error);
  r_close : CloseIO;
  r_race : option (option error)
}.

Definition read_ok : ReadIO := mkReadIO None close_ok None.

Definition set_payloadLength (n : Z) (h : header) : header :=
  mkHeader (fin h) (rsv1 h) (rsv2 h) (rsv3 h) (h_opcode h) n (masked h) (maskKey h).

(* read from payloadLength -= n to the return, with the header in hand. *)
Definition mr_read_tail (r : messageReader) (h : header) (plen n : Z)
  (rerr : option error) : M (messageReader * (Z * option error)) :=
  let h := set_payloadLength (payloadLength h - n) h in
  let mp := if masked h then fastXOR_pos (maskPos r) plen else maskPos r in
  let r := mkMessageReader (r_ctx r) mp (Some h) (eofed r) in
  match rerr with
  | Some e =>
      close_ (Some (ErrWrap "failed to read control frame payload" (Some e))) ;;;
      ce <- gets closeErr ;;
      ret (r, (n, ce))
  | None =>
      if payloadLength h =? 0
      then
        acked <- select
          [ on_closed (ret_closeErr Some);
            (readMsgDone_ready, (modify (set_readMsgDone false) ;;; ret None)) ] ;;
        match acked with
        | Some e => ret (r, (n, e))
        | None =>
            if fin h
            then
              releaseLock ReadMsg ;;;
              ret (mkMessageReader (r_ctx r) mp (Some h) true, (n, Some ErrEOF))
            else ret (mkMessageReader (r_ctx r) 0 None (eofed r), (n, None))
        end
      else ret (r, (n, None))
  end.

(* read from the clamp of p to the return, with the header in hand;
   [plen] is len(p). *)
Definition mr_read_frame (io : ReadIO) (r : messageReader) (h : header)
  (plen : Z) : M (messageReader * (Z * option error)) :=
  let r := mkMessageReader (r_ctx r) (maskPos r) (Some h) (eofed r) in
  let plen := if payloadLength h <? plen then payloadLength h else plen in
  armed <- select
    [ on_closed (ret_closeErr Some);
      (coordinator_ready, (modify (set_readCtx (r_ctx r)) ;;; ret None)) ] ;;
  match armed with
  | Some e => ret (r, (0, e))
  | None =>
      err <- acquireLock (r_ctx r) ReadFrame ;;
      match err with
      | Some e => ret (r, (0, Some e))
      | None =>
          race_close (r_race io) ;;;
          let res := match r_short io with
                     | Some (n, e) => (n, Some e)
                     | None => (plen, None)
                     end in
          releaseLock ReadFrame ;;;
          disarmed <- select
            [ on_closed (ret_closeErr Some);
              (coordinator_ready, (modify (set_readCtx Background) ;;; ret None)) ] ;;
          match disarmed with
          | Some e => ret (r, (0, e))
          | None => mr_read_tail r h plen (fst res) (snd res)
          end
      end
  end.

(* func (r *messageReader) read(p) (int, error) *)
Definition mr_read (io : ReadIO) (r : messageReader) (plen : Z)
  : M (messageReader * (Z * option error)) :=
  if eofed r then ret (r, (0, Some (ErrNew "cannot use EOFed reader")))
  else
    match r_h r with
    | Some h => mr_read_frame io r h plen
    | None =>
        next <- select
          [ on_closed (ret_closeErr inr);
            (readMsg_ready,
              (h <- recv_readMsg ;;
               if negb (h_opcode h =? opContinuation)
               then
                 Close (r_close io) StatusProtocolError frame_not_finished ;;;
                 ret (inr (Some (ErrCloseError
                        (mkCloseError StatusProtocolError frame_not_finished))))
               else ret (inl h))) ] ;;
        match next with
        | inr e => ret (r, (0, e))
        | inl h => mr_read_frame io r h plen
        end
    end.

(* --------------------------------------------------------------------- *)
(* Ping                                                                  *)
(* --------------------------------------------------------------------- *)

(* What another goroutine does to c.activePings under activePingsMu. *)
Inductive ping_op :=
| PingRegister (p : string) (pong : nat)
| PingDeregister (p : string).

Definition apply_ping_op (o : ping_op) (m : gmap string nat) : gmap string nat :=
  match o with
  | PingRegister p pong => <[p := pong]> m
  | PingDeregister p => delete p m
  end.

(* The environment of one ping: the nonce of rand.Uint64, the channel
   made for the pong, the frame write, the changes other pings make to the
   map while this call writes and waits, whether the caller's scope is
   cancelled after the ping is written, and whether the pong channel has
   been closed by the control handler when the call waits on it. *)
Record PingIO := mkPingIO {
  p_id : N;
  p_chan : nat;
  p_io : WriteIO;
  p_others : list ping_op;
  p_cancelled : bool;
  p_pong : bool
}.

(* strconv.FormatUint(id, 10) *)
Definition FormatUint (id : N) : string := pretty id.

(* func (c *Conn) ping(ctx) error *)
Definition ping (env : PingIO) (ctx : context) : M (option error) :=
  let p := FormatUint (p_id env) in
  ap <- gets activePings ;;
  modify (set_activePings (<[p := p_chan env]> ap)) ;;;
  err <- writeMessage (p_io env) ctx opPing (String.list_byte_of_string p) ;;
  ap <- gets activePings ;;
  modify (set_activePings (fold_left (fun m o => apply_ping_op o m) (p_others env) ap)) ;;;
  r <- match err with
       | Some e => ret (Some e)
       | None =>
           select [ on_done (mkContext (ctx_id ctx) (ctx_done ctx || p_cancelled env))
                            (ret (Some ErrCanceled));
                    on_closed (ret_closeErr id);
                    ((fun _ => p_pong env), ret None) ]
       end ;;
  (* the deferred delete *)
  ap <- gets activePings ;;
  modify (set_activePings (delete p ap)) ;;;
  ret r.

(* func (c *Conn) Ping(ctx) error *)
Definition Ping (env : PingIO) (ctx : context) : M (option error) :=
  err <- ping env ctx ;;
  match err with
  | Some e => ret (Some (ErrWrap "failed to ping" (Some e)))
  | None => ret None
  end.

(* --------------------------------------------------------------------- *)
(* Reader pump                                                           *)
(* --------------------------------------------------------------------- *)

Definition pump_releases (h : header) : bool :=
  (h_opcode h =? opContinuation) && fin h && (payloadLength h =? 0).

(* The pump is at the top of its loop: not parked on either channel. *)
Definition pump_idle (c : Conn) : bool :=
  negb (closed c) && bool_decide (readMsg c = None) && negb (readMsgDone c).

(* One turn of readLoop for what readTillMsg returns, up to the point where
   the pump parks sending the header on readMsg. *)
Definition readLoop_turn (res : header + error) : M unit :=
  match res with
  | inr e => close_ (Some e)
  | inl h =>
      (if pump_releases h then releaseLock ReadMsg else ret tt) ;;;
      select [ on_closed (ret tt);
               ((fun c => negb (closed c)), modify (set_readMsg (Some h))) ]
  end.

(* --------------------------------------------------------------------- *)
(* The connection and its callers                                        *)
(* --------------------------------------------------------------------- *)

(* Where a goroutine that uses the connection stands between two of its
   steps.  A goroutine outside any call has no entry. *)
Inductive caller :=
| ReaderWaiting (ctx : context)     (* in Conn.reader, past acquireLock *)
| ReaderOpen (r : messageReader)    (* has a reader that has not returned EOF *)
| WriterOpen (w : messageWriter)    (* has a writer whose close has not succeeded *)
| Writing (ctx : context) (o : opcode) (p : list Byte.byte).
                                    (* in writeMessage with a data opcode, past acquireLock *)

(* The caller acquired the slot and has not released it. *)
Definition holds_read (k : caller) : bool :=
  match k with
  | ReaderWaiting _ | ReaderOpen _ => true
  | _ => false
  end.

Definition holds_write (k : caller) : bool :=
  match k with
  | WriterOpen _ | Writing _ _ _ => true
  | _ => false
  end.

Record sys := mkSys {
  conn : Conn;
  callers : gmap nat caller
}.

Inductive label :=
| CallReader (t : nat) (ctx : context)
| RecvHeader (t : nat) (env : CloseIO)
| CallRead (t : nat) (io : ReadIO) (plen : Z)
| PumpTurn (res : header + error)
| CallWriter (t : nat) (ctx : context) (typ : MessageType)
| CallWrite (t : nat) (io : WriteIO) (p : list Byte.byte)
| CallWriterClose (t : nat) (io : WriteIO)
| BeginWrite (t : nat) (ctx : context) (typ : MessageType) (p : list Byte.byte)
| EndWrite (t : nat) (io : WriteIO)
| WritePong (io : WriteIO) (timeout : bool) (p : list Byte.byte)
| CallPing (env : PingIO) (ctx : context)
| CallClose (env : CloseIO) (code : StatusCode) (reason : string)
| Teardown (err : error)
| CallSetReadLimit (n : Z).

(* Run [m] on the connection and file each outcome under [t]. *)
Definition with_caller {A} (s : sys) (m : M A)
  (k : A -> gmap nat caller -> gmap nat caller) : list sys :=
  map (fun r : A * Conn => mkSys (snd r) (k (fst r) (callers s))) (m (conn s)).

Definition step (l : label) (s : sys) : list sys :=
  match l with
  | CallReader t ctx =>
      match callers s !! t with
      | None =>
          with_caller s (acquireLock ctx ReadMsg)
            (fun err cs => match err with
                           | None => <[t := ReaderWaiting ctx]> cs
                           | Some _ => cs
                           end)
      | Some _ => []
      end
  | RecvHeader t env =>
      match callers s !! t with
      | Some (ReaderWaiting ctx) =>
          with_caller s (reader_wait env ctx)
            (fun res cs => match res with
                           | (_, Some r, None) => <[t := ReaderOpen r]> cs
                           | _ => delete t cs
                           end)
      | _ => []
      end
  | CallRead t io plen =>
      match callers s !! t with
      | Some (ReaderOpen r) =>
          with_caller s (mr_read io r plen)
            (fun res cs => if eofed (fst res) then delete t cs
                           else <[t := ReaderOpen (fst res)]> cs)
      | _ => []
      end
  | PumpTurn res =>
      if pump_idle (conn s)
      then with_caller s (readLoop_turn res) (fun _ cs => cs)
      else []
  | CallWriter t ctx typ =>
      match callers s !! t with
      | None =>
          with_caller s (writer ctx typ)
            (fun res cs => match res with
                           | inl w => <[t := WriterOpen w]> cs
                           | inr _ => cs
                           end)
      | Some _ => []
      end
  | CallWrite t io p =>
      match callers s !! t with
      | Some (WriterOpen w) =>
          with_caller s (mw_write io w p)
            (fun res cs => <[t := WriterOpen (fst res)]> cs)
      | _ => []
      end
  | CallWriterClose t io =>
      match callers s !! t with
      | Some (WriterOpen w) =>
          with_caller s (mw_close io w)
            (fun res cs => match snd res with
                           | None => delete t cs
                           | Some _ => <[t := WriterOpen (fst res)]> cs
                           end)
      | _ => []
      end
  | BeginWrite t ctx typ p =>
      match callers s !! t with
      | None =>
          if controlOp typ then []
          else
            with_caller s (acquireLock ctx WriteMsg)
              (fun err cs => match err with
                             | None => <[t := Writing ctx typ p]> cs
                             | Some _ => cs
                             end)
      | Some _ => []
      end
  | EndWrite t io =>
      match callers s !! t with
      | Some (Writing ctx typ p) =>
          with_caller s
            (r <- writeMessage_frame io ctx typ p ;; releaseLock WriteMsg ;;; ret r)
            (fun _ cs => delete t cs)
      | _ => []
      end
  | WritePong io timeout p =>
      with_caller s (writeMessage io (mkContext 1 timeout) opPong p) (fun _ cs => cs)
  | CallPing env ctx => with_caller s (Ping env ctx) (fun _ cs => cs)
  | CallClose env code reason =>
      with_caller s (Close env code reason) (fun _ cs => cs)
  | Teardown err => with_caller s (close_ (Some err)) (fun _ cs => cs)
  | CallSetReadLimit n => with_caller s (SetReadLimit n) (fun _ cs => cs)
  end.

(* The states a schedule of steps can end in. *)
Fixpoint run (ls : list label) (s : sys) : list sys :=
  match ls with
  | [] => [s]
  | l :: ls => flat_map (run ls) (step l s)
  end.

Definition start (cl : bool) (cr : option error) : sys :=
  mkSys (init cl cr) ∅.

Definition reachable (s : sys) : Prop :=
  exists cl cr ls, In s (run ls (start cl cr)).

(* At most one caller satisfies [holds]. *)
Definition at_most_one (holds : caller -> bool) (cs : gmap nat caller) : Prop :=
  forall t1 t2 k1 k2,
    cs !! t1 = Some k1 -> holds k1 = true ->
    cs !! t2 = Some k2 -> holds k2 = true -> t1 = t2.


(* --------------------------------------------------------------------- *)
(* Relations between the state before and after an operation             *)
(* --------------------------------------------------------------------- *)

(* An operation all of whose outcomes are related by [R] to the state it
   starts from. *)
Definition stable (R : Conn -> Conn -> Prop) {A} (m : M A) : Prop :=
  forall c a c', In (a, c') (m c) -> R c c'.

(* The latch and the terminal error go together. *)
Definition latch_ok (c : Conn) : Prop :=
  closeOnce c = closed c /\
  (closed c = true -> exists cause, closeErr c = Some (websocket_closed cause)).

(* [frame wm rm c c']: from c to c' the close state stays consistent and
   a terminal error, once written, is kept; with [wm] the write-message
   slot is untouched, with [rm] the read-message slot. *)
Definition frame (wm rm : bool) (c c' : Conn) : Prop :=
  (wm = true -> writeMsgLock c' = writeMsgLock c) /\
  (rm = true -> readMsgLock c' = readMsgLock c) /\
  (latch_ok c -> latch_ok c') /\
  (closeOnce c = true -> closeOnce c' = true /\ closeErr c' = closeErr c).

(* func (c *Conn) Read(ctx) (MessageType, []byte, error).  [readAll] is
   ioutil.ReadAll on the limitedReader, whose Read method is declared
   outside websocket.go. *)
Definition Read (env : CloseIO) (during : list Z)
  (readAll : limitedReader -> M (list Byte.byte * option error)) (ctx : context)
  : M (MessageType * list Byte.byte * option error) :=
  res <- Reader env during ctx ;;
  match res with
  | (typ, Some r, None) =>
      b <- readAll r ;;
      ret (typ, fst b, snd b)
  | (_, _, e) => ret (0, [], e)
  end.

(* --------------------------------------------------------------------- *)
(* Errors returned after the latch has fired                             *)
(* --------------------------------------------------------------------- *)

(* [e] is [t], or wraps it through %w, at any depth. *)
Fixpoint carries (t e : error) : Prop :=
  e = t \/
  match e with
  | ErrWrap _ (Some i) => carries t i
  | _ => False
  end.

(* The result of a call refused on a closed connection whose terminal
   error is [t]: that error, or, when the caller's scope is already
   cancelled, possibly the cancellation error. *)
Definition refused (ctx : context) (t : error) (r : option error) : Prop :=
  exists e, r = Some e /\
    (carries t e \/ (ctx_done ctx = true /\ carries ErrCanceled e)).

(* The latch has fired with terminal error [t]; [out] is what the
   buffered writer holds. *)
Definition closed_with (t : error) (out : list chunk) (c : Conn) : Prop :=
  closed c = true /\ closeOnce c = true /\ closeErr c = Some t /\ bw c = out.

(* --------------------------------------------------------------------- *)
(* Specifications of operations                                          *)
(* --------------------------------------------------------------------- *)

(* Started in a state of [P], every outcome of [m] satisfies [Q]. *)
Definition hoare {A} (P : Conn -> Prop) (m : M A) (Q : A -> Conn -> Prop) : Prop :=
  forall c, P c -> forall a c', In (a, c') (m c) -> Q a c'.

(* Started in a state of [P], [m] has an outcome: the call returns. *)
Definition returns {A} (P : Conn -> Prop) (m : M A) : Prop :=
  forall c, P c -> exists x, In x (m c).

(* Both: the call returns, and every outcome satisfies [Q]. *)
Definition spec {A} (P : Conn -> Prop) (m : M A) (Q : A -> Conn -> Prop) : Prop :=
  hoare P m Q /\ returns P m.

(* On the closed connection [c], the call [m] returns, and each of its
   outcomes is refused with the error [err] extracts from the result, the
   connection staying closed with nothing more written. *)
Definition refuses {A} (t : error) (out : list chunk) (m : M A)
  (err : A -> option error) (ctx : context) (c : Conn) : Prop :=
  (exists x, In x (m c)) /\
  forall a c', In (a, c') (m c) -> refused ctx t (err a) /\ closed_with t out c'.

(* A stream error used in examples. *)
Definition peer_reset : error := ErrIO "connection reset by peer".

(* --------------------------------------------------------------------- *)
(* Schedules                                                             *)
(* --------------------------------------------------------------------- *)

Definition no_read_holder (cs : gmap nat caller) : bool :=
  forallb (fun x : nat * caller => negb (holds_read (snd x))) (map_to_list cs).

(* The pump's release of the read-message slot, if this step performs
   one, finds no caller holding the slot. *)
Definition pump_release_unheld (l : label) (s : sys) : bool :=
  match l with
  | PumpTurn (inl h) => negb (pump_releases h) || no_read_holder (callers s)
  | _ => true
  end.

(* [run], restricted to the steps that [ok] admits in the state they are
   taken in. *)
Fixpoint run_if (ok : label -> sys -> bool) (ls : list label) (s : sys) : list sys :=
  match ls with
  | [] => [s]
  | l :: ls => if ok l s then flat_map (run_if ok ls) (step l s) else []
  end.

(* Whoever holds the slot, the slot's channel is full. *)
Definition holders_cover (holds : caller -> bool) (l : slot) (s : sys) : Prop :=
  forall t k, callers s !! t = Some k -> holds k = true -> slot_get l (conn s) = true.

Definition slot_inv (holds : caller -> bool) (l : slot) (s : sys) : Prop :=
  at_most_one holds (callers s) /\ holders_cover holds l s.

(* Example frames and schedules. *)
Definition scope7 : context := mkContext 7 false.

Definition text_fragment : header :=
  mkHeader false false false false opText 2 false [].
Definition text_frame : header :=
  mkHeader true false false false opText 2 false [].
Definition empty_final_continuation : header :=
  mkHeader true false false false opContinuation 0 false [].

(* Caller 1 reads the first fragment of a message to its end; the pump
   then reads an empty FIN continuation; caller 2 calls Reader. *)
Definition two_readers_schedule : list label :=
  [ CallReader 1 scope7;
    PumpTurn (inl text_fragment);
    RecvHeader 1 close_ok;
    CallRead 1 read_ok 2;
    PumpTurn (inl empty_final_continuation);
    CallReader 2 scope7 ].

(* After that, caller 2 receives the header that the pump offers. *)
Definition second_reader_schedule : list label :=
  two_readers_schedule ++ [RecvHeader 2 close_ok].

(* Caller 1 reads a whole one-frame message; caller 2 calls Reader. *)
Definition one_frame_schedule : list label :=
  [ CallReader 1 scope7;
    PumpTurn (inl text_frame);
    RecvHeader 1 close_ok;
    CallRead 1 read_ok 2;
    CallReader 2 scope7 ].


(* The cause a teardown started by close(err) records. *)
Definition first_non_nil (err cerr : option error) : option error :=
  match err with
  | Some _ => err
  | None => cerr
  end.

Definition io_broken : WriteIO :=
  mkWriteIO (Some peer_reset) None None None.

(* The reader has the header [h] of the frame it reads from: from an
   earlier call, with the pump waiting for the acknowledgement, or as the
   continuation header the pump is offering to a reader between two
   fragments. *)
Definition header_in_hand (r : messageReader) (c : Conn) (h : header) : Prop :=
  (r_h r = Some h /\ readMsgDone c = true) \/
  (r_h r = None /\ readMsg c = Some h /\ h_opcode h = opContinuation).

(* A connection whose pump waits for the acknowledgement of a frame, and
   a reader whose current header is [h]. *)
Definition awaiting_ack : Conn := set_readMsgDone true (init false None).
Definition reader_on (h : header) : messageReader :=
  mkMessageReader scope7 0 (Some h) false.

(* The protocol errors of the read path, and the close frame that
   carries one. *)
Definition protocol_error (reason : string) : CloseError :=
  mkCloseError StatusProtocolError reason.

Definition close_frame (cl : bool) (payload : list Byte.byte) : list chunk :=
  [ HeaderBytes (mkHeader true false false false opClose
                          (Z.of_nat (length payload)) cl []);
    PayloadBytes payload ].

(* A connection whose pump is offering the header [h] on readMsg. *)
Definition offering (h : header) : Conn := set_readMsg (Some h) (init false None).

(* A reader between two fragments. *)
Definition reader_between_fragments : messageReader :=
  mkMessageReader scope7 0 None false.

Definition continuation_first_payload : list Byte.byte :=
  default [] (CloseError_bytes (protocol_error continuation_first)).
Definition frame_not_finished_payload : list Byte.byte :=
  default [] (CloseError_bytes (protocol_error frame_not_finished)).

(* --------------------------------------------------------------------- *)
(* A message written through a writer                                    *)
(* --------------------------------------------------------------------- *)

(* A caller that writes the chunks [ps] in turn through [w] and stops at
   the first error. *)
Fixpoint mw_writes (io : WriteIO) (w : messageWriter) (ps : list (list Byte.byte))
  : M (messageWriter * option error) :=
  match ps with
  | [] => ret (w, None)
  | p :: ps =>
      res <- mw_write io w p ;;
      match snd (snd res) with
      | Some e => ret (fst res, Some e)
      | None => mw_writes io (fst res) ps
      end
  end.

Definition data_header (f : bool) (o : opcode) (cl : bool) (p : list Byte.byte)
  : header :=
  mkHeader f false false false o (Z.of_nat (length p)) cl [].

(* The non-FIN frames of the chunks [ps], the first with opcode [o], the
   others continuations. *)
Fixpoint data_frames (cl : bool) (o : opcode) (ps : list (list Byte.byte))
  : list chunk :=
  match ps with
  | [] => []
  | p :: ps =>
      HeaderBytes (data_header false o cl p) :: PayloadBytes p
        :: data_frames cl opContinuation ps
  end.

(* An open connection on which a frame write can go ahead at once. *)
Definition writable (c : Conn) : Prop :=
  latch_ok c /\ closed c = false /\ writeFrameLock c = false.

(* The stream takes every write, and no close interferes. *)
Definition io_clean (io : WriteIO) : Prop :=
  w_header io = None /\ w_payload io = None /\ w_flush io = None /\
  w_race io = None.

(* A ping whose scope is cancelled while it waits and whose pong never
   arrives. *)
Definition ping_unanswered : PingIO := mkPingIO 42 0 io_ok [] true false.

(* --------------------------------------------------------------------- *)
(* Read limit                                                            *)
(* --------------------------------------------------------------------- *)

Definition keeps_limit (c c' : Conn) : Prop := msgReadLimit c' = msgReadLimit c.

(* The limit after the SetReadLimit calls [during], starting from [n]. *)
Definition limit_after (during : list Z) (n : Z) : Z := List.last during n.

(* A call that returns from every state. *)
Definition always_returns {A} (m : M A) : Prop := returns (fun _ => True) m.

(* An acquire of [l] under [ctx] does not park. *)
Definition can_acquire (ctx : context) (l : slot) (c : Conn) : Prop :=
  slot_get l c = false \/ ctx_done ctx = true \/ closed c = true.

(* ===================================================================== *)
(* The rest of websocket.go                                              *)
(* ===================================================================== *)

(* func (w *messageWriter) Write(p) (int, error) *)
Definition mw_Write (io : WriteIO) (w : messageWriter) (p : list Byte.byte)
  : M (messageWriter * (Z * option error)) :=
  res <- mw_write io w p ;;
  match snd (snd res) with
  | Some e => ret (fst res, (fst (snd res), Some (ErrWrap "failed to write" (Some e))))
  | None => ret (fst res, (fst (snd res), None))
  end.

(* func (w *messageWriter) Close() error *)
Definition mw_Close (io : WriteIO) (w : messageWriter)
  : M (messageWriter * option error) :=
  res <- mw_close io w ;;
  match snd res with
  | Some e => ret (fst res, Some (ErrWrap "failed to close writer" (Some e)))
  | None => ret (fst res, None)
  end.

(* func (r *messageReader) Read(p) (int, error): io.EOF is handed on as
   it is, any other error wrapped. *)
Definition mr_Read (io : ReadIO) (r : messageReader) (plen : Z)
  : M (messageReader * (Z * option error)) :=
  res <- mr_read io r plen ;;
  match snd (snd res) with
  | Some e =>
      if errors_Is ErrEOF e
      then ret (fst res, (fst (snd res), Some ErrEOF))
      else ret (fst res, (fst (snd res), Some (ErrWrap "failed to read" (Some e))))
  | None => ret (fst res, (fst (snd res), None))
  end.

(* func (c *Conn) writePong(p) error; [timeout] says whether its
   5-second scope has run out when it is consulted. *)
Definition writePong (io : WriteIO) (timeout : bool) (p : list Byte.byte)
  : M (option error) :=
  writeMessage io (mkContext 1 timeout) opPong p.

(** Modelled from the spec: maxControlFramePayload and StatusNoStatusRcvd
    are declared outside websocket.go; section 3 gives 125 bytes for a
    control frame and 1005 for "no status received". *)
Definition maxControlFramePayload : Z := 125.
Definition StatusNoStatusRcvd : StatusCode := 1005.

(** Modelled from the spec: fastXOR is declared outside websocket.go;
    section 6 gives payload[i] ^= maskKey[(startPos + i) mod 4]. *)
Definition xor_byte (a b : Byte.byte) : Byte.byte :=
  match Byte.of_N (N.lxor (Byte.to_N a) (Byte.to_N b)) with
  | Some x => x
  | None => Byte.x00
  end.

Fixpoint fastXOR (key : list Byte.byte) (pos : nat) (b : list Byte.byte)
  : list Byte.byte :=
  match b with
  | [] => []
  | x :: b =>
      xor_byte x (nth (pos mod 4) key Byte.x00) :: fastXOR key (S pos) b
  end.

(* What the stream and the payload give one handleControl: what
   io.ReadFull delivers for the payload, what parseClosePayload (declared
   outside websocket.go) returns for it, the pong write, the Close or
   writeClose it may reach, and whether the channel that a pong finds in
   the map of active pings is still open: it is not when an earlier pong
   with the same payload was handled and the ping has not yet run its
   deferred delete. *)
Record ControlIO := mkControlIO {
  hc_payload : list Byte.byte + error;
  hc_parse : CloseError + error;
  hc_pong : WriteIO;
  hc_pong_timeout : bool;
  hc_close : CloseIO;
  hc_pong_open : bool
}.

(* How handleControl ends: it returns, having closed the channel of a
   waiting ping (close(pong)) or not; or close(pong) meets a channel that
   is already closed, the run-time panic "close of closed channel"; or it
   reaches the panic of its default case, "unexpected control opcode". *)
Inductive control_end :=
| Handled
| PongClosed (pong : nat)
| CloseOfClosedChannel (pong : nat)
| UnexpectedOpcode.

(* func (c *Conn) handleControl(h header) *)
Definition handleControl (env : ControlIO) (h : header) : M control_end :=
  if maxControlFramePayload <? payloadLength h
  then Close (hc_close env) StatusProtocolError "control frame too large" ;;; ret Handled
  else if negb (fin h)
  then Close (hc_close env) StatusProtocolError "control frame cannot be fragmented" ;;;
       ret Handled
  else
    match hc_payload env with
    | inr e =>
        close_ (Some (ErrWrap "failed to read control frame payload" (Some e))) ;;;
        ret Handled
    | inl b =>
        let b := if masked h then fastXOR (maskKey h) 0 b else b in
        if h_opcode h =? opPing then writePong (hc_pong env) (hc_pong_timeout env) b ;;; ret Handled
        else if h_opcode h =? opPong then
          ap <- gets activePings ;;
          match ap !! String.string_of_list_byte b with
          | Some pong =>
              if hc_pong_open env then ret (PongClosed pong)
              else ret (CloseOfClosedChannel pong)
          | None => ret Handled
          end
        else if h_opcode h =? opClose then
          match hc_parse env with
          | inr e =>
              close_ (Some (ErrWrap "received invalid close payload" (Some e))) ;;;
              ret Handled
          | inl ce =>
              if Code ce =? StatusNoStatusRcvd
              then writeClose (hc_close env) [] ce ;;; ret Handled
              else Close (hc_close env) (Code ce) (Reason ce) ;;; ret Handled
          end
        else ret UnexpectedOpcode
    end.

(* func (c *Conn) readHeader() (header, error); [res] is what the
   readHeader function of the frame codec returns on the stream. *)
Definition Conn_readHeader (res : header + error) : M (header + error) :=
  err <- acquireLock Background ReadFrame ;;
  match err with
  | Some e => ret (inr e)
  | None =>
      releaseLock ReadFrame ;;;
      match res with
      | inr e => ret (inr (ErrWrap "failed to read header" (Some e)))
      | inl h => ret (inl h)
      end
  end.

(* One frame arriving on the stream: the result of reading its header,
   and the environment of its control handler. *)
Record incoming := mkIncoming {
  in_header : header + error;
  in_control : ControlIO
}.

(* fmt.Sprintf("%v", b) of a bool. *)
Definition fmt_bool (b : bool) : string := if b then "true" else "false".

(* The text %v gives an opcode is fixed outside websocket.go; it only
   appears in a close reason, here as the decimal of the opcode. *)
Definition fmt_opcode (o : opcode) : string := pretty o.

Definition rsv_set (h : header) : string :=
  String.append "received header with rsv bits set: "
    (String.append (fmt_bool (rsv1 h))
       (String.append ":" (String.append (fmt_bool (rsv2 h))
          (String.append ":" (fmt_bool (rsv3 h)))))).

Definition unknown_opcode (h : header) : string :=
  String.append "unknown opcode " (fmt_opcode (h_opcode h)).

(* func (c *Conn) readTillMsg() (header, error), on the frames that
   arrive; with no frame left the loop waits on the stream. *)
Fixpoint readTillMsg (frames : list incoming) : M (header + error) :=
  match frames with
  | [] => fun _ => []
  | f :: frames =>
      r <- Conn_readHeader (in_header f) ;;
      match r with
      | inr e => ret (inr e)
      | inl h =>
          if rsv1 h || rsv2 h || rsv3 h
          then
            Close (hc_close (in_control f)) StatusProtocolError (rsv_set h) ;;;
            ret (inr (ErrCloseError (mkCloseError StatusProtocolError (rsv_set h))))
          else if controlOp (h_opcode h)
          then
            e <- handleControl (in_control f) h ;;
            match e with
            | CloseOfClosedChannel _ | UnexpectedOpcode =>
                fun _ => []                     (* the panic ends the goroutine *)
            | _ => readTillMsg frames
            end
          else if (h_opcode h =? opBinary) || (h_opcode h =? opText)
                  || (h_opcode h =? opContinuation)
          then ret (inl h)
          else
            Close (hc_close (in_control f)) StatusProtocolError (unknown_opcode h) ;;;
            ret (inr (ErrCloseError (mkCloseError StatusProtocolError (unknown_opcode h))))
      end
  end.

(* One turn of readLoop on the frames that arrive. *)
Definition readLoop_iter (frames : list incoming) : M unit :=
  res <- readTillMsg frames ;;
  readLoop_turn res.

(* The CloseError that Close(code, reason) sends and records: the
   caller's, or an internal-error one when the caller's has no encoding. *)
Definition sent_close_error (code : StatusCode) (reason : string) : CloseError :=
  match CloseError_bytes (mkCloseError code reason) with
  | Some _ => mkCloseError code reason
  | None => mkCloseError StatusInternalError ""
  end.

(* A caller that reads through [r] with buffers of the lengths [plens] in
   turn, stops at the first error, and adds up the bytes it got. *)
Fixpoint mr_reads (io : ReadIO) (r : messageReader) (plens : list Z)
  : M (messageReader * (Z * option error)) :=
  match plens with
  | [] => ret (r, (0, None))
  | plen :: plens =>
      res <- mr_read io r plen ;;
      match snd (snd res) with
      | Some e => ret res
      | None =>
          rest <- mr_reads io (fst res) plens ;;
          ret (fst rest, (fst (snd res) + fst (snd rest), snd (snd rest)))
      end
  end.

(* An open connection on which the reader of the current frame can read
   at once: the pump waits for its acknowledgement and the read-frame slot
   is free. *)
Definition readable (c : Conn) : Prop :=
  closed c = false /\ readFrameLock c = false /\ readMsgDone c = true.

(* The stream fills every buffer, and no close interferes. *)
Definition read_clean (io : ReadIO) : Prop :=
  r_short io = None /\ r_race io = None.

(* The mask position after [n] more bytes of a frame with header [h]. *)
Definition mask_after (h : header) (pos n : Z) : Z :=
  if masked h then fastXOR_pos pos n else pos.

(* Example control frames and environments. *)
Definition control_ok : ControlIO :=
  mkControlIO (inl []) (inl (mkCloseError StatusNoStatusRcvd "")) io_ok false close_ok
    true.

Definition control_with (b : list Byte.byte) : ControlIO :=
  mkControlIO (inl b) (inl (mkCloseError StatusNoStatusRcvd "")) io_ok false close_ok
    true.

Definition control_header (o : opcode) (n : Z) : header :=
  mkHeader true false false false o n false [].

Definition fragmented_ping : header :=
  mkHeader false false false false opPing 0 false [].

(* []byte(strconv.FormatUint(id, 10)), the payload of a ping. *)
Definition ping_payload (id : N) : list Byte.byte :=
  String.list_byte_of_string (FormatUint id).

(* A ping and then a one-frame text message arrive. *)
Definition ping_then_text : list incoming :=
  [ mkIncoming (inl (control_header opPing 1)) (control_with [Byte.x58]);
    mkIncoming (inl text_frame) control_ok ].

(* The stream ends while the pump reads a header. *)
Definition header_eof : error := ErrWrap "failed to read header" (Some ErrEOF).

(* What messageReader.Read makes of the error of read. *)
Definition Read_error (e : error) : error :=
  if errors_Is ErrEOF e then ErrEOF else ErrWrap "failed to read" (Some e).

(* ===================================================================== *)
(* Package wsjson                                                        *)
(* ===================================================================== *)

(** Modelled from the spec: MessageText and StatusUnsupportedData are
    declared outside the source files; section 6 gives text = 0x1 and 1003
    unsupported data. *)
Definition MessageText : MessageType := 1.
Definition StatusUnsupportedData : StatusCode := 1003.

(* e.Encode(v) on the writer: [encoded] is what the JSON encoder makes of
   v, its bytes (handed to the writer in one Write) or its error. *)
Definition json_Encode (io : WriteIO) (w : messageWriter)
  (encoded : list Byte.byte + error) : M (messageWriter * option error) :=
  match encoded with
  | inr e => ret (w, Some e)
  | inl b =>
      res <- mw_Write io w b ;;
      ret (fst res, snd (snd res))
  end.

(* func write(ctx, c, v) error of wsjson *)
Definition wsjson_write (io_write io_close : WriteIO)
  (encoded : list Byte.byte + error) (ctx : context) : M (option error) :=
  r <- Writer ctx MessageText ;;
  match r with
  | inr e => ret (Some e)
  | inl w =>
      enc <- json_Encode io_write w encoded ;;
      match snd enc with
      | Some e => ret (Some (ErrWrap "failed to encode json" (Some e)))
      | None =>
          res <- mw_Close io_close (fst enc) ;;
          ret (snd res)
      end
  end.

(* func Write(ctx, c, v) error of wsjson *)
Definition wsjson_Write (io_write io_close : WriteIO)
  (encoded : list Byte.byte + error) (ctx : context) : M (option error) :=
  err <- wsjson_write io_write io_close encoded ctx ;;
  match err with
  | Some e => ret (Some (ErrWrap "failed to write json" (Some e)))
  | None => ret None
  end.

Definition only_text : string := "can only accept text messages".

(* The error text names the two message types through %v, whose text is
   fixed outside the source files; here as decimals. *)
Definition unexpected_frame_type (typ : MessageType) : error :=
  ErrNew (String.append "unexpected frame type for json (expected "
            (String.append (pretty MessageText)
               (String.append "): " (pretty typ)))).

(* wsjson's read after c.Read has returned [res]; [unmarshal] is
   json.Unmarshal(b, v). *)
Definition wsjson_decode (env : CloseIO) (unmarshal : list Byte.byte -> option error)
  (res : MessageType * list Byte.byte * option error) : M (option error) :=
  match res with
  | (_, _, Some e) => ret (Some e)
  | (typ, b, None) =>
      if negb (typ =? MessageText)
      then
        Close env StatusUnsupportedData only_text ;;;
        ret (Some (unexpected_frame_type typ))
      else
        match unmarshal b with
        | Some e => ret (Some (ErrWrap "failed to unmarshal json" (Some e)))
        | None => ret None
        end
  end.

(* func read(ctx, c, v) error of wsjson *)
Definition wsjson_read (env : CloseIO) (during : list Z)
  (readAll : limitedReader -> M (list Byte.byte * option error))
  (unmarshal : list Byte.byte -> option error) (ctx : context) : M (option error) :=
  res <- Read env during readAll ctx ;;
  wsjson_decode env unmarshal res.

(* func Read(ctx, c, v) error of wsjson *)
Definition wsjson_Read (env : CloseIO) (during : list Z)
  (readAll : limitedReader -> M (list Byte.byte * option error))
  (unmarshal : list Byte.byte -> option error) (ctx : context) : M (option error) :=
  err <- wsjson_read env during readAll unmarshal ctx ;;
  match err with
  | Some e => ret (Some (ErrWrap "failed to read json" (Some e)))
  | None => ret None
  end.

(* A ping whose pong has arrived when it waits. *)
Definition ping_answered : PingIO := mkPingIO 42 0 io_ok [] false true.

(* ===================================================================== *)
(* Outcomes of composed operations                                       *)
(* ===================================================================== *)

Lemma In_ret {A} (a : A) (c : Conn) (x : A * Conn) :
  In x (ret a c) <-> x = (a, c).
Proof. unfold ret; simpl; intuition congruence. Qed.

Lemma In_bind {A B} (m : M A) (k : A -> M B) (c : Conn) (x : B * Conn) :
  In x (bind m k c) <-> exists a c', In (a, c') (m c) /\ In x (k a c').
Proof.
  unfold bind. rewrite in_flat_map. split.
  - intros [[a c'] [H1 H2]]. exists a, c'. auto.
  - intros (a & c' & H1 & H2). exists (a, c'). auto.
Qed.

Lemma In_select {A} (cases : list (sel_case A)) (c : Conn) (x : A * Conn) :
  In x (select cases c) <->
  exists k, In k cases /\ fst k c = true /\ In x (snd k c).
Proof.
  unfold select. rewrite in_flat_map. split.
  - intros [k [H1 H2]]. exists k. destruct (fst k c); simpl in H2; tauto.
  - intros (k & H1 & H2 & H3). exists k. rewrite H2. auto.
Qed.

Lemma In_modify (f : Conn -> Conn) (c : Conn) (x : unit * Conn) :
  In x (modify f c) <-> x = (tt, f c).
Proof. unfold modify; simpl; intuition congruence. Qed.

Lemma In_gets {A} (f : Conn -> A) (c : Conn) (x : A * Conn) :
  In x (gets f c) <-> x = (f c, c).
Proof. unfold gets; simpl; intuition congruence. Qed.

(* An operation all of whose outcomes are related to the state it starts
   from by a preorder. *)
Section Stable.
Variable R : Conn -> Conn -> Prop.
Hypothesis R_refl : forall c, R c c.
Hypothesis R_trans : forall a b c, R a b -> R b c -> R a c.


Lemma stable_ret {A} (a : A) : stable R (ret a).
Proof. intros c a' c' H. apply In_ret in H. inversion H; subst. apply R_refl. Qed.

Lemma stable_gets {A} (f : Conn -> A) : stable R (gets f).
Proof. intros c a' c' H. apply In_gets in H. inversion H; subst. apply R_refl. Qed.

Lemma stable_ret_closeErr {A} (f : option error -> A) : stable R (ret_closeErr f).
Proof.
  intros c a' c' H. unfold ret_closeErr in H. simpl in H.
  destruct H as [H|[]]. inversion H; subst. apply R_refl.
Qed.

Lemma stable_bind {A B} (m : M A) (k : A -> M B) :
  stable R m -> (forall a, stable R (k a)) -> stable R (bind m k).
Proof.
  intros Hm Hk c b c'' H. apply In_bind in H. destruct H as (a & c' & H1 & H2).
  eapply R_trans; [eapply Hm | eapply Hk]; eassumption.
Qed.

Lemma stable_select {A} (cases : list (sel_case A)) :
  Forall (fun k => stable R (snd k)) cases -> stable R (select cases).
Proof.
  intros HF c a c' H. apply In_select in H. destruct H as (k & Hk & _ & Hin).
  rewrite List.Forall_forall in HF. eapply HF; eassumption.
Qed.

Lemma stable_modify (f : Conn -> Conn) :
  (forall c, R c (f c)) -> stable R (modify f).
Proof. intros Hf c a c' H. apply In_modify in H. inversion H; subst. apply Hf. Qed.

Lemma stable_fold {A} (f : A -> M unit) (l : list A) :
  (forall a, stable R (f a)) ->
  stable R (fold_right (fun n k => bind (f n) (fun _ => k)) (ret tt) l).
Proof.
  intros Hf. induction l as [|a l IH]; simpl.
  - apply stable_ret.
  - apply stable_bind; auto.
Qed.
End Stable.

(* Walks an operation down to its primitive steps; [prim] closes them and
   the side conditions on the preorder. *)
Ltac stable_with prim :=
  repeat first
    [ apply stable_ret; solve [prim]
    | apply stable_gets; solve [prim]
    | apply stable_ret_closeErr; solve [prim]
    | apply stable_bind; [solve [prim] | | intros ]
    | apply stable_select; repeat (apply List.Forall_cons; simpl); try apply List.Forall_nil
    | solve [prim]
    | match goal with
      | |- stable _ (match ?x with _ => _ end) => destruct x
      | |- stable _ (let _ := _ in _) => cbv zeta
      end ].

(* --------------------------------------------------------------------- *)
(* What an operation leaves alone                                        *)
(* --------------------------------------------------------------------- *)


Lemma frame_refl wm rm c : frame wm rm c c.
Proof. unfold frame; tauto. Qed.

Lemma frame_trans wm rm a b c : frame wm rm a b -> frame wm rm b c -> frame wm rm a c.
Proof.
  unfold frame. intros (A1 & A2 & A3 & A4) (B1 & B2 & B3 & B4).
  split; [|split; [|split]].
  - intros. rewrite B1, A1; auto.
  - intros. rewrite B2, A2; auto.
  - auto.
  - intros H. destruct (A4 H) as [H1 H2]. destruct (B4 H1) as [H3 H4].
    split; congruence.
Qed.

Lemma frame_weaken wm rm c c' : frame true true c c' -> frame wm rm c c'.
Proof. unfold frame. intuition. Qed.

Create HintDb stable.
#[local] Hint Resolve frame_refl frame_trans : stable.

Ltac frame_fields :=
  intros; unfold frame, latch_ok, close_poison, close_latch;
  match goal with c : Conn |- _ => destruct c end;
  repeat match goal with l : slot |- _ => destruct l end;
  simpl in *; subst; intuition (try congruence; eauto).

Lemma stable_releaseLock (R : Conn -> Conn -> Prop) (l : slot) :
  (forall c, R c c) -> (forall c, R c (slot_set l false c)) ->
  stable R (releaseLock l).
Proof.
  intros Hr Hs c a c' H. unfold releaseLock in H.
  destruct (slot_get l c); destruct H as [H|[]]; inversion H; subst; auto.
Qed.

Lemma stable_close_ (R : Conn -> Conn -> Prop) (err : option error) :
  (forall c, R c c) ->
  (forall c, closeOnce c = true -> R c (close_poison c)) ->
  (forall c, closeOnce c = false -> R c (close_poison (close_latch err c))) ->
  stable R (close_ err).
Proof.
  intros Hr H1 H2 c a c' H. unfold close_ in H.
  destruct (closeOnce c) eqn:E; destruct H as [H|[]]; inversion H; subst; auto.
  destruct (closing c); auto.
Qed.

Lemma stable_race_close (R : Conn -> Conn -> Prop) (r : option (option error)) :
  (forall c, R c c) ->
  (forall c e, closeOnce c = false -> R c (close_latch e c)) ->
  stable R (race_close r).
Proof.
  intros Hr H1 c a c' H. unfold race_close in H.
  destruct r; destruct H as [H|[]]; inversion H; subst; auto.
  destruct (closeOnce c) eqn:E; auto.
Qed.

Lemma stable_recv_readMsg (R : Conn -> Conn -> Prop) :
  (forall c, R c (set_readMsgDone true (set_readMsg None c))) ->
  stable R recv_readMsg.
Proof.
  intros Hs c a c' H. unfold recv_readMsg in H.
  destruct (readMsg c); [|destruct H]. destruct H as [H|[]]. inversion H; subst; auto.
Qed.

Ltac frame_prim :=
  first [ apply stable_modify
        | apply stable_releaseLock
        | apply stable_close_
        | apply stable_race_close
        | apply stable_recv_readMsg ];
  frame_fields.

Ltac frame_tac := unfold on_done, on_closed; stable_with ltac:(first [frame_prim | eauto with stable]).

Lemma frame_acquire_frame_slot wm rm ctx l :
  l = WriteFrame \/ l = ReadFrame -> stable (frame wm rm) (acquireLock ctx l).
Proof. intros [-> | ->]; unfold acquireLock; frame_tac. Qed.

Lemma frame_writeFrame wm rm io ctx h p : stable (frame wm rm) (writeFrame io ctx h p).
Proof.
  unfold writeFrame, writeFrame_defers, writeFrame_body.
  pose proof (frame_acquire_frame_slot wm rm ctx WriteFrame (or_introl eq_refl)).
  frame_tac.
Qed.

#[local] Hint Resolve frame_writeFrame : stable.

Lemma frame_acquire ctx l : stable (frame false false) (acquireLock ctx l).
Proof. unfold acquireLock; frame_tac. Qed.

Lemma frame_acquire_read_msg wm ctx : stable (frame wm false) (acquireLock ctx ReadMsg).
Proof. unfold acquireLock; frame_tac. Qed.

Lemma frame_acquire_write_msg rm ctx : stable (frame false rm) (acquireLock ctx WriteMsg).
Proof. unfold acquireLock; frame_tac. Qed.

Lemma frame_writeMessage_frame wm rm io ctx o p :
  stable (frame wm rm) (writeMessage_frame io ctx o p).
Proof. unfold writeMessage_frame; frame_tac. Qed.

#[local] Hint Resolve frame_writeMessage_frame frame_acquire_write_msg
  frame_acquire_read_msg : stable.

Lemma frame_writeMessage_control wm rm io ctx o p :
  controlOp o = true -> stable (frame wm rm) (writeMessage io ctx o p).
Proof. intros H. unfold writeMessage. rewrite H. simpl. frame_tac. Qed.

Lemma frame_writeMessage rm io ctx o p :
  stable (frame false rm) (writeMessage io ctx o p).
Proof. unfold writeMessage. frame_tac. Qed.

Lemma frame_writeClose wm rm env p ce : stable (frame wm rm) (writeClose env p ce).
Proof.
  unfold writeClose.
  pose proof (frame_writeMessage_control wm rm (c_io env) (mkContext 1 (c_timeout env))
                opClose p eq_refl).
  frame_tac.
Qed.

#[local] Hint Resolve frame_writeClose : stable.

Lemma frame_Close wm rm env code reason : stable (frame wm rm) (Close env code reason).
Proof. unfold Close, exportedClose. frame_tac. Qed.

#[local] Hint Resolve frame_Close : stable.

Lemma frame_reader_wait wm rm env ctx : stable (frame wm rm) (reader_wait env ctx).
Proof. unfold reader_wait. frame_tac. Qed.

Lemma frame_mr_read wm io r plen : stable (frame wm false) (mr_read io r plen).
Proof.
  unfold mr_read, mr_read_frame, mr_read_tail.
  pose proof (frame_acquire_frame_slot wm false (r_ctx r) ReadFrame (or_intror eq_refl)).
  frame_tac.
Qed.

Lemma frame_ping wm rm env ctx : stable (frame wm rm) (ping env ctx).
Proof.
  unfold ping.
  pose proof (frame_writeMessage_control wm rm (p_io env) ctx opPing
                (String.list_byte_of_string (FormatUint (p_id env))) eq_refl).
  frame_tac.
Qed.

#[local] Hint Resolve frame_ping : stable.

Lemma frame_Ping wm rm env ctx : stable (frame wm rm) (Ping env ctx).
Proof. unfold Ping. frame_tac. Qed.

Lemma frame_readLoop_turn wm res : stable (frame wm false) (readLoop_turn res).
Proof. unfold readLoop_turn. frame_tac. Qed.

Lemma frame_mw_write wm rm io w p : stable (frame wm rm) (mw_write io w p).
Proof. unfold mw_write. frame_tac. Qed.

Lemma frame_mw_close rm io w : stable (frame false rm) (mw_close io w).
Proof. unfold mw_close. frame_tac. Qed.

Lemma frame_SetReadLimit wm rm n : stable (frame wm rm) (SetReadLimit n).
Proof. unfold SetReadLimit. frame_tac. Qed.

Lemma frame_drop wm rm c c' : frame wm rm c c' -> frame false false c c'.
Proof. unfold frame. intuition discriminate. Qed.

Lemma In_with_caller {A} (s s' : sys) (m : M A)
  (k : A -> gmap nat caller -> gmap nat caller) :
  In s' (with_caller s m k) <->
  exists a c', In (a, c') (m (conn s)) /\ s' = mkSys c' (k a (callers s)).
Proof.
  unfold with_caller. rewrite in_map_iff. split.
  - intros [[a c'] [H1 H2]]. exists a, c'. auto.
  - intros (a & c' & H1 & H2). exists (a, c'). auto.
Qed.

Lemma frame_writer rm ctx typ : stable (frame false rm) (writer ctx typ).
Proof. unfold writer. frame_tac. Qed.

(* Every step of every goroutine keeps the close state consistent and the
   terminal error, once written. *)
Lemma step_frame l s s' : In s' (step l s) -> frame false false (conn s) (conn s').
Proof.
  destruct l; unfold step;
    repeat match goal with
           | |- In _ (match ?x with _ => _ end) -> _ => destruct x
           end;
    first [ rewrite In_with_caller | intros [] ]; intros (a & c' & H & ->); simpl;
    eapply frame_drop.
  - eapply frame_acquire; eauto.
  - eapply (frame_reader_wait true true); eauto.
  - eapply (frame_mr_read true); eauto.
  - eapply (frame_readLoop_turn true); eauto.
  - eapply (frame_writer true); eauto.
  - eapply (frame_mw_write true true); eauto.
  - eapply (frame_mw_close true); eauto.
  - eapply frame_acquire; eauto.
  - revert H. apply (stable_bind (frame false true)); eauto with stable.
    intros. apply stable_bind; eauto with stable.
    + apply stable_releaseLock; frame_fields.
    + intros. apply stable_ret. eauto with stable.
  - eapply (frame_writeMessage true); eauto.
  - eapply (frame_Ping true true); eauto.
  - eapply (frame_Close true true); eauto.
  - revert H. apply (stable_close_ (frame true true)); frame_fields.
  - eapply (frame_SetReadLimit true true); eauto.
Qed.

Lemma run_frame ls : forall s s',
  In s' (run ls s) -> frame false false (conn s) (conn s').
Proof.
  induction ls as [|l ls IH]; simpl; intros s s' H.
  - destruct H as [<-|[]]. apply frame_refl.
  - apply in_flat_map in H. destruct H as (s1 & H1 & H2).
    eapply frame_trans; [eapply step_frame | eapply IH]; eassumption.
Qed.

(* ===================================================================== *)
(* Close coordinator                                                     *)
(* ===================================================================== *)

Lemma acquireLock_error ctx l c e c' :
  ctx_done ctx = false -> In (Some e, c') (acquireLock ctx l c) ->
  closed c = true /\ closeErr c = Some e /\ c' = c.
Proof.
  intros Hd H. unfold acquireLock in H. apply In_select in H.
  destruct H as (k & Hk & Hg & Hin). simpl in Hk.
  destruct Hk as [<-|[<-|[<-|[]]]]; simpl in *.
  - congruence.
  - destruct Hin as [Hin|[]]. inversion Hin; subst. auto.
  - destruct Hin as [Hin|[]]. discriminate.
Qed.

(** C1: on a connection whose closeOnce has not been entered, close(err)
    is the teardown: it fires the latch and records, wrapped with the
    sentinel "websocket closed", the caller's error when it is non-nil and
    the error of closing the stream otherwise.  A close after it changes
    nothing, and whatever any goroutines do afterwards (further closes,
    user Close calls, reads, writes, pings, the pump), the terminal error
    stays the one recorded, the latch stays fired, and an acquire of any
    slot that fails under a live scope returns that terminal error. *)
Theorem close_records_terminal_error_once
  (c : Conn) (cs : gmap nat caller) (err : option error) (ls : list label) :
  closeOnce c = false ->
  exists c1,
    close_ err c = [(tt, c1)] /\
    closed c1 = true /\
    closeErr c1 = Some (websocket_closed (first_non_nil err (closer c))) /\
    (forall err', close_ err' c1 = [(tt, c1)]) /\
    forall s', In s' (run ls (mkSys c1 cs)) ->
      closeErr (conn s') = closeErr c1 /\
      closeOnce (conn s') = true /\
      forall ctx l e c',
        ctx_done ctx = false ->
        In (Some e, c') (acquireLock ctx l (conn s')) ->
        Some e = closeErr c1.
Proof.
  intros Hc. exists (close_poison (close_latch err c)).
  assert (Hone : closeOnce (close_poison (close_latch err c)) = true)
    by (destruct c; reflexivity).
  split; [unfold close_; rewrite Hc; reflexivity|].
  split; [destruct c; reflexivity|].
  split; [destruct c; reflexivity|].
  split.
  - intros err'. unfold close_. rewrite Hone.
    destruct c; reflexivity.
  - intros s' Hs'. apply run_frame in Hs'. simpl in Hs'.
    destruct Hs' as (_ & _ & _ & Hk). destruct (Hk Hone) as [H1 H2].
    split; [exact H2|]. split; [exact H1|].
    intros ctx l e c' Hd Hin.
    apply acquireLock_error in Hin; auto. destruct Hin as (_ & He & _).
    congruence.
Qed.

Lemma close_records_terminal_error_once_witness :
  exists c1,
    close_ None (init true (Some (ErrIO "broken pipe"))) = [(tt, c1)] /\
    closeErr c1 = Some (websocket_closed (Some (ErrIO "broken pipe"))).
Proof.
  destruct (close_records_terminal_error_once
              (init true (Some (ErrIO "broken pipe"))) ∅ None
              [Teardown ErrEOF] eq_refl)
    as (c1 & H1 & _ & H2 & _).
  exists c1. split; [exact H1 | exact H2].
Defined.

(* ===================================================================== *)
(* Slots                                                                 *)
(* ===================================================================== *)

(** C9: releasing a slot is idempotent: a release always returns, with
    exactly one outcome; releasing twice in a row leaves the connection as
    releasing once does; and releasing a slot that is free changes
    nothing. *)
Theorem releaseLock_idempotent (l : slot) (c : Conn) :
  (exists c1, releaseLock l c = [(tt, c1)] /\
              slot_get l c1 = false /\
              (releaseLock l ;;; releaseLock l) c = [(tt, c1)]) /\
  releaseLock l (slot_set l false c) = [(tt, slot_set l false c)].
Proof.
  split.
  - exists (slot_set l false c).
    destruct c, l; unfold bind, releaseLock; simpl;
      repeat match goal with b : bool |- _ => destruct b end; simpl; auto.
  - destruct c, l; reflexivity.
Qed.

(* ===================================================================== *)
(* Rules for specifications                                              *)
(* ===================================================================== *)

Lemma hoare_ret {A} (P : Conn -> Prop) (a : A) (Q : A -> Conn -> Prop) :
  (forall c, P c -> Q a c) -> hoare P (ret a) Q.
Proof. intros H c Hc a' c' Hin. apply In_ret in Hin. inversion Hin; subst. auto. Qed.

Lemma hoare_bind {A B} (P : Conn -> Prop) (m : M A) (k : A -> M B)
  (Q1 : A -> Conn -> Prop) (Q : B -> Conn -> Prop) :
  hoare P m Q1 -> (forall a, hoare (Q1 a) (k a) Q) -> hoare P (bind m k) Q.
Proof.
  intros Hm Hk c Hc b c'' Hin. apply In_bind in Hin.
  destruct Hin as (a & c' & H1 & H2). eapply Hk; [eapply Hm|]; eassumption.
Qed.

Lemma hoare_select {A} (P : Conn -> Prop) (cases : list (sel_case A))
  (Q : A -> Conn -> Prop) :
  Forall (fun k => hoare (fun c => P c /\ fst k c = true) (snd k) Q) cases ->
  hoare P (select cases) Q.
Proof.
  intros HF c Hc a c' Hin. apply In_select in Hin.
  destruct Hin as (k & Hk & Hg & Hin). rewrite List.Forall_forall in HF.
  eapply (HF k Hk c); eauto.
Qed.

Lemma hoare_gets {A} (P : Conn -> Prop) (f : Conn -> A) (Q : A -> Conn -> Prop) :
  (forall c, P c -> Q (f c) c) -> hoare P (gets f) Q.
Proof. intros H c Hc a' c' Hin. apply In_gets in Hin. inversion Hin; subst. auto. Qed.

Lemma hoare_modify (P : Conn -> Prop) (f : Conn -> Conn) (Q : unit -> Conn -> Prop) :
  (forall c, P c -> Q tt (f c)) -> hoare P (modify f) Q.
Proof. intros H c Hc a' c' Hin. apply In_modify in Hin. inversion Hin; subst. auto. Qed.

Lemma hoare_ret_closeErr {A} (P : Conn -> Prop) (f : option error -> A)
  (Q : A -> Conn -> Prop) :
  (forall c, P c -> Q (f (closeErr c)) c) -> hoare P (ret_closeErr f) Q.
Proof.
  intros H c Hc a' c' Hin. destruct Hin as [Hin|[]]. inversion Hin; subst. auto.
Qed.

Lemma slot_set_same (l : slot) (c : Conn) (b : bool) :
  slot_get l c = b -> slot_set l b c = c.
Proof. destruct c, l; simpl; congruence. Qed.

Lemma hoare_releaseLock (P : Conn -> Prop) (l : slot) (Q : unit -> Conn -> Prop) :
  (forall c, P c -> Q tt (slot_set l false c)) -> hoare P (releaseLock l) Q.
Proof.
  intros H c Hc a' c' Hin. unfold releaseLock in Hin. pose proof (H c Hc) as HQ.
  destruct (slot_get l c) eqn:E; destruct Hin as [Hin|[]];
    injection Hin as Ha Hc'; subst a' c'; auto.
  rewrite (slot_set_same _ _ _ E) in HQ. exact HQ.
Qed.

Lemma hoare_conseq {A} (P P' : Conn -> Prop) (m : M A) (Q Q' : A -> Conn -> Prop) :
  hoare P' m Q' -> (forall c, P c -> P' c) -> (forall a c, Q' a c -> Q a c) ->
  hoare P m Q.
Proof. intros H HP HQ c Hc a c' Hin. eapply HQ, H; eauto. Qed.

Lemma hoare_absurd {A} (P : Conn -> Prop) (m : M A) (Q : A -> Conn -> Prop) :
  (forall c, P c -> False) -> hoare P m Q.
Proof. intros H c Hc. destruct (H c Hc). Qed.

Lemma returns_ret {A} (P : Conn -> Prop) (a : A) : returns P (ret a).
Proof. intros c _. exists (a, c). apply In_ret. reflexivity. Qed.

Lemma returns_bind {A B} (P : Conn -> Prop) (m : M A) (k : A -> M B)
  (Q1 : A -> Conn -> Prop) :
  returns P m -> hoare P m Q1 -> (forall a, returns (Q1 a) (k a)) ->
  returns P (bind m k).
Proof.
  intros Hm Hh Hk c Hc. destruct (Hm c Hc) as [[a c'] Hin].
  destruct (Hk a c' (Hh c Hc a c' Hin)) as [x Hx].
  exists x. apply In_bind. eauto.
Qed.

Lemma returns_select {A} (P : Conn -> Prop) (cases : list (sel_case A))
  (k : sel_case A) :
  In k cases -> (forall c, P c -> fst k c = true) -> returns P (snd k) ->
  returns P (select cases).
Proof.
  intros Hk Hg Hr c Hc. destruct (Hr c Hc) as [x Hx].
  exists x. apply In_select. exists k. auto.
Qed.

Lemma returns_releaseLock (P : Conn -> Prop) (l : slot) : returns P (releaseLock l).
Proof.
  intros c _. unfold releaseLock. destruct (slot_get l c); eexists; left; reflexivity.
Qed.

Lemma returns_gets {A} (P : Conn -> Prop) (f : Conn -> A) : returns P (gets f).
Proof. intros c _. eexists; left; reflexivity. Qed.

Lemma returns_modify (P : Conn -> Prop) (f : Conn -> Conn) : returns P (modify f).
Proof. intros c _. eexists; left; reflexivity. Qed.

Lemma spec_ret {A} (P : Conn -> Prop) (a : A) (Q : A -> Conn -> Prop) :
  (forall c, P c -> Q a c) -> spec P (ret a) Q.
Proof. split; [apply hoare_ret; auto | apply returns_ret]. Qed.

Lemma spec_bind {A B} (P : Conn -> Prop) (m : M A) (k : A -> M B)
  (Q1 : A -> Conn -> Prop) (Q : B -> Conn -> Prop) :
  spec P m Q1 -> (forall a, spec (Q1 a) (k a) Q) -> spec P (bind m k) Q.
Proof.
  intros [H1 H2] Hk. split.
  - eapply hoare_bind; [exact H1 | intros a; apply Hk].
  - eapply returns_bind; [exact H2 | exact H1 | intros a; apply Hk].
Qed.

Lemma spec_select {A} (P : Conn -> Prop) (cases : list (sel_case A))
  (Q : A -> Conn -> Prop) (k : sel_case A) :
  Forall (fun k => hoare (fun c => P c /\ fst k c = true) (snd k) Q) cases ->
  In k cases -> (forall c, P c -> fst k c = true) -> returns P (snd k) ->
  spec P (select cases) Q.
Proof.
  intros HF Hk Hg Hr. split; [apply hoare_select; exact HF|].
  eapply returns_select; eauto.
Qed.

Lemma spec_releaseLock (P : Conn -> Prop) (l : slot) (Q : unit -> Conn -> Prop) :
  (forall c, P c -> Q tt (slot_set l false c)) -> spec P (releaseLock l) Q.
Proof. split; [apply hoare_releaseLock; auto | apply returns_releaseLock]. Qed.

Lemma spec_gets {A} (P : Conn -> Prop) (f : Conn -> A) (Q : A -> Conn -> Prop) :
  (forall c, P c -> Q (f c) c) -> spec P (gets f) Q.
Proof. split; [apply hoare_gets; auto | apply returns_gets]. Qed.

Lemma spec_modify (P : Conn -> Prop) (f : Conn -> Conn) (Q : unit -> Conn -> Prop) :
  (forall c, P c -> Q tt (f c)) -> spec P (modify f) Q.
Proof. split; [apply hoare_modify; auto | apply returns_modify]. Qed.

Lemma spec_absurd {A} (P : Conn -> Prop) (m : M A) (Q : A -> Conn -> Prop) :
  (forall c, P c -> False) -> spec P m Q.
Proof. intros H. split; intros c Hc; destruct (H c Hc). Qed.

Lemma spec_conseq {A} (P P' : Conn -> Prop) (m : M A) (Q Q' : A -> Conn -> Prop) :
  spec P' m Q' -> (forall c, P c -> P' c) -> (forall a c, Q' a c -> Q a c) ->
  spec P m Q.
Proof.
  intros [H1 H2] HP HQ. split; [eapply hoare_conseq; eauto|].
  intros c Hc. apply H2. auto.
Qed.

(* ===================================================================== *)
(* Operations on a closed connection                                     *)
(* ===================================================================== *)

Lemma carries_wrap t m e : carries t e -> carries t (ErrWrap m (Some e)).
Proof. intros H. simpl. right. exact H. Qed.

Lemma refused_wrap ctx t m e :
  refused ctx t (Some e) -> refused ctx t (Some (ErrWrap m (Some e))).
Proof.
  intros (e' & He & H). injection He as <-. eexists. split; [reflexivity|].
  destruct H as [H|[Hd H]]; [left|right; split; auto]; apply carries_wrap; exact H.
Qed.

Lemma refused_terminal ctx t : refused ctx t (Some t).
Proof. exists t. split; [reflexivity|]. left. destruct t; simpl; auto. Qed.

Lemma refused_canceled ctx t : ctx_done ctx = true -> refused ctx t (Some ErrCanceled).
Proof. intros H. exists ErrCanceled. split; [reflexivity|]. right. simpl. auto. Qed.

Ltac closed_fields :=
  unfold closed_with, coordinator_ready, readMsg_ready, readMsgDone_ready in *;
  intros;
  repeat match goal with
         | H : _ /\ _ |- _ => destruct H
         | H : exists _, _ |- _ => destruct H
         end;
  subst;
  match goal with c : Conn |- _ => destruct c end;
  repeat match goal with l : slot |- _ => destruct l end;
  simpl in *; subst; simpl in *;
  try discriminate;
  repeat split; auto using refused_terminal, refused_canceled.


(* A select with the case <-c.closed: return c.closeErr, on a closed
   connection. *)
Lemma spec_closed_select {A} (P : Conn -> Prop) t out (cases : list (sel_case A))
  (f : option error -> A) (Q : A -> Conn -> Prop) :
  (forall c, P c -> closed_with t out c) ->
  Forall (fun k => hoare (fun c => P c /\ fst k c = true) (snd k) Q) cases ->
  In (on_closed (ret_closeErr f)) cases ->
  spec P (select cases) Q.
Proof.
  intros HP HF Hin. eapply spec_select; [exact HF | exact Hin | |].
  - intros c Hc. apply HP in Hc. destruct Hc as [Hc _]. exact Hc.
  - intros c _. eexists. left. reflexivity.
Qed.

Ltac select_cases :=
  unfold on_done, on_closed;
  repeat apply List.Forall_cons; try apply List.Forall_nil; simpl.

Lemma acquireLock_closed t out ctx l :
  spec (closed_with t out) (acquireLock ctx l)
       (fun r c' => closed_with t out c' /\ (r = None \/ refused ctx t r)).
Proof.
  unfold acquireLock.
  eapply (spec_closed_select _ t out _ id); [auto | select_cases | simpl; auto].
  - apply hoare_ret. closed_fields.
  - apply hoare_ret_closeErr. closed_fields.
  - eapply hoare_bind; [apply hoare_modify with (Q := fun _ => closed_with t out)|].
    + closed_fields.
    + intros []. apply hoare_ret. auto.
Qed.

(* The select that arms a deadline: on a closed connection the
   coordinator has left, and the call is refused. *)
Lemma arm_closed t out ctx (f : context -> Conn -> Conn) :
  spec (closed_with t out)
       (select [ on_done ctx (ret (Some (Some ErrCanceled)));
                 on_closed (ret_closeErr Some);
                 (coordinator_ready, (modify (f ctx) ;;; ret None)) ])
       (fun a c' => closed_with t out c' /\ exists e, a = Some e /\ refused ctx t e).
Proof.
  eapply (spec_closed_select _ t out _ Some); [auto | select_cases | simpl; auto].
  - apply hoare_ret. intros c [Hc Hd]. split; auto.
    eexists; split; [reflexivity|]. auto using refused_canceled.
  - apply hoare_ret_closeErr. intros c [Hc Hd]. split; auto.
    eexists; split; [reflexivity|]. destruct Hc as (_ & _ & -> & _).
    apply refused_terminal.
  - apply hoare_absurd. intros c [Hc Hd]. closed_fields.
Qed.

Lemma writeFrame_closed t out io ctx h p :
  spec (closed_with t out) (writeFrame io ctx h p)
       (fun r c' => closed_with t out c' /\ refused ctx t r).
Proof.
  unfold writeFrame.
  eapply spec_bind; [apply acquireLock_closed|]. intros [e|].
  - apply spec_ret. intros c [Hc [H|H]]; [discriminate|auto].
  - eapply spec_bind with
      (Q1 := fun a c' => closed_with t out c' /\ exists e, a = Some e /\ refused ctx t e).
    + eapply spec_conseq; [apply (arm_closed t out ctx set_writeCtx) | tauto | auto].
    + intros a. destruct a as [e|].
      * eapply spec_bind with (Q1 := fun _ c' => closed_with t out c' /\ refused ctx t e).
        -- apply spec_releaseLock. intros c [Hc (e' & He & Hr)]. injection He as <-.
           split; auto. revert Hc. clear. closed_fields.
        -- intros []. apply spec_ret. auto.
      * apply spec_absurd. intros c [_ (e & He & _)]. discriminate.
Qed.

Lemma writeMessage_frame_closed t out io ctx o p :
  spec (closed_with t out) (writeMessage_frame io ctx o p)
       (fun r c' => closed_with t out c' /\ refused ctx t r).
Proof.
  unfold writeMessage_frame.
  eapply spec_bind; [apply writeFrame_closed|]. intros [e|].
  - apply spec_ret. intros c [Hc Hr]. split; auto. apply refused_wrap, Hr.
  - apply spec_absurd. intros c [_ (e & He & _)]. discriminate.
Qed.

Lemma writeMessage_closed t out io ctx o p :
  spec (closed_with t out) (writeMessage io ctx o p)
       (fun r c' => closed_with t out c' /\ refused ctx t r).
Proof.
  unfold writeMessage. destruct (negb (controlOp o)).
  - eapply spec_bind; [apply acquireLock_closed|]. intros [e|].
    + apply spec_ret. intros c [Hc [H|H]]; [discriminate|auto].
    + eapply spec_bind with (Q1 := fun r c' => closed_with t out c' /\ refused ctx t r).
      * eapply spec_conseq; [apply writeMessage_frame_closed | simpl; intros ? [? _]; eassumption | auto].
      * intros r.
        eapply spec_bind with (Q1 := fun _ c' => closed_with t out c' /\ refused ctx t r).
        -- apply spec_releaseLock. intros c [Hc Hr]. split; auto.
           revert Hc. clear. closed_fields.
        -- intros []. apply spec_ret. auto.
  - apply writeMessage_frame_closed.
Qed.

Lemma mw_write_closed t out io w p :
  w_closed w = false ->
  spec (closed_with t out) (mw_write io w p)
       (fun res c' => closed_with t out c' /\ fst (snd res) = 0 /\
                      refused (w_ctx w) t (snd (snd res))).
Proof.
  intros Hw. unfold mw_write. rewrite Hw.
  eapply spec_bind; [apply writeFrame_closed|]. intros [e|].
  - apply spec_ret. simpl. tauto.
  - apply spec_absurd. intros c [_ (e & He & _)]. discriminate.
Qed.

Lemma writer_closed t out ctx typ :
  spec (closed_with t out) (writer ctx typ)
       (fun res c' => closed_with t out c' /\
          match res with
          | inl w => w_closed w = false /\ w_ctx w = ctx
          | inr e => refused ctx t (Some e)
          end).
Proof.
  unfold writer.
  eapply spec_bind; [apply acquireLock_closed|]. intros [e|].
  - apply spec_ret. intros c [Hc [H|H]]; [discriminate|auto].
  - apply spec_ret. simpl. tauto.
Qed.

Lemma Writer_closed t out ctx typ :
  spec (closed_with t out) (Writer ctx typ)
       (fun res c' => closed_with t out c' /\
          match res with
          | inl w => w_closed w = false /\ w_ctx w = ctx
          | inr e => refused ctx t (Some e)
          end).
Proof.
  unfold Writer.
  eapply spec_bind; [apply writer_closed|]. intros [w|e].
  - apply spec_ret. auto.
  - apply spec_ret. intros c [Hc Hr]. split; auto. apply refused_wrap, Hr.
Qed.

Lemma reader_wait_closed t out env ctx :
  spec (closed_with t out) (reader_wait env ctx)
       (fun res c' => closed_with t out c' /\ fst res = (0, None) /\
                      refused ctx t (snd res)).
Proof.
  unfold reader_wait.
  eapply (spec_closed_select _ t out _ (fun e => (0, None, e)));
    [auto | select_cases | simpl; auto].
  - apply hoare_ret_closeErr. intros c [Hc Hd]. split; auto. simpl. split; auto.
    destruct Hc as (_ & _ & -> & _). apply refused_terminal.
  - apply hoare_ret. intros c [Hc Hd]. simpl. auto using refused_canceled.
  - apply hoare_absurd. intros c [Hc Hd]. closed_fields.
Qed.

Lemma reader_closed t out env ctx :
  spec (closed_with t out) (reader env ctx)
       (fun res c' => closed_with t out c' /\ fst res = (0, None) /\
                      refused ctx t (snd res)).
Proof.
  unfold reader.
  eapply spec_bind; [apply acquireLock_closed|]. intros [e|].
  - apply spec_ret. intros c [Hc [H|H]]; [discriminate|simpl; auto].
  - eapply spec_conseq; [apply reader_wait_closed | simpl; intros ? [? _]; eassumption | auto].
Qed.

Lemma spec_gets_keep {A} (P : Conn -> Prop) (f : Conn -> A) :
  spec P (gets f) (fun _ c => P c).
Proof. apply spec_gets. auto. Qed.

Lemma spec_modify_keep (P : Conn -> Prop) (f : Conn -> Conn) :
  (forall c, P c -> P (f c)) -> spec P (modify f) (fun _ c => P c).
Proof. intros H. apply spec_modify. auto. Qed.

Lemma closed_with_set_activePings t out m c :
  closed_with t out c -> closed_with t out (set_activePings m c).
Proof. closed_fields. Qed.

Lemma closed_with_set_msgReadLimit t out n c :
  closed_with t out c -> closed_with t out (set_msgReadLimit n c).
Proof. closed_fields. Qed.

Lemma SetReadLimits_keep (P : Conn -> Prop) (during : list Z) :
  (forall n c, P c -> P (set_msgReadLimit n c)) ->
  spec P (fold_right (fun n k => SetReadLimit n ;;; k) (ret tt) during)
       (fun _ c => P c).
Proof.
  intros H. induction during as [|n l IH]; simpl.
  - apply spec_ret. auto.
  - eapply spec_bind; [apply spec_modify_keep; auto|]. intros []. exact IH.
Qed.

Lemma Reader_closed t out env during ctx :
  spec (closed_with t out) (Reader env during ctx)
       (fun res c' => closed_with t out c' /\ fst res = (0, None) /\
                      refused ctx t (snd res)).
Proof.
  unfold Reader.
  eapply spec_bind; [apply reader_closed|]. intros [[typ r] e].
  eapply spec_bind with
    (Q1 := fun _ c' => closed_with t out c' /\ (typ, r) = (0, None) /\ refused ctx t e).
  - apply (SetReadLimits_keep
             (fun c' => closed_with t out c' /\ (typ, r) = (0, None) /\ refused ctx t e)).
    intros n c (Hc & H1 & H2). auto using closed_with_set_msgReadLimit.
  - intros []. destruct r as [r|].
    + apply spec_absurd. intros c (_ & H & _). discriminate.
    + apply spec_ret. simpl. intros c (Hc & _ & (e' & -> & Hr)).
      split; [exact Hc | split; [reflexivity|]]. apply refused_wrap. exists e'. auto.
Qed.

Lemma Read_closed t out env during readAll ctx :
  spec (closed_with t out) (Read env during readAll ctx)
       (fun res c' => closed_with t out c' /\ fst res = (0, []) /\
                      refused ctx t (snd res)).
Proof.
  unfold Read.
  eapply spec_bind; [apply Reader_closed|]. intros [[typ r] e].
  destruct r as [r|].
  - apply spec_absurd. intros c (_ & H & _). discriminate.
  - apply spec_ret. simpl. intros c (Hc & _ & Hr). auto.
Qed.

Lemma ping_closed t out env ctx :
  spec (closed_with t out) (ping env ctx)
       (fun r c' => closed_with t out c' /\ refused ctx t r).
Proof.
  unfold ping.
  eapply spec_bind; [apply spec_gets_keep|]. intros ap.
  eapply spec_bind;
    [apply spec_modify_keep; intros; apply closed_with_set_activePings; assumption|].
  intros [].
  eapply spec_bind; [apply writeMessage_closed|]. intros err.
  eapply spec_bind; [apply spec_gets_keep|]. intros ap'.
  eapply spec_bind with (Q1 := fun _ c' => closed_with t out c' /\ refused ctx t err).
  { apply spec_modify. intros c [Hc Hr]. auto using closed_with_set_activePings. }
  intros []. destruct err as [e|].
  - eapply spec_bind with
      (Q1 := fun r c' => closed_with t out c' /\ refused ctx t r /\ r = Some e).
    { apply spec_ret. tauto. }
    intros r.
    eapply spec_bind; [apply spec_gets_keep|]. intros ap''.
    eapply spec_bind with (Q1 := fun _ c' => closed_with t out c' /\ refused ctx t r).
    { apply spec_modify. intros c (Hc & Hr & _). auto using closed_with_set_activePings. }
    intros []. apply spec_ret. auto.
  - apply spec_absurd. intros c [_ (e & He & _)]. discriminate.
Qed.

Lemma Ping_closed t out env ctx :
  spec (closed_with t out) (Ping env ctx)
       (fun r c' => closed_with t out c' /\ refused ctx t r).
Proof.
  unfold Ping.
  eapply spec_bind; [apply ping_closed|]. intros [e|].
  - apply spec_ret. intros c [Hc Hr]. split; auto. apply refused_wrap, Hr.
  - apply spec_absurd. intros c [_ (e & He & _)]. discriminate.
Qed.

Lemma spec_refuses {A} t out (m : M A) (err : A -> option error) ctx c
  (Q : A -> Conn -> Prop) :
  spec (closed_with t out) m Q ->
  (forall a c', Q a c' -> refused ctx t (err a) /\ closed_with t out c') ->
  closed_with t out c -> refuses t out m err ctx c.
Proof.
  intros [Hh Hr] HQ Hc. split; [apply Hr, Hc|].
  intros a c' Hin. apply HQ. eapply Hh; eassumption.
Qed.

(** C2, as the code has it: once the latch has fired, Reader, Read,
    Write, Ping and a write through an open message writer all return, never
    succeed and write nothing: the error is the terminal error (possibly
    wrapped with the operation's name) or, when the caller's scope is
    already cancelled, possibly the cancellation error.  Writer returns too,
    either refused in the same way or with a new open writer, whose writes
    are then refused. *)
Theorem closed_connection_refuses_calls (t : error) (out : list chunk) (c : Conn) :
  closed_with t out c ->
  (forall env during ctx, refuses t out (Reader env during ctx) snd ctx c) /\
  (forall env during readAll ctx,
      refuses t out (Read env during readAll ctx) snd ctx c) /\
  (forall io ctx typ p, refuses t out (Write io ctx typ p) id ctx c) /\
  (forall env ctx, refuses t out (Ping env ctx) id ctx c) /\
  (forall io w p, w_closed w = false ->
      refuses t out (mw_write io w p) (fun r => snd (snd r)) (w_ctx w) c) /\
  (forall ctx typ,
      (exists x, In x (Writer ctx typ c)) /\
      forall res c', In (res, c') (Writer ctx typ c) ->
        closed_with t out c' /\
        match res with
        | inr e => refused ctx t (Some e)
        | inl w =>
            forall io p, refuses t out (mw_write io w p)
                                 (fun r => snd (snd r)) ctx c'
        end).
Proof.
  intros Hc. split; [|split; [|split; [|split; [|split]]]]; intros.
  - eapply spec_refuses; [apply Reader_closed | | exact Hc]. simpl. tauto.
  - eapply spec_refuses; [apply Read_closed | | exact Hc]. simpl. tauto.
  - eapply spec_refuses; [apply writeMessage_closed | | exact Hc]. simpl. tauto.
  - eapply spec_refuses; [apply Ping_closed | | exact Hc]. simpl. tauto.
  - eapply spec_refuses; [apply mw_write_closed; assumption | | exact Hc]. simpl. tauto.
  - destruct (Writer_closed t out ctx typ) as [Hh Hr]. split; [apply Hr, Hc|].
    intros res c' H.
    destruct (Hh c Hc res c' H) as [Hc' Hres]. split; [exact Hc'|].
    destruct res as [w|e]; [|exact Hres]. destruct Hres as [Hw <-].
    intros io p.
    eapply spec_refuses; [apply mw_write_closed; assumption | | exact Hc']. simpl. tauto.
Qed.

Lemma closed_connection_refuses_calls_witness :
  refuses (websocket_closed (Some peer_reset)) []
          (Write io_ok (mkContext 7 false) opText [])
          id (mkContext 7 false)
          (close_poison (close_latch (Some peer_reset) (init false None))).
Proof.
  apply (closed_connection_refuses_calls (websocket_closed (Some peer_reset)) []
           (close_poison (close_latch (Some peer_reset) (init false None)))).
  repeat split; reflexivity.
Defined.

(** C2, as stated, fails for Writer: on a connection closed by
    close(err) with the write-message slot free, one outcome of Writer is a
    new writer and a nil error. *)
Lemma Writer_can_succeed_after_close :
  exists c w c',
    close_ (Some peer_reset) (init false None) = [(tt, c)] /\
    closed c = true /\
    In (inl w, c') (Writer (mkContext 7 false) opText c).
Proof.
  eexists _, _, _. split; [reflexivity|]. split; [reflexivity|].
  vm_compute. right. left. reflexivity.
Qed.

(* ===================================================================== *)
(* Holders of the message slots                                          *)
(* ===================================================================== *)

Section SlotInv.
Variable holds : caller -> bool.
Variable l : slot.

Lemma inv_same_callers s c' :
  slot_inv holds l s ->
  (slot_get l (conn s) = true -> slot_get l c' = true) ->
  slot_inv holds l (mkSys c' (callers s)).
Proof.
  intros [H1 H2] Hs. split; [exact H1|].
  intros t k Ht Hk. apply Hs. eapply H2; eauto.
Qed.

Lemma inv_insert_nonholder s c' t k :
  slot_inv holds l s ->
  (slot_get l (conn s) = true -> slot_get l c' = true) ->
  holds k = false ->
  slot_inv holds l (mkSys c' (<[t := k]> (callers s))).
Proof.
  intros [H1 H2] Hs Hk. split.
  - intros t1 t2 k1 k2 A1 B1 A2 B2. simpl in *.
    destruct (decide (t = t1)) as [->|N1];
      [rewrite lookup_insert_eq in A1; congruence|].
    destruct (decide (t = t2)) as [->|N2];
      [rewrite lookup_insert_eq in A2; congruence|].
    rewrite lookup_insert_ne in A1, A2 by assumption. eapply H1; eauto.
  - intros t1 k1 A1 B1. simpl in *.
    destruct (decide (t = t1)) as [->|N1];
      [rewrite lookup_insert_eq in A1; congruence|].
    rewrite lookup_insert_ne in A1 by assumption. apply Hs. eapply H2; eauto.
Qed.

Lemma inv_delete s c' t :
  slot_inv holds l s ->
  (slot_get l (conn s) = true -> slot_get l c' = true) ->
  slot_inv holds l (mkSys c' (delete t (callers s))).
Proof.
  intros [H1 H2] Hs. split.
  - intros t1 t2 k1 k2 A1 B1 A2 B2. simpl in *.
    apply lookup_delete_Some in A1, A2. destruct A1, A2. eapply H1; eauto.
  - intros t1 k1 A1 B1. simpl in *.
    apply lookup_delete_Some in A1. destruct A1. apply Hs. eapply H2; eauto.
Qed.

Lemma inv_replace_holder s c' t k0 k :
  slot_inv holds l s ->
  callers s !! t = Some k0 -> holds k0 = true ->
  (slot_get l (conn s) = true -> slot_get l c' = true) ->
  slot_inv holds l (mkSys c' (<[t := k]> (callers s))).
Proof.
  intros [H1 H2] Ht Hk0 Hs.
  assert (Hu : forall t1 k1, <[t := k]> (callers s) !! t1 = Some k1 ->
                             holds k1 = true -> t1 = t).
  { intros t1 k1 A1 B1. destruct (decide (t = t1)) as [->|N1]; [reflexivity|].
    rewrite lookup_insert_ne in A1 by assumption. eapply H1; eauto. }
  split.
  - intros t1 t2 k1 k2 A1 B1 A2 B2. simpl in *.
    rewrite (Hu _ _ A1 B1), (Hu _ _ A2 B2). reflexivity.
  - intros t1 k1 A1 B1. apply Hs. eapply H2; eauto.
Qed.

Lemma inv_acquire s c' t k :
  slot_inv holds l s ->
  slot_get l (conn s) = false -> slot_get l c' = true ->
  slot_inv holds l (mkSys c' (<[t := k]> (callers s))).
Proof.
  intros [H1 H2] Hf Ht.
  assert (Hn : forall t1 k1, callers s !! t1 = Some k1 -> holds k1 = true -> False).
  { intros t1 k1 A1 B1. specialize (H2 _ _ A1 B1). congruence. }
  split.
  - intros t1 t2 k1 k2 A1 B1 A2 B2. simpl in *.
    destruct (decide (t = t1)) as [->|N1].
    + destruct (decide (t1 = t2)) as [->|N2]; [reflexivity|].
      rewrite lookup_insert_ne in A2 by assumption. destruct (Hn _ _ A2 B2).
    + rewrite lookup_insert_ne in A1 by assumption. destruct (Hn _ _ A1 B1).
  - intros t1 k1 A1 B1. exact Ht.
Qed.

Lemma inv_release_delete s c' t k0 :
  slot_inv holds l s ->
  callers s !! t = Some k0 -> holds k0 = true ->
  slot_inv holds l (mkSys c' (delete t (callers s))).
Proof.
  intros [H1 H2] Ht Hk0.
  assert (Hn : forall t1 k1, delete t (callers s) !! t1 = Some k1 ->
                             holds k1 = true -> False).
  { intros t1 k1 A1 B1. apply lookup_delete_Some in A1. destruct A1 as [N A1].
    apply N. eapply H1; eauto. }
  split.
  - intros t1 t2 k1 k2 A1 B1 A2 B2. destruct (Hn _ _ A1 B1).
  - intros t1 k1 A1 B1. destruct (Hn _ _ A1 B1).
Qed.

Lemma inv_no_holder s c' :
  slot_inv holds l s ->
  (forall t k, callers s !! t = Some k -> holds k = false) ->
  slot_inv holds l (mkSys c' (callers s)).
Proof.
  intros [H1 H2] Hn. split; [exact H1|].
  intros t k A B. rewrite (Hn _ _ A) in B. discriminate.
Qed.
End SlotInv.

Lemma acquireLock_outcome ctx l c r c' :
  latch_ok c ->
  In (r, c') (acquireLock ctx l c) ->
  (r = None /\ slot_get l c = false /\ c' = slot_set l true c) \/
  (r <> None /\ c' = c).
Proof.
  intros [_ Hl] H. unfold acquireLock in H. apply In_select in H.
  destruct H as (k & Hk & Hg & Hin). simpl in Hk.
  destruct Hk as [<-|[<-|[<-|[]]]]; simpl in *.
  - destruct Hin as [Hin|[]]. injection Hin as <- <-. right. split; congruence.
  - destruct Hin as [Hin|[]]. injection Hin as <- <-. right.
    split; [|reflexivity]. destruct (Hl Hg) as [cause ->]. discriminate.
  - destruct Hin as [Hin|[]]. injection Hin as <- <-. left.
    destruct (slot_get l c); simpl in *; [discriminate|auto].
Qed.

Lemma slot_get_set l b c : slot_get l (slot_set l b c) = b.
Proof. destruct c, l; reflexivity. Qed.

Lemma frame_wm rm c c' : frame true rm c c' -> writeMsgLock c' = writeMsgLock c.
Proof. intros (H & _). auto. Qed.

Lemma frame_rm wm c c' : frame wm true c c' -> readMsgLock c' = readMsgLock c.
Proof. intros (_ & H & _). auto. Qed.

(* messageWriter.close leaves the write-message slot alone unless it
   succeeds. *)
Lemma mw_close_failed io w c w' e c' :
  In ((w', Some e), c') (mw_close io w c) -> writeMsgLock c' = writeMsgLock c.
Proof.
  unfold mw_close. destruct (w_closed w).
  - intros H. apply In_ret in H. injection H as _ _ <-. reflexivity.
  - intros H. apply In_bind in H. destruct H as (r & c1 & H1 & H2).
    apply (frame_writeFrame true true) in H1. apply frame_wm in H1.
    destruct r as [e1|].
    + apply In_ret in H2. injection H2 as _ _ <-. exact H1.
    + apply In_bind in H2. destruct H2 as (u & c2 & _ & H3).
      apply In_ret in H3. discriminate.
Qed.

(* messageReader.read leaves the read-message slot alone unless it
   returns the reader EOFed. *)
Lemma mr_read_tail_open r h plen n rerr c r' res c' :
  In ((r', res), c') (mr_read_tail r h plen n rerr c) ->
  eofed r' = false -> readMsgLock c' = readMsgLock c.
Proof.
  unfold mr_read_tail. intros H He. destruct rerr as [e|].
  - apply In_bind in H. destruct H as (u & c1 & H1 & H2).
    apply In_bind in H2. destruct H2 as (ce & c2 & H2 & H3).
    apply In_gets in H2. injection H2 as _ <-.
    apply In_ret in H3. injection H3 as _ _ <-.
    revert H1. apply (stable_close_ (fun c c' => readMsgLock c' = readMsgLock c));
      intros; destruct c0; reflexivity.
  - simpl in H. destruct (payloadLength h - n =? 0).
    + apply In_bind in H. destruct H as (acked & c1 & H1 & H2).
      assert (Hc1 : readMsgLock c1 = readMsgLock c).
      { revert H1.
        apply (stable_select (fun c c' => readMsgLock c' = readMsgLock c)).
        select_cases.
        - apply stable_ret_closeErr. reflexivity.
        - apply stable_bind; [congruence | | intros; apply stable_ret; reflexivity].
          apply stable_modify. intros []; reflexivity. }
      destruct acked as [e|].
      * apply In_ret in H2. injection H2 as _ _ <-. exact Hc1.
      * destruct (fin h).
        -- apply In_bind in H2. destruct H2 as (u & c2 & _ & H3).
           apply In_ret in H3. injection H3 as Hr _ _. subst r'. discriminate.
        -- apply In_ret in H2. injection H2 as _ _ <-. exact Hc1.
    + apply In_ret in H. injection H as _ _ <-. reflexivity.
Qed.

(* Replaces an outcome hypothesis of a step that stays within
   [frame true true] by that fact. *)
Ltac frame_of H :=
  match type of H with
  | In (_, ?c') (?m ?c) =>
      let F := fresh "F" in
      assert (F : stable (frame true true) m)
        by (first [ apply frame_acquire_frame_slot; auto | frame_tac ]);
      unfold stable in F; apply F in H; clear F; apply frame_rm in H
  end.

Lemma mr_read_frame_open io r h plen c r' res c' :
  In ((r', res), c') (mr_read_frame io r h plen c) ->
  eofed r' = false -> readMsgLock c' = readMsgLock c.
Proof.
  unfold mr_read_frame. intros H He.
  apply In_bind in H. destruct H as (armed & c1 & H1 & H). frame_of H1.
  destruct armed as [e|].
  { apply In_ret in H. injection H as _ _ <-. exact H1. }
  apply In_bind in H. destruct H as (err & c2 & H2 & H). frame_of H2.
  destruct err as [e|].
  { apply In_ret in H. injection H as _ _ <-. congruence. }
  apply In_bind in H. destruct H as (u3 & c3 & H3 & H). frame_of H3.
  apply In_bind in H. destruct H as (u4 & c4 & H4 & H). frame_of H4.
  apply In_bind in H. destruct H as (disarmed & c5 & H5 & H). frame_of H5.
  destruct disarmed as [e|].
  { apply In_ret in H. injection H as _ _ <-. congruence. }
  apply mr_read_tail_open in H; [congruence | exact He].
Qed.

Lemma mr_read_open io r plen c r' res c' :
  In ((r', res), c') (mr_read io r plen c) ->
  eofed r' = false -> readMsgLock c' = readMsgLock c.
Proof.
  unfold mr_read. intros H He. destruct (eofed r).
  { apply In_ret in H. injection H as _ _ <-. reflexivity. }
  destruct (r_h r) as [h|].
  { eapply mr_read_frame_open; eassumption. }
  apply In_bind in H. destruct H as (next & c1 & H1 & H). frame_of H1.
  destruct next as [h|e].
  - apply mr_read_frame_open in H; [congruence | exact He].
  - apply In_ret in H. injection H as _ _ <-. exact H1.
Qed.

Lemma frame_readLoop_turn_keep wm h :
  pump_releases h = false -> stable (frame wm true) (readLoop_turn (inl h)).
Proof. intros H. unfold readLoop_turn. rewrite H. frame_tac. Qed.

Lemma frame_readLoop_turn_err wm rm e : stable (frame wm rm) (readLoop_turn (inr e)).
Proof. unfold readLoop_turn. frame_tac. Qed.

Lemma no_read_holder_spec cs :
  no_read_holder cs = true ->
  forall t k, cs !! t = Some k -> holds_read k = false.
Proof.
  unfold no_read_holder. rewrite forallb_forall. intros H t k Ht.
  apply elem_of_map_to_list in Ht. apply list_elem_of_In in Ht.
  specialize (H _ Ht). simpl in H. destruct (holds_read k); [discriminate|reflexivity].
Qed.

Ltac step_cases l :=
  destruct l; unfold step;
  repeat match goal with
         | |- In _ (match ?x with _ => _ end) -> _ => destruct x eqn:?
         end;
  first [ rewrite In_with_caller | intros [] ];
  intros (a & c' & H & ->).

Ltac wm_of H lem :=
  apply lem in H; apply frame_wm in H.

Lemma step_write_inv l s s' :
  latch_ok (conn s) -> slot_inv holds_write WriteMsg s ->
  In s' (step l s) -> slot_inv holds_write WriteMsg s'.
Proof.
  intros Hl Hi. step_cases l.
  - (* CallReader *)
    wm_of H (frame_acquire_read_msg true).
    destruct a; [apply inv_same_callers | apply inv_insert_nonholder];
      simpl; auto; congruence.
  - (* RecvHeader *)
    wm_of H (frame_reader_wait true true).
    destruct a as [[typ [r|]] [e|]];
      first [apply inv_insert_nonholder | apply inv_delete]; simpl; auto; congruence.
  - (* CallRead *)
    wm_of H (frame_mr_read true).
    destruct (eofed (fst a));
      first [apply inv_insert_nonholder | apply inv_delete]; simpl; auto; congruence.
  - (* PumpTurn *)
    wm_of H (frame_readLoop_turn true).
    apply inv_same_callers; simpl; auto; congruence.
  - (* CallWriter *)
    unfold writer in H. apply In_bind in H. destruct H as (r & c1 & H1 & H2).
    apply acquireLock_outcome in H1; auto.
    destruct H1 as [(-> & Hf & ->)|(Hn & ->)].
    + apply In_ret in H2. injection H2 as Ha Hc. subst a c'; simpl.
      apply inv_acquire; auto. apply slot_get_set.
    + destruct r as [e|]; [|congruence]. apply In_ret in H2. injection H2 as Ha Hc. subst a c'; simpl.
      apply inv_same_callers; auto.
  - (* CallWrite *)
    wm_of H (frame_mw_write true true).
    eapply inv_replace_holder; eauto; simpl; congruence.
  - (* CallWriterClose *)
    destruct a as [w' [e|]]; simpl.
    + apply mw_close_failed in H.
      eapply inv_replace_holder; eauto; simpl; congruence.
    + eapply inv_release_delete; eauto.
  - (* BeginWrite *)
    apply acquireLock_outcome in H; auto.
    destruct H as [(-> & Hf & ->)|(Hn & ->)].
    + apply inv_acquire; auto. apply slot_get_set.
    + destruct a as [e|]; [|congruence]. apply inv_same_callers; auto.
  - (* EndWrite *)
    eapply inv_release_delete; eauto.
  - (* WritePong *)
    apply (frame_writeMessage_control true true) in H; [|reflexivity].
    apply frame_wm in H. apply inv_same_callers; simpl; auto; congruence.
  - (* CallPing *)
    wm_of H (frame_Ping true true). apply inv_same_callers; simpl; auto; congruence.
  - (* CallClose *)
    wm_of H (frame_Close true true). apply inv_same_callers; simpl; auto; congruence.
  - (* Teardown *)
    assert (F : stable (frame true true) (close_ (Some err))) by frame_tac.
    wm_of H F. apply inv_same_callers; simpl; auto; congruence.
  - (* CallSetReadLimit *)
    wm_of H (frame_SetReadLimit true true).
    apply inv_same_callers; simpl; auto; congruence.
Qed.

Ltac rm_of H lem :=
  apply lem in H; apply frame_rm in H.

Lemma step_read_inv l s s' :
  latch_ok (conn s) -> slot_inv holds_read ReadMsg s ->
  pump_release_unheld l s = true ->
  In s' (step l s) -> slot_inv holds_read ReadMsg s'.
Proof.
  intros Hl Hi Hg. step_cases l.
  - (* CallReader *)
    apply acquireLock_outcome in H; auto.
    destruct H as [(-> & Hf & ->)|(Hn & ->)].
    + apply inv_acquire; auto. apply slot_get_set.
    + destruct a as [e|]; [|congruence]. apply inv_same_callers; auto.
  - (* RecvHeader *)
    rm_of H (frame_reader_wait true true).
    destruct a as [[typ [r|]] [e|]];
      first [ eapply inv_replace_holder; eauto; simpl; congruence
            | apply inv_delete; simpl; auto; congruence ].
  - (* CallRead *)
    destruct a as [r' res]. simpl. destruct (eofed r') eqn:He.
    + eapply inv_release_delete; eauto.
    + apply mr_read_open in H; auto.
      eapply inv_replace_holder; eauto; simpl; congruence.
  - (* PumpTurn *)
    destruct res as [h|e].
    + simpl in Hg. destruct (pump_releases h) eqn:Hp; simpl in Hg.
      * apply inv_no_holder; auto. apply no_read_holder_spec, Hg.
      * rm_of H (frame_readLoop_turn_keep true h Hp).
        apply inv_same_callers; simpl; auto; congruence.
    + rm_of H (frame_readLoop_turn_err true true e).
      apply inv_same_callers; simpl; auto; congruence.
  - (* CallWriter *)
    rm_of H (frame_writer true).
    destruct a; [apply inv_insert_nonholder | apply inv_same_callers];
      simpl; auto; congruence.
  - (* CallWrite *)
    rm_of H (frame_mw_write true true).
    apply inv_insert_nonholder; simpl; auto; congruence.
  - (* CallWriterClose *)
    rm_of H (frame_mw_close true).
    destruct (snd a);
      first [apply inv_insert_nonholder | apply inv_delete]; simpl; auto; congruence.
  - (* BeginWrite *)
    rm_of H (frame_acquire_write_msg true).
    destruct a; [apply inv_same_callers | apply inv_insert_nonholder];
      simpl; auto; congruence.
  - (* EndWrite *)
    match type of H with
    | In _ (?m _) =>
        assert (F : stable (frame false true) m) by frame_tac; rm_of H F
    end.
    apply inv_delete; simpl; auto; congruence.
  - (* WritePong *)
    rm_of H (frame_writeMessage true).
    apply inv_same_callers; simpl; auto; congruence.
  - (* CallPing *)
    rm_of H (frame_Ping true true). apply inv_same_callers; simpl; auto; congruence.
  - (* CallClose *)
    rm_of H (frame_Close true true). apply inv_same_callers; simpl; auto; congruence.
  - (* Teardown *)
    assert (F : stable (frame true true) (close_ (Some err))) by frame_tac.
    rm_of H F. apply inv_same_callers; simpl; auto; congruence.
  - (* CallSetReadLimit *)
    rm_of H (frame_SetReadLimit true true).
    apply inv_same_callers; simpl; auto; congruence.
Qed.

Lemma step_latch_ok l s s' :
  latch_ok (conn s) -> In s' (step l s) -> latch_ok (conn s').
Proof. intros Hl H. apply step_frame in H. destruct H as (_ & _ & H & _). auto. Qed.

Lemma run_write_inv ls : forall s s',
  latch_ok (conn s) -> slot_inv holds_write WriteMsg s ->
  In s' (run ls s) -> slot_inv holds_write WriteMsg s'.
Proof.
  induction ls as [|l ls IH]; simpl; intros s s' Hl Hi H.
  - destruct H as [<-|[]]. exact Hi.
  - apply in_flat_map in H. destruct H as (s1 & H1 & H2).
    eapply IH; [eapply step_latch_ok | eapply step_write_inv | exact H2]; eassumption.
Qed.

Lemma run_read_inv ls : forall s s',
  latch_ok (conn s) -> slot_inv holds_read ReadMsg s ->
  In s' (run_if pump_release_unheld ls s) -> slot_inv holds_read ReadMsg s'.
Proof.
  induction ls as [|l ls IH]; simpl; intros s s' Hl Hi H.
  - destruct H as [<-|[]]. exact Hi.
  - destruct (pump_release_unheld l s) eqn:Hg; [|destruct H].
    apply in_flat_map in H. destruct H as (s1 & H1 & H2).
    eapply IH; [eapply step_latch_ok | eapply step_read_inv | exact H2]; eassumption.
Qed.

Lemma start_inv holds l cl cr : latch_ok (conn (start cl cr)) /\ slot_inv holds l (start cl cr).
Proof.
  split; [split; [reflexivity | discriminate]|].
  split.
  - intros t1 t2 k1 k2 H. simpl in H. rewrite lookup_empty in H. discriminate.
  - intros t k H. simpl in H. rewrite lookup_empty in H. discriminate.
Qed.

(* What the slots do guarantee: in every state that any schedule of steps
   reaches from a new connection, at most one caller holds the
   write-message slot, which only its holder releases; and at most one
   caller holds the read-message slot as long as the pump's release on an
   empty FIN continuation frame has only fired while no caller held that
   slot. *)
Theorem message_slots_have_one_holder (cl : bool) (cr : option error) (ls : list label) :
  (forall s, In s (run ls (start cl cr)) -> at_most_one holds_write (callers s)) /\
  (forall s, In s (run_if pump_release_unheld ls (start cl cr)) ->
             at_most_one holds_read (callers s)).
Proof.
  split; intros s H.
  - destruct (start_inv holds_write WriteMsg cl cr) as [Hl Hi].
    exact (proj1 (run_write_inv ls _ _ Hl Hi H)).
  - destruct (start_inv holds_read ReadMsg cl cr) as [Hl Hi].
    exact (proj1 (run_read_inv ls _ _ Hl Hi H)).
Qed.

Lemma message_slots_have_one_holder_witness :
  exists s, In s (run_if pump_release_unheld one_frame_schedule (start false None)) /\
            callers s !! 2%nat = Some (ReaderWaiting scope7) /\
            at_most_one holds_read (callers s).
Proof.
  eexists. split; [vm_compute; left; reflexivity|]. split; [reflexivity|].
  apply (proj2 (message_slots_have_one_holder false None one_frame_schedule)).
  vm_compute. left. reflexivity.
Defined.

(** C3: the code breaks the claim for the read-message slot.  Caller 1
    has read the first fragment of a message to its end and still holds the
    slot, its reader between two fragments, when the pump reads the empty
    FIN continuation frame that ends the message and releases the slot on
    the holder's behalf; the Reader call of caller 2 then acquires it, and
    two callers hold the read-message slot at once. *)
Lemma pump_release_gives_two_holders :
  exists s k1 k2,
    In s (run two_readers_schedule (start false None)) /\
    callers s !! 1%nat = Some k1 /\ holds_read k1 = true /\
    callers s !! 2%nat = Some k2 /\ holds_read k2 = true /\
    ~ at_most_one holds_read (callers s).
Proof.
  eexists _, _, _. split; [vm_compute; left; reflexivity|].
  split; [reflexivity|]. split; [reflexivity|].
  split; [reflexivity|]. split; [reflexivity|].
  intros H.
  specialize (H 1%nat 2%nat _ _ eq_refl eq_refl eq_refl eq_refl). discriminate.
Qed.

(* What the second holder does with the slot: it takes the continuation
   header that the pump offers, which was meant for caller 1, and closes the
   connection with a protocol error, though the peer's frames were well
   formed; caller 1 is left with its reader on a closed connection. *)
Lemma second_holder_closes_connection :
  exists s,
    In s (run second_reader_schedule (start false None)) /\
    closed (conn s) = true /\
    closeErr (conn s)
    = Some (websocket_closed (Some (ErrCloseError
              (mkCloseError StatusProtocolError continuation_first)))) /\
    callers s !! 1%nat
    = Some (ReaderOpen (mkMessageReader scope7 0 None false)).
Proof.
  eexists. split; [vm_compute; left; reflexivity|].
  split; [reflexivity|]. split; reflexivity.
Qed.

(* ===================================================================== *)
(* Write path                                                            *)
(* ===================================================================== *)





(* ===================================================================== *)
(* Message reader                                                        *)
(* ===================================================================== *)

(** C5: a read on an open connection whose buffer takes all that remains
    of the current frame's payload returns that many bytes and
    acknowledges the pump on readMsgDone (the pump is no longer waiting).
    If the frame has FIN set, the reader is marked EOFed, the read-message
    slot is released and the error returned is io.EOF, which is not the
    terminal error of any close; otherwise the error is nil, the current
    header is cleared and the mask position reset, and the read-message
    slot is left as it was. *)
Theorem read_last_bytes_of_frame
  (c : Conn) (io : ReadIO) (r : messageReader) (h : header) (plen : Z) :
  closed c = false -> readFrameLock c = false ->
  eofed r = false -> ctx_done (r_ctx r) = false ->
  header_in_hand r c h ->
  payloadLength h <= plen ->
  r_short io = None -> r_race io = None ->
  exists r' res c',
    mr_read io r plen c = [((r', (payloadLength h, res)), c')] /\
    readMsgDone c' = false /\ closed c' = false /\ closeErr c' = closeErr c /\
    if fin h
    then eofed r' = true /\ res = Some ErrEOF /\ readMsgLock c' = false /\
         (forall cause, ErrEOF <> websocket_closed cause)
    else eofed r' = false /\ res = None /\ r_h r' = None /\ maskPos r' = 0 /\
         readMsgLock c' = readMsgLock c.
Proof.
  intros Hc Hf He Hd Hh Hp Hs Hr.
  assert (Hclamp : (if payloadLength h <? plen then payloadLength h else plen)
                   = payloadLength h).
  { destruct (payloadLength h <? plen) eqn:E; [reflexivity|].
    apply Z.ltb_ge in E. lia. }
  destruct r as [rctx mp rh reof], rctx as [cid cdone], io as [rs rcl rr].
  unfold header_in_hand in Hh. destruct c. simpl in *. subst.
  unfold mr_read. simpl.
  destruct Hh as [[-> Hdone]|(-> & Hmsg & Hop)]; simpl in *; subst.
  - unfold mr_read_frame, mr_read_tail, acquireLock, select, bind, on_done,
      on_closed, race_close, releaseLock, modify, gets, ret, coordinator_ready,
      readMsgDone_ready. simpl. rewrite Hclamp, Z.sub_diag. simpl.
    destruct (fin h); simpl.
    + destruct readMsgLock0; simpl; eexists _, _, _;
        (split; [reflexivity|]); simpl; repeat split; discriminate.
    + eexists _, _, _. split; [reflexivity|]. simpl. repeat split.
  - unfold mr_read_frame, mr_read_tail, acquireLock, select, bind, on_done,
      on_closed, race_close, releaseLock, modify, gets, ret, coordinator_ready,
      readMsgDone_ready, readMsg_ready, recv_readMsg. simpl.
    rewrite Hop. simpl. rewrite Hclamp, Z.sub_diag. simpl.
    destruct (fin h); simpl.
    + destruct readMsgLock0; simpl; eexists _, _, _;
        (split; [reflexivity|]); simpl; repeat split; discriminate.
    + eexists _, _, _. split; [reflexivity|]. simpl. repeat split.
Qed.

Lemma read_last_bytes_of_frame_witness :
  exists r' c',
    mr_read read_ok (reader_on text_frame) 2 awaiting_ack
      = [((r', (2, Some ErrEOF)), c')] /\ eofed r' = true.
Proof.
  destruct (read_last_bytes_of_frame awaiting_ack read_ok (reader_on text_frame)
              text_frame 2)
    as (r' & res & c' & H1 & _ & _ & _ & H2 & H3 & _).
  - reflexivity.
  - reflexivity.
  - reflexivity.
  - reflexivity.
  - left. split; reflexivity.
  - simpl. lia.
  - reflexivity.
  - reflexivity.
  - exists r', c'. rewrite H3 in H1. split; [exact H1 | exact H2].
Defined.

(* Close leaves the connection closed, whatever becomes of its frame. *)
Lemma close_closes err c u c' :
  latch_ok c -> In (u, c') (close_ err c) -> closed c' = true /\ latch_ok c'.
Proof.
  intros Hl H.
  assert (F : stable (frame true true) (close_ err)) by frame_tac.
  pose proof (F _ _ _ H) as (_ & _ & Hl' & _). split; [|auto].
  unfold close_ in H. destruct Hl as [Ho _].
  destruct (closeOnce c) eqn:E; destruct H as [H|[]]; injection H as _ <-.
  - destruct (closing c); destruct c; simpl in *; congruence.
  - destruct c; reflexivity.
Qed.

Lemma Close_closes env code reason c r c' :
  latch_ok c -> In (r, c') (Close env code reason c) ->
  closed c' = true /\ latch_ok c'.
Proof.
  intros Hl H. unfold Close in H.
  apply In_bind in H. destruct H as (err & c1 & H & Hret).
  assert (Hc1 : closed c1 = true /\ latch_ok c1).
  { unfold exportedClose in H.
    assert (W : forall p ce, In (err, c1) (writeClose env p ce c) ->
                             closed c1 = true /\ latch_ok c1).
    { intros p ce Hw. unfold writeClose in Hw.
      apply In_bind in Hw. destruct Hw as (e1 & c2 & H1 & Hw).
      apply (frame_writeMessage_control true true) in H1; [|reflexivity].
      destruct H1 as (_ & _ & Hl2 & _). specialize (Hl2 Hl).
      apply In_bind in Hw. destruct Hw as (u & c3 & H2 & Hw).
      apply close_closes in H2; [|exact Hl2].
      destruct e1 as [e1|].
      - apply In_ret in Hw. injection Hw as _ <-. exact H2.
      - apply In_bind in Hw. destruct Hw as (ce' & c4 & H3 & Hw).
        apply In_gets in H3. injection H3 as _ <-.
        destruct ce' as [e'|]; [destruct (negb _)|];
          apply In_ret in Hw; injection Hw as _ <-; exact H2. }
    destruct (CloseError_bytes _); eapply W; exact H. }
  destruct err; apply In_ret in Hret; injection Hret as _ <-; exact Hc1.
Qed.

Lemma continuation_first_bytes :
  CloseError_bytes (mkCloseError StatusProtocolError continuation_first)
  = Some continuation_first_payload.
Proof. vm_compute. reflexivity. Qed.

Lemma frame_not_finished_bytes :
  CloseError_bytes (mkCloseError StatusProtocolError frame_not_finished)
  = Some frame_not_finished_payload.
Proof. vm_compute. reflexivity. Qed.

Lemma latch_ok_recv c :
  latch_ok c -> latch_ok (set_readMsgDone true (set_readMsg None c)).
Proof. destruct c; auto. Qed.

Lemma latch_ok_slot l b c : latch_ok c -> latch_ok (slot_set l b c).
Proof. destruct c, l; auto. Qed.

(* ===================================================================== *)
(* Calls that return                                                     *)
(* ===================================================================== *)

Lemma always_ret {A} (a : A) : always_returns (ret a).
Proof. apply returns_ret. Qed.

Lemma always_bind {A B} (m : M A) (k : A -> M B) :
  always_returns m -> (forall a, always_returns (k a)) -> always_returns (bind m k).
Proof.
  intros Hm Hk. eapply returns_bind with (Q1 := fun _ _ => True).
  - exact Hm.
  - intros c _ a c' _. exact I.
  - exact Hk.
Qed.

Lemma returns_after {A B} (P : Conn -> Prop) (m : M A) (k : A -> M B) :
  returns P m -> (forall a, always_returns (k a)) -> returns P (bind m k).
Proof.
  intros Hm Hk. eapply returns_bind with (Q1 := fun _ _ => True).
  - exact Hm.
  - intros c _ a c' _. exact I.
  - exact Hk.
Qed.

(* A select with the cases <-c.closed and a rendezvous with the deadline
   coordinator: one of the two is ready. *)
Lemma always_select_closed_or_coordinator {A} (cases : list (sel_case A))
  (k1 k2 : M A) :
  In (on_closed k1) cases -> In (coordinator_ready, k2) cases ->
  always_returns k1 -> always_returns k2 -> always_returns (select cases).
Proof.
  intros H1 H2 R1 R2 c _. destruct (closed c) eqn:E.
  - destruct (R1 c I) as [x Hx]. exists x. apply In_select.
    exists (on_closed k1). auto.
  - destruct (R2 c I) as [x Hx]. exists x. apply In_select.
    exists (coordinator_ready, k2). repeat split; auto.
    unfold coordinator_ready. simpl. rewrite E. reflexivity.
Qed.

Lemma always_ret_closeErr {A} (f : option error -> A) : always_returns (ret_closeErr f).
Proof. intros c _. eexists. left. reflexivity. Qed.

Lemma always_modify (f : Conn -> Conn) : always_returns (modify f).
Proof. apply returns_modify. Qed.

Lemma always_gets {A} (f : Conn -> A) : always_returns (gets f).
Proof. apply returns_gets. Qed.

Lemma always_releaseLock l : always_returns (releaseLock l).
Proof. apply returns_releaseLock. Qed.

Lemma always_close_ err : always_returns (close_ err).
Proof. intros c _. unfold close_. destruct (closeOnce c); eexists; left; reflexivity. Qed.

Lemma always_race_close r : always_returns (race_close r).
Proof. intros c _. unfold race_close. destruct r; eexists; left; reflexivity. Qed.

Ltac always_tac :=
  repeat first
    [ apply always_ret
    | apply always_gets
    | apply always_modify
    | apply always_releaseLock
    | apply always_close_
    | apply always_race_close
    | apply always_ret_closeErr
    | apply always_bind; [| intros]
    | eapply always_select_closed_or_coordinator;
        [ unfold on_closed; simpl; tauto | simpl; tauto | | ]
    | match goal with
      | |- always_returns (match ?x with _ => _ end) => destruct x
      | |- always_returns (let _ := _ in _) => cbv zeta
      end ].

Lemma always_writeFrame_body io h p : always_returns (writeFrame_body io h p).
Proof. unfold writeFrame_body. always_tac. Qed.

Lemma always_writeFrame_defers err : always_returns (writeFrame_defers err).
Proof. unfold writeFrame_defers. always_tac. Qed.

Lemma acquireLock_returns ctx l : returns (can_acquire ctx l) (acquireLock ctx l).
Proof.
  intros c [H|[H|H]]; unfold acquireLock.
  - eexists. apply In_select. eexists. split; [right; right; left; reflexivity|].
    simpl. rewrite H. split; [reflexivity|]. left. reflexivity.
  - eexists. apply In_select. exists (on_done ctx (ret (Some ErrCanceled))).
    split; [left; reflexivity|]. split; [exact H|]. left. reflexivity.
  - eexists. apply In_select. exists (on_closed (ret_closeErr id)).
    split; [right; left; reflexivity|]. split; [exact H|]. left. reflexivity.
Qed.

Lemma writeFrame_returns io ctx h p :
  returns (can_acquire ctx WriteFrame) (writeFrame io ctx h p).
Proof.
  unfold writeFrame. apply returns_after; [apply acquireLock_returns|].
  intros [e|]; [apply always_ret|].
  apply always_bind.
  - eapply always_select_closed_or_coordinator;
      [unfold on_closed; simpl; tauto | simpl; tauto | |]; always_tac.
  - intros [e|]; always_tac.
Qed.

Lemma Close_returns env code reason :
  returns (can_acquire (mkContext 1 (c_timeout env)) WriteFrame)
          (Close env code reason).
Proof.
  unfold Close. apply returns_after; [|intros; always_tac].
  assert (W : forall p ce,
             returns (can_acquire (mkContext 1 (c_timeout env)) WriteFrame)
                     (writeClose env p ce)).
  { intros p ce. unfold writeClose. apply returns_after; [|intros; always_tac].
    unfold writeMessage. simpl. unfold writeMessage_frame.
    apply returns_after; [apply writeFrame_returns | intros; always_tac]. }
  unfold exportedClose. destruct (CloseError_bytes _); apply W.
Qed.

Lemma reader_continuation_returns env ctx c h :
  closed c = false -> readMsg c = Some h -> h_opcode h = opContinuation ->
  ctx_done ctx = false -> readMsgLock c = false ->
  writeFrameLock c = false \/ c_timeout env = true ->
  exists x, In x (reader env ctx c).
Proof.
  intros Hc Hm Ho Hd Hr Hw.
  destruct (Close_returns env StatusProtocolError continuation_first
              (set_readMsgDone true (set_readMsg None (slot_set ReadMsg true c))))
    as [[u c3] H3].
  { destruct Hw as [Hw|Hw]; [left | right; left; exact Hw].
    destruct c; exact Hw. }
  eexists. unfold reader. apply In_bind.
  exists None, (slot_set ReadMsg true c). split.
  - unfold acquireLock. apply In_select. eexists.
    split; [right; right; left; reflexivity|]. simpl.
    split; [destruct c; simpl in *; subst; reflexivity|]. left. reflexivity.
  - unfold reader_wait. apply In_select. eexists.
    split; [right; right; left; reflexivity|]. simpl. split.
    + unfold readMsg_ready. destruct c; simpl in *; subst. reflexivity.
    + apply In_bind. exists h, (set_readMsgDone true (set_readMsg None (slot_set ReadMsg true c))).
      split.
      * unfold recv_readMsg. destruct c; simpl in *; subst. left. reflexivity.
      * rewrite Ho. simpl. apply In_bind. exists u, c3. split; [exact H3|].
        left. reflexivity.
Qed.

Lemma read_new_frame_returns io r plen c h :
  closed c = false -> readMsg c = Some h -> h_opcode h <> opContinuation ->
  eofed r = false -> r_h r = None ->
  writeFrameLock c = false \/ c_timeout (r_close io) = true ->
  exists x, In x (mr_read io r plen c).
Proof.
  intros Hc Hm Ho He Hh Hw.
  destruct (Close_returns (r_close io) StatusProtocolError frame_not_finished
              (set_readMsgDone true (set_readMsg None c)))
    as [[u c3] H3].
  { destruct Hw as [Hw|Hw]; [left | right; left; exact Hw].
    destruct c; exact Hw. }
  eexists. unfold mr_read. rewrite He, Hh. apply In_bind.
  exists (inr (Some (ErrCloseError (mkCloseError StatusProtocolError frame_not_finished)))), c3.
  split.
  - apply In_select. eexists. split; [right; left; reflexivity|]. simpl. split.
    + unfold readMsg_ready. rewrite Hc, Hm. reflexivity.
    + apply In_bind. exists h, (set_readMsgDone true (set_readMsg None c)). split.
      * unfold recv_readMsg. rewrite Hm. left. reflexivity.
      * replace (h_opcode h =? opContinuation) with false
          by (symmetry; apply Z.eqb_neq; exact Ho).
        simpl. apply In_bind. exists u, c3. split; [exact H3|]. left. reflexivity.
  - left. reflexivity.
Qed.

(** C6: with the connection open and the pump offering a data header on
    readMsg.  If the header is a continuation, every outcome of a reader
    call under a live scope is the protocol-error CloseError, with the
    connection closed; the call returns when the read-message slot is free
    and the close frame can be attempted (the write-frame slot is free, or
    the 5-second scope of the close has run out); and with both slots free
    and the stream accepting the close frame, the close frame carrying
    status 1002 is written and that CloseError is the terminal cause.  If
    the header is not a continuation, the same holds for a read on a reader
    that is between two fragments. *)
Theorem continuation_discipline (c : Conn) (h : header) :
  latch_ok c -> closed c = false -> readMsg c = Some h ->
  (h_opcode h = opContinuation ->
   forall ctx, ctx_done ctx = false ->
     (forall env res c',
         In (res, c') (reader env ctx c) ->
         res = (0, None, Some (ErrCloseError (protocol_error continuation_first))) /\
         closed c' = true) /\
     (forall env, readMsgLock c = false ->
                  writeFrameLock c = false \/ c_timeout env = true ->
                  exists x, In x (reader env ctx c)) /\
     (readMsgLock c = false -> writeFrameLock c = false ->
      exists c',
        reader close_ok ctx c
          = [((0, None, Some (ErrCloseError (protocol_error continuation_first))), c')] /\
        closeErr c' = Some (websocket_closed
                              (Some (ErrCloseError (protocol_error continuation_first)))) /\
        bw c' = bw c ++ close_frame (client c) continuation_first_payload)) /\
  (h_opcode h <> opContinuation ->
   forall r plen, eofed r = false -> r_h r = None ->
     (forall io r' res c',
         In ((r', res), c') (mr_read io r plen c) ->
         res = (0, Some (ErrCloseError (protocol_error frame_not_finished))) /\
         r' = r /\ closed c' = true) /\
     (forall io, writeFrameLock c = false \/ c_timeout (r_close io) = true ->
                 exists x, In x (mr_read io r plen c)) /\
     (writeFrameLock c = false ->
      exists c',
        mr_read read_ok r plen c
          = [((r, (0, Some (ErrCloseError (protocol_error frame_not_finished)))), c')] /\
        closeErr c' = Some (websocket_closed
                              (Some (ErrCloseError (protocol_error frame_not_finished)))) /\
        bw c' = bw c ++ close_frame (client c) frame_not_finished_payload)).
Proof.
  intros Hl Hc Hm. split.
  - intros Ho ctx Hd. split; [|split].
    + intros env res c' H. unfold reader in H.
      apply In_bind in H. destruct H as (err & c1 & H1 & H).
      destruct err as [e|].
      { apply acquireLock_error in H1; [|exact Hd]. destruct H1 as [H1 _]. congruence. }
      apply acquireLock_outcome in H1; [|exact Hl].
      destruct H1 as [(_ & _ & ->)|[Hn _]]; [|congruence].
      unfold reader_wait in H. apply In_select in H.
      destruct H as (k & Hk & Hg & H). simpl in Hk.
      destruct Hk as [<-|[<-|[<-|[]]]]; simpl in Hg, H.
      * destruct c; simpl in *; congruence.
      * congruence.
      * apply In_bind in H. destruct H as (h' & c2 & H2 & H).
        unfold recv_readMsg in H2.
        replace (readMsg (slot_set ReadMsg true c)) with (Some h) in H2
          by (destruct c; simpl in *; congruence).
        destruct H2 as [H2|[]]. injection H2 as <- <-.
        rewrite Ho in H. simpl in H.
        apply In_bind in H. destruct H as (u & c3 & H3 & H).
        apply Close_closes in H3; [|apply latch_ok_recv, latch_ok_slot, Hl].
        apply In_ret in H. injection H as -> ->. split; [reflexivity|apply H3].
    + intros env Hr Hw. eapply reader_continuation_returns; eauto.
    + intros Hr Hw. destruct Hl as [Hl _].
      destruct c, ctx, h. simpl in *. subst.
      unfold reader, reader_wait, acquireLock, select, bind, on_done, on_closed,
        modify, ret, readMsg_ready, recv_readMsg. simpl.
      eexists. split; [reflexivity|]. split; [reflexivity|].
      simpl. rewrite <- app_assoc. reflexivity.
  - intros Ho r plen He Hh. split; [|split].
    + intros io r' res c' H. unfold mr_read in H. rewrite He, Hh in H.
      apply In_bind in H. destruct H as (next & c1 & H1 & H).
      apply In_select in H1. destruct H1 as (k & Hk & Hg & H1). simpl in Hk.
      destruct Hk as [<-|[<-|[]]]; simpl in Hg, H1.
      * congruence.
      * apply In_bind in H1. destruct H1 as (h' & c2 & H2 & H1).
        unfold recv_readMsg in H2. rewrite Hm in H2.
        destruct H2 as [H2|[]]. injection H2 as <- <-.
        replace (h_opcode h =? opContinuation) with false in H1
          by (symmetry; apply Z.eqb_neq; exact Ho).
        simpl in H1.
        apply In_bind in H1. destruct H1 as (u & c3 & H3 & H1).
        apply Close_closes in H3; [|apply latch_ok_recv, Hl].
        apply In_ret in H1. injection H1 as -> ->.
        apply In_ret in H. injection H as -> -> ->.
        split; [reflexivity|]. split; [reflexivity|apply H3].
    + intros io Hw. eapply read_new_frame_returns; eauto.
    + intros Hw. destruct Hl as [Hl _].
      assert (Hne : (h_opcode h =? opContinuation) = false)
        by (apply Z.eqb_neq; exact Ho).
      destruct r as [rctx mp rh reof], c, h. simpl in *. subst.
      unfold mr_read, select, bind, on_closed, modify, ret, readMsg_ready,
        recv_readMsg. simpl. rewrite Hne. simpl.
      eexists. split; [reflexivity|]. split; [reflexivity|].
      simpl. rewrite <- app_assoc. reflexivity.
Qed.

Lemma continuation_discipline_witness :
  exists c',
    reader close_ok scope7 (offering empty_final_continuation)
      = [((0, None, Some (ErrCloseError (protocol_error continuation_first))), c')] /\
    closeErr c' = Some (websocket_closed
                          (Some (ErrCloseError (protocol_error continuation_first)))).
Proof.
  destruct (continuation_discipline (offering empty_final_continuation)
              empty_final_continuation) as [HA _].
  - split; [reflexivity | discriminate].
  - reflexivity.
  - reflexivity.
  - destruct (HA eq_refl scope7 eq_refl) as [_ [_ HN]].
    destruct (HN eq_refl eq_refl) as (c' & H1 & H2 & _).
    exists c'. split; [exact H1 | exact H2].
Defined.

(* ===================================================================== *)
(* Message writer                                                        *)
(* ===================================================================== *)

Lemma mw_write_ok (c : Conn) (io : WriteIO) (w : messageWriter) (p : list Byte.byte) :
  writable c -> w_closed w = false -> ctx_done (w_ctx w) = false ->
  io_clean io ->
  exists c',
    mw_write io w p c
      = [((mkMessageWriter (w_ctx w) opContinuation false,
           (Z.of_nat (length p), None)), c')] /\
    bw c' = bw c ++ [HeaderBytes (data_header false (w_opcode w) (client c) p);
                     PayloadBytes p] /\
    flushes c' = flushes c /\ writeMsgLock c' = writeMsgLock c /\
    client c' = client c /\ writable c'.
Proof.
  intros ([Hl Hl'] & Hc & Hf) Hw Hd (H1 & H2 & H3 & H4).
  destruct c, w as [wctx wop wcl], wctx, io. simpl in *. subst.
  unfold mw_write, writeFrame, writeFrame_body, writeFrame_defers, acquireLock,
    select, bind, on_done, on_closed, race_close, close_, releaseLock, modify,
    gets, ret, coordinator_ready. simpl.
  eexists. split; [reflexivity|]. simpl.
  split; [rewrite <- app_assoc; reflexivity|].
  repeat split; auto.
Qed.

Lemma mw_writes_ok (io : WriteIO) (ps : list (list Byte.byte)) :
  io_clean io ->
  forall (c : Conn) (w : messageWriter),
    writable c -> w_closed w = false -> ctx_done (w_ctx w) = false ->
    exists w' c',
      mw_writes io w ps c = [((w', None), c')] /\
      bw c' = bw c ++ data_frames (client c) (w_opcode w) ps /\
      flushes c' = flushes c /\ writeMsgLock c' = writeMsgLock c /\
      client c' = client c /\ writable c' /\
      w_closed w' = false /\ w_ctx w' = w_ctx w /\
      (ps <> [] -> w_opcode w' = opContinuation).
Proof.
  intros Hio. induction ps as [|p ps IH]; intros c w Hc Hw Hd; simpl.
  - exists w, c. rewrite app_nil_r. repeat (split; [solve [auto]|]).
    intros H. destruct H. reflexivity.
  - destruct (mw_write_ok c io w p Hc Hw Hd Hio)
      as (c1 & E1 & B1 & F1 & M1 & C1 & W1).
    destruct (IH c1 (mkMessageWriter (w_ctx w) opContinuation false) W1 eq_refl Hd)
      as (w' & c' & E2 & B2 & F2 & M2 & C2 & W2 & K2 & X2 & O2).
    exists w', c'. unfold bind. rewrite E1. simpl. rewrite E2, app_nil_r.
    split; [reflexivity|]. split.
    { rewrite B2, B1, C1, <- app_assoc. reflexivity. }
    simpl in X2. repeat (split; [solve [congruence | apply W2]|]).
    intros _. destruct ps as [|q qs]; [|apply O2; discriminate].
    simpl in E2. injection E2 as <- _. reflexivity.
Qed.

Lemma mw_close_ok (c : Conn) (io : WriteIO) (w : messageWriter) :
  writable c -> w_closed w = false -> ctx_done (w_ctx w) = false ->
  io_clean io ->
  exists c',
    mw_close io w c
      = [((mkMessageWriter (w_ctx w) (w_opcode w) true, None), c')] /\
    bw c' = bw c ++ [HeaderBytes (data_header true (w_opcode w) (client c) []);
                     PayloadBytes []] /\
    flushes c' = S (flushes c) /\ writeMsgLock c' = false.
Proof.
  intros ([Hl Hl'] & Hc & Hf) Hw Hd (H1 & H2 & H3 & H4).
  destruct c as [? ? ? ? ? ? ? wm ? ? ? ? ? ? ? ? ? ?], w as [wctx wop wcl], wctx, io.
  simpl in *. subst.
  unfold mw_close, writeFrame, writeFrame_body, writeFrame_defers, acquireLock,
    select, bind, on_done, on_closed, race_close, close_, releaseLock, modify,
    gets, ret, coordinator_ready. simpl.
  destruct wm; simpl; eexists; (split; [reflexivity|]); simpl;
    (split; [rewrite <- app_assoc; reflexivity|]); auto.
Qed.

(** C7: through an open writer on an open connection, with the stream
    taking every write: writing the chunks ps in turn emits one non-FIN
    frame per chunk, the first with the writer's opcode (the message type
    for a writer fresh from Writer) and each later one a continuation, with
    no flush; close then emits one empty FIN frame, flushes, and releases
    the write-message slot; and on a closed writer write and close return
    the usage error and leave the connection as it is. *)
Theorem message_writer_frames
  (c : Conn) (io : WriteIO) (ctx : context) (typ : MessageType)
  (ps : list (list Byte.byte)) :
  writable c -> writeMsgLock c = false -> ctx_done ctx = false -> io_clean io ->
  exists w0 c0 w1 c1 w2 c2,
    writer ctx typ c = [(inl w0, c0)] /\ w_opcode w0 = typ /\
    writeMsgLock c0 = true /\
    mw_writes io w0 ps c0 = [((w1, None), c1)] /\
    bw c1 = bw c ++ data_frames (client c) typ ps /\
    flushes c1 = flushes c /\ writeMsgLock c1 = true /\
    mw_close io w1 c1 = [((w2, None), c2)] /\
    bw c2 = bw c1 ++ [HeaderBytes (data_header true (w_opcode w1) (client c) []);
                      PayloadBytes []] /\
    (ps <> [] -> w_opcode w1 = opContinuation) /\
    flushes c2 = S (flushes c) /\ writeMsgLock c2 = false /\
    w_closed w2 = true /\
    forall io' p c3,
      mw_write io' w2 p c3 = [((w2, (0, Some closed_writer)), c3)] /\
      mw_close io' w2 c3 = [((w2, Some closed_writer), c3)].
Proof.
  intros Hc Hm Hd Hio.
  assert (E0 : writer ctx typ c
               = [(inl (mkMessageWriter ctx typ false), slot_set WriteMsg true c)]).
  { destruct Hc as (_ & Hcl & _). destruct c, ctx. simpl in *. subst.
    reflexivity. }
  assert (W0 : writable (slot_set WriteMsg true c)).
  { destruct Hc as (Hl & Hcl & Hf). destruct c. simpl in *.
    repeat split; auto; apply Hl. }
  destruct (mw_writes_ok io ps Hio _ (mkMessageWriter ctx typ false) W0 eq_refl Hd)
    as (w1 & c1 & E1 & B1 & F1 & M1 & C1 & W1 & K1 & X1 & O1).
  destruct (mw_close_ok c1 io w1 W1 K1) as (c2 & E2 & B2 & F2 & M2).
  { rewrite X1. exact Hd. }
  { exact Hio. }
  eexists _, _, w1, c1, _, c2.
  split; [exact E0|]. split; [reflexivity|].
  split; [destruct c; reflexivity|].
  split; [exact E1|].
  split; [rewrite B1; destruct c; reflexivity|].
  split; [rewrite F1; destruct c; reflexivity|].
  split; [rewrite M1; destruct c; reflexivity|].
  split; [exact E2|].
  split; [rewrite B2, C1; destruct c; reflexivity|].
  split; [exact O1|].
  split; [rewrite F2, F1; destruct c; reflexivity|].
  split; [exact M2|].
  split; [reflexivity|].
  intros io' p c3. split; reflexivity.
Qed.

Lemma message_writer_frames_witness :
  exists w0 c0 w1 c1 w2 c2,
    writer scope7 opText (init true None) = [(inl w0, c0)] /\
    mw_writes io_ok w0 [[Byte.x61]; [Byte.x62]] c0 = [((w1, None), c1)] /\
    mw_close io_ok w1 c1 = [((w2, None), c2)] /\
    bw c2 = data_frames true opText [[Byte.x61]; [Byte.x62]]
              ++ [HeaderBytes (data_header true opContinuation true []);
                  PayloadBytes []].
Proof.
  destruct (message_writer_frames (init true None) io_ok scope7 opText
              [[Byte.x61]; [Byte.x62]])
    as (w0 & c0 & w1 & c1 & w2 & c2 & E0 & _ & _ & E1 & B1 & _ & _ & E2 & B2 & O1 & _).
  - repeat split; try reflexivity. discriminate.
  - reflexivity.
  - reflexivity.
  - repeat split.
  - exists w0, c0, w1, c1, w2, c2.
    split; [exact E0|]. split; [exact E1|]. split; [exact E2|].
    rewrite B2, B1, O1 by discriminate. reflexivity.
Defined.

(* ===================================================================== *)
(* Ping                                                                  *)
(* ===================================================================== *)

(* The deferred delete is the last thing ping does to the connection. *)
Lemma ping_ends_with_delete env ctx c r c' :
  In (r, c') (ping env ctx c) ->
  exists c1, c' = set_activePings (delete (FormatUint (p_id env)) (activePings c1)) c1.
Proof.
  unfold ping. intros H.
  apply In_bind in H. destruct H as (ap & c1 & _ & H).
  apply In_bind in H. destruct H as (u1 & c2 & _ & H).
  apply In_bind in H. destruct H as (err & c3 & _ & H).
  apply In_bind in H. destruct H as (ap' & c4 & _ & H).
  apply In_bind in H. destruct H as (u2 & c5 & _ & H).
  apply In_bind in H. destruct H as (r' & c6 & _ & H).
  apply In_bind in H. destruct H as (ap'' & c7 & H7 & H).
  apply In_gets in H7. injection H7 as -> ->.
  apply In_bind in H. destruct H as (u3 & c8 & H8 & H).
  apply In_modify in H8. injection H8 as _ ->.
  apply In_ret in H. injection H as _ ->.
  exists c6. reflexivity.
Qed.

(** C8: whatever the outcome of a ping (pong received, scope cancelled,
    connection closed, write refused or failed), and whatever other pings
    do to the map meanwhile, the map of active pings has no entry for the
    call's identifier when it returns.  In particular, on an open
    connection whose stream takes the ping frame, a ping whose scope is
    cancelled while it waits and whose pong has not arrived returns the
    cancellation error and leaves no entry for its identifier. *)
Theorem ping_always_deregisters (env : PingIO) (ctx : context) (c : Conn) :
  (forall r c', In (r, c') (ping env ctx c) ->
                activePings c' !! FormatUint (p_id env) = None) /\
  (writable c -> ctx_done ctx = false -> io_clean (p_io env) ->
   p_cancelled env = true -> p_pong env = false ->
   exists c', ping env ctx c = [(Some ErrCanceled, c')] /\
              activePings c' !! FormatUint (p_id env) = None).
Proof.
  assert (Hall : forall r c', In (r, c') (ping env ctx c) ->
                              activePings c' !! FormatUint (p_id env) = None).
  { intros r c' H. apply ping_ends_with_delete in H. destruct H as (c1 & ->).
    destruct c1. simpl. apply lookup_delete_eq. }
  split; [exact Hall|].
  intros ([Hl Hl'] & Hc & Hf) Hd (H1 & H2 & H3 & H4) Hcan Hpong.
  assert (E : exists c', ping env ctx c = [(Some ErrCanceled, c')]).
  { destruct c, ctx, env as [pid pch pio poth pcan ppong], pio. simpl in *. subst.
    unfold ping, writeMessage, writeMessage_frame, writeFrame, writeFrame_body,
      writeFrame_defers, acquireLock, select, bind, on_done, on_closed, race_close,
      close_, releaseLock, modify, gets, ret, coordinator_ready. simpl.
    eexists. reflexivity. }
  destruct E as (c' & E). exists c'. split; [exact E|].
  apply (Hall (Some ErrCanceled)). rewrite E. left. reflexivity.
Qed.

Lemma ping_always_deregisters_witness :
  exists c', ping ping_unanswered scope7 (init false None) = [(Some ErrCanceled, c')] /\
             activePings c' !! FormatUint 42 = None.
Proof.
  destruct (ping_always_deregisters ping_unanswered scope7 (init false None))
    as [_ H].
  apply H.
  - repeat split; try reflexivity. discriminate.
  - reflexivity.
  - repeat split.
  - reflexivity.
  - reflexivity.
Defined.

(* ===================================================================== *)
(* Read limit                                                            *)
(* ===================================================================== *)

Lemma keeps_limit_refl c : keeps_limit c c.
Proof. reflexivity. Qed.

Lemma keeps_limit_trans a b c : keeps_limit a b -> keeps_limit b c -> keeps_limit a c.
Proof. unfold keeps_limit. congruence. Qed.

Ltac limit_fields :=
  intros; unfold keeps_limit, close_poison, close_latch;
  match goal with c : Conn |- _ => destruct c end;
  repeat match goal with l : slot |- _ => destruct l end;
  reflexivity.

Ltac limit_prim :=
  first [ apply stable_modify
        | apply stable_releaseLock
        | apply stable_close_
        | apply stable_race_close
        | apply stable_recv_readMsg ];
  limit_fields.

Ltac limit_tac :=
  unfold on_done, on_closed;
  stable_with ltac:(first [ limit_prim
                          | exact keeps_limit_refl
                          | exact keeps_limit_trans
                          | assumption ]).

Lemma reader_keeps_limit env ctx : stable keeps_limit (reader env ctx).
Proof.
  unfold reader, reader_wait, Close, exportedClose, writeClose, writeMessage,
    writeMessage_frame, writeFrame, writeFrame_defers, writeFrame_body, acquireLock.
  limit_tac.
Qed.

Lemma last_cons_default (l : list Z) (z d1 d2 : Z) :
  List.last (z :: l) d1 = List.last (z :: l) d2.
Proof.
  revert z. induction l as [|y l IH]; intros z; [reflexivity|].
  change (List.last (y :: l) d1 = List.last (y :: l) d2). apply IH.
Qed.

Lemma SetReadLimits_outcome (during : list Z) : forall c u c',
  In (u, c') (fold_right (fun n k => SetReadLimit n ;;; k) (ret tt) during c) ->
  msgReadLimit c' = limit_after during (msgReadLimit c).
Proof.
  unfold limit_after.
  induction during as [|n l IH]; intros c u c' H.
  - apply In_ret in H. injection H as _ ->. reflexivity.
  - simpl in H. apply In_bind in H. destruct H as (u1 & c1 & H1 & H).
    apply In_modify in H1. injection H1 as _ ->.
    apply IH in H. rewrite H.
    replace (msgReadLimit (set_msgReadLimit n c)) with n by (destruct c; reflexivity).
    destruct l as [|z l]; [reflexivity|].
    change (List.last (z :: l) n = List.last (z :: l) (msgReadLimit c)).
    apply last_cons_default.
Qed.

Lemma bind_modify {A} (f : Conn -> Conn) (k : M A) (c : Conn) :
  (modify f ;;; k) c = k (f c).
Proof. unfold bind, modify. simpl. apply app_nil_r. Qed.

Lemma SetReadLimits_single (during : list Z) (c : Conn) :
  exists c', fold_right (fun n k => SetReadLimit n ;;; k) (ret tt) during c = [(tt, c')].
Proof.
  revert c. induction during as [|n l IH]; intros c; simpl.
  - eexists. reflexivity.
  - destruct (IH (set_msgReadLimit n c)) as (c' & E). exists c'.
    unfold SetReadLimit. rewrite bind_modify. exact E.
Qed.

(* The reader Reader returns carries the limit the connection holds when
   Reader returns. *)
Lemma Reader_limit env during ctx c typ lr c' :
  In ((typ, Some lr, None), c') (Reader env during ctx c) ->
  left lr = limit_after during (msgReadLimit c) /\ left lr = msgReadLimit c'.
Proof.
  unfold Reader. intros H.
  apply In_bind in H. destruct H as (res & c1 & H1 & H).
  apply reader_keeps_limit in H1. unfold keeps_limit in H1.
  apply In_bind in H. destruct H as (u & c2 & H2 & H).
  apply SetReadLimits_outcome in H2. rewrite H1 in H2.
  destruct res as [[typ1 [r|]] [e|]].
  - apply In_ret in H. discriminate.
  - apply In_bind in H. destruct H as (lim & c3 & H3 & H).
    apply In_gets in H3. injection H3 as -> ->.
    apply In_ret in H. injection H as _ -> ->. simpl. auto.
  - apply In_ret in H. discriminate.
  - apply In_ret in H. discriminate.
Qed.

(** C10, as the code has it: the reader that Reader returns carries as
    its bound the message-read limit the connection holds when Reader has
    received the message's first header and returns: the limit at the
    moment of the call when no SetReadLimit of another goroutine completed
    while the call waited, the last such value otherwise.  A SetReadLimit(n)
    after Reader has returned sets the connection's limit, which readers
    created afterwards carry; the reader already returned keeps its
    bound. *)
Theorem reader_limit_snapshot
  (env : CloseIO) (during : list Z) (ctx : context) (c : Conn)
  (typ : MessageType) (lr : limitedReader) (c' : Conn) :
  In ((typ, Some lr, None), c') (Reader env during ctx c) ->
  left lr = msgReadLimit c' /\
  left lr = limit_after during (msgReadLimit c) /\
  (during = [] -> left lr = msgReadLimit c) /\
  forall n, exists c2,
    SetReadLimit n c' = [(tt, c2)] /\ msgReadLimit c2 = n /\
    left lr = limit_after during (msgReadLimit c) /\
    forall env2 ctx2 typ2 lr2 c3,
      In ((typ2, Some lr2, None), c3) (Reader env2 [] ctx2 c2) -> left lr2 = n.
Proof.
  intros H. apply Reader_limit in H. destruct H as [H1 H2].
  split; [exact H2|]. split; [exact H1|]. split.
  - intros ->. exact H1.
  - intros n. exists (set_msgReadLimit n c').
    split; [reflexivity|]. split; [destruct c'; reflexivity|].
    split; [exact H1|].
    intros env2 ctx2 typ2 lr2 c3 H3. apply Reader_limit in H3.
    destruct H3 as [H3 _]. rewrite H3. destruct c'. reflexivity.
Qed.

Lemma reader_limit_snapshot_witness :
  exists lr c',
    In ((opText, Some lr, None), c') (Reader close_ok [] scope7 (offering text_frame)) /\
    left lr = 32768.
Proof.
  eexists _, _. split.
  - vm_compute. left. reflexivity.
  - refine (proj1 (proj2 (reader_limit_snapshot close_ok [] scope7
                            (offering text_frame) opText _ _ _))).
    vm_compute. left. reflexivity.
Defined.

(** C10, as stated, fails when SetReadLimit(4) of another goroutine
    completes while Reader waits for the message: the limit was 32768 at the
    moment Reader was called, and the reader it returns is bounded by 4. *)
Lemma reader_bound_set_while_waiting :
  exists lr c',
    msgReadLimit (offering text_frame) = 32768 /\
    Reader close_ok [4] scope7 (offering text_frame)
      = [((opText, Some lr, None), c')] /\
    left lr = 4.
Proof.
  eexists _, _. split; [reflexivity|]. split; [vm_compute; reflexivity|]. reflexivity.
Qed.

(* ===================================================================== *)
(* Slots: acquire and release                                            *)
(* ===================================================================== *)

(* An acquire parks exactly when the slot is taken, the scope is live and
   the connection is open. *)
Lemma acquireLock_parks (ctx : context) (l : slot) (c : Conn) :
  acquireLock ctx l c = [] <->
  slot_get l c = true /\ ctx_done ctx = false /\ closed c = false.
Proof.
  unfold acquireLock, select, on_done, on_closed, ret_closeErr, bind, modify, ret.
  simpl. destruct (ctx_done ctx), (closed c), (slot_get l c); simpl;
    split; try discriminate; try (intros (? & ? & ?); discriminate); auto.
Qed.

(* The three ways an acquire returns. *)
Lemma acquireLock_cases (ctx : context) (l : slot) (c : Conn) r c' :
  In (r, c') (acquireLock ctx l c) ->
  (r = None /\ slot_get l c = false /\ c' = slot_set l true c) \/
  (r = Some ErrCanceled /\ ctx_done ctx = true /\ c' = c) \/
  (r = closeErr c /\ closed c = true /\ c' = c).
Proof.
  intros H. unfold acquireLock in H. apply In_select in H.
  destruct H as (k & Hk & Hg & Hin). simpl in Hk.
  destruct Hk as [<-|[<-|[<-|[]]]]; simpl in *.
  - destruct Hin as [Hin|[]]. injection Hin as <- <-. auto.
  - destruct Hin as [Hin|[]]. injection Hin as <- <-. auto.
  - destruct Hin as [Hin|[]]. injection Hin as <- <-. left.
    destruct (slot_get l c); [discriminate|auto].
Qed.

(** X1: an acquire parks exactly when the slot is taken, the caller's
    scope is live and the connection is open.  When it returns, either it
    took a slot that was free and changed nothing else, or it left the
    connection as it was and returned the cancellation error of a cancelled
    scope or c.closeErr of a closed connection. *)
Theorem acquireLock_parks_iff (ctx : context) (l : slot) (c : Conn) :
  (acquireLock ctx l c = [] <->
   slot_get l c = true /\ ctx_done ctx = false /\ closed c = false) /\
  (forall r c', In (r, c') (acquireLock ctx l c) ->
     (r = None /\ slot_get l c = false /\ c' = slot_set l true c) \/
     (r = Some ErrCanceled /\ ctx_done ctx = true /\ c' = c) \/
     (r = closeErr c /\ closed c = true /\ c' = c)).
Proof.
  split; [apply acquireLock_parks | intros r c'; apply acquireLock_cases].
Qed.

Lemma slot_set_set l b b' c : slot_set l b (slot_set l b' c) = slot_set l b c.
Proof. destruct c, l; reflexivity. Qed.

(** X2: acquiring a free slot and releasing it is a round trip: after a
    successful acquire the slot is taken, and one release gives back exactly
    the connection the acquire started from. *)
Theorem acquire_release_round_trip (ctx : context) (l : slot) (c c1 : Conn) :
  slot_get l c = false ->
  In (None, c1) (acquireLock ctx l c) ->
  closed c = false ->
  slot_get l c1 = true /\ releaseLock l c1 = [(tt, c)].
Proof.
  intros Hf H Hc.
  destruct (acquireLock_cases ctx l c _ _ H)
    as [(_ & _ & ->)|[(E & _)|(E & Hcl & _)]]; try congruence.
  split; [apply slot_get_set|].
  unfold releaseLock. rewrite slot_get_set, slot_set_set.
  rewrite (slot_set_same _ _ _ Hf). reflexivity.
Qed.

Lemma acquire_release_round_trip_witness :
  releaseLock ReadMsg (slot_set ReadMsg true (init false None))
  = [(tt, init false None)].
Proof.
  refine (proj2 (acquire_release_round_trip scope7 ReadMsg (init false None)
                   (slot_set ReadMsg true (init false None)) eq_refl _ eq_refl)).
  vm_compute. left. reflexivity.
Defined.

(* ===================================================================== *)
(* Write path: what a write leaves behind                                *)
(* ===================================================================== *)

Lemma releaseLock_frees l c u c' :
  In (u, c') (releaseLock l c) -> c' = slot_set l false c.
Proof.
  unfold releaseLock. destruct (slot_get l c) eqn:E; intros [H|[]];
    injection H as _ <-; [reflexivity|].
  symmetry. apply slot_set_same, E.
Qed.

(** X3: writeMessage never leaks the write-message slot: in every outcome,
    whether the frame was written, the write failed, the scope was
    cancelled or the connection closed, the slot is as the call found it;
    for a control opcode it is not touched at all. *)
Theorem writeMessage_keeps_message_slot
  (io : WriteIO) (ctx : context) (o : opcode) (p : list Byte.byte)
  (c : Conn) (r : option error) (c' : Conn) :
  latch_ok c ->
  In (r, c') (writeMessage io ctx o p c) ->
  writeMsgLock c' = writeMsgLock c.
Proof.
  intros Hl H. unfold writeMessage in H. destruct (negb (controlOp o)).
  - apply In_bind in H. destruct H as (err & c1 & H1 & H).
    apply acquireLock_outcome in H1; [|exact Hl].
    destruct H1 as [(-> & Hf & ->)|(Hn & ->)].
    + apply In_bind in H. destruct H as (r1 & c2 & H2 & H).
      apply In_bind in H. destruct H as (u & c3 & H3 & H).
      apply In_ret in H. injection H as _ ->.
      apply releaseLock_frees in H3. subst c3.
      simpl in Hf. rewrite Hf. destruct c2; reflexivity.
    + destruct err as [e|]; [|congruence].
      apply In_ret in H. injection H as _ ->. reflexivity.
  - apply (frame_writeMessage_frame true true) in H. apply frame_wm in H. exact H.
Qed.

Lemma writeMessage_keeps_message_slot_witness :
  exists r c',
    In (r, c') (Write io_broken scope7 opText [] (init false None)) /\
    writeMsgLock c' = false.
Proof.
  assert (H : exists x, In x (Write io_broken scope7 opText [] (init false None))).
  { eexists. left. reflexivity. }
  destruct H as [[r c'] H]. exists r, c'. split; [exact H|].
  apply (writeMessage_keeps_message_slot io_broken scope7 opText []
           (init false None) r c').
  - split; [reflexivity | discriminate].
  - exact H.
Defined.

(** X4: writeFrame never leaks the write-frame slot: called with the slot
    free, it returns with the slot free in every outcome, also when the
    write failed and the close it started had taken the slot to poison
    it. *)
Theorem writeFrame_frees_frame_slot
  (io : WriteIO) (ctx : context) (h : header) (p : list Byte.byte)
  (c : Conn) (r : option error) (c' : Conn) :
  writeFrameLock c = false ->
  In (r, c') (writeFrame io ctx h p c) ->
  writeFrameLock c' = false.
Proof.
  intros Hf H. unfold writeFrame in H.
  apply In_bind in H. destruct H as (err & c1 & H1 & H).
  destruct err as [e|].
  - apply In_ret in H. injection H as _ ->.
    destruct (acquireLock_cases ctx WriteFrame c _ _ H1)
      as [(E & _)|[(_ & _ & ->)|(_ & _ & ->)]]; [discriminate|exact Hf|exact Hf].
  - apply In_bind in H. destruct H as (armed & c2 & H2 & H).
    destruct armed as [e|].
    + apply In_bind in H. destruct H as (u & c3 & H3 & H).
      apply In_ret in H. injection H as _ ->.
      apply releaseLock_frees in H3. subst c3. apply (slot_get_set WriteFrame).
    + apply In_bind in H. destruct H as (err & c3 & H3 & H).
      apply In_bind in H. destruct H as (u & c4 & H4 & H).
      apply In_ret in H. injection H as _ ->.
      unfold writeFrame_defers in H4.
      apply In_bind in H4. destruct H4 as (u1 & c5 & _ & H4).
      apply In_bind in H4. destruct H4 as (u2 & c6 & _ & H4).
      apply releaseLock_frees in H4. subst c4. apply (slot_get_set WriteFrame).
Qed.

Lemma writeFrame_frees_frame_slot_witness :
  exists c',
    writeFrame io_broken scope7 (header_lit true opText) [] (init false None)
      = [(failed_to_write peer_reset, c')] /\
    closed c' = true /\ writeFrameLock c' = false.
Proof.
  eexists. split; [reflexivity|]. split; [reflexivity|].
  apply (writeFrame_frees_frame_slot io_broken scope7 (header_lit true opText) []
           (init false None) (failed_to_write peer_reset)).
  - reflexivity.
  - left. reflexivity.
Defined.

(** X5: on a connection that is still open when writeFrame returns, the
    write was all or nothing: either the call succeeded, the header (with
    the payload length and the client's mask bit filled in) and the payload
    were both written, the writer was flushed for a FIN frame, and the write
    deadline is disarmed; or the scope was cancelled, nothing was written
    and the deadline was never armed. *)
Theorem writeFrame_all_or_nothing
  (io : WriteIO) (ctx : context) (h : header) (p : list Byte.byte)
  (c : Conn) (r : option error) (c' : Conn) :
  latch_ok c ->
  In (r, c') (writeFrame io ctx h p c) ->
  closed c' = false ->
  (r = None /\
   bw c' = bw c ++ [HeaderBytes (mkHeader (fin h) (rsv1 h) (rsv2 h) (rsv3 h)
                                          (h_opcode h) (Z.of_nat (length p))
                                          (client c) (maskKey h));
                    PayloadBytes p] /\
   flushes c' = (if fin h then S (flushes c) else flushes c) /\
   writeCtx c' = Background) \/
  (r = Some ErrCanceled /\ ctx_done ctx = true /\
   bw c' = bw c /\ flushes c' = flushes c /\ writeCtx c' = writeCtx c).
Proof.
  intros Hl H Hc. unfold writeFrame in H.
  apply In_bind in H. destruct H as (err & c1 & H1 & H).
  apply (acquireLock_cases ctx WriteFrame c) in H1.
  destruct H1 as [(-> & Hf & ->)|[(-> & Hd & ->)|(-> & Hcl & ->)]].
  - apply In_bind in H. destruct H as (armed & c2 & H2 & H).
    apply In_select in H2. destruct H2 as (k & Hk & Hg & H2). simpl in Hk.
    destruct Hk as [<-|[<-|[<-|[]]]]; simpl in Hg, H2.
    + destruct H2 as [H2|[]]. injection H2 as <- <-.
      apply In_bind in H. destruct H as (u & c3 & H3 & H).
      apply In_ret in H. injection H as -> ->.
      apply releaseLock_frees in H3. subst c3. right.
      destruct c; simpl; auto.
    + destruct H2 as [H2|[]]. injection H2 as <- <-.
      apply In_bind in H. destruct H as (u & c3 & H3 & H).
      apply In_ret in H. injection H as -> ->.
      apply releaseLock_frees in H3. subst c3.
      destruct c; simpl in *; congruence.
    + destruct H2 as [H2|[]]. injection H2 as <- <-.
      destruct Hl as [Hl _].
      destruct c as [cl lim cr once cg ce cd wm wf rm rf m d rc wc ap out fl],
        io as [wh wp wfl wr], h as [hf r1 r2 r3 ho hl hm hk].
      unfold coordinator_ready in Hg. simpl in *. subst.
      destruct cd; [discriminate|].
      unfold writeFrame_body, writeFrame_defers, select, bind, on_closed,
        race_close, close_, releaseLock, modify, gets, ret, coordinator_ready in H.
      simpl in H.
      destruct wr as [raced|]; simpl in H;
        destruct wh as [eh|]; simpl in H;
        try (destruct wp as [ep|]; simpl in H);
        try (destruct hf; simpl in H);
        try (destruct wfl as [ef|]; simpl in H);
        repeat match goal with
               | H : _ \/ _ |- _ => destruct H
               | H : False |- _ => destruct H
               | H : (_, _) = (_, _) |- _ => injection H as <- <-
               end;
        simpl in Hc; try discriminate;
        left; simpl; rewrite <- app_assoc; auto.
  - apply In_ret in H. injection H as -> ->. right. auto.
  - destruct (closeErr c) as [e|] eqn:E.
    + apply In_ret in H. injection H as -> ->. congruence.
    + destruct Hl as [_ Hl]. destruct (Hl Hcl) as [cause Hcause]. congruence.
Qed.

Lemma writeFrame_all_or_nothing_witness :
  exists c',
    writeFrame io_ok scope7 (header_lit true opText) [Byte.x61] (init true None)
      = [(None, c')] /\
    bw c' = [HeaderBytes (data_header true opText true [Byte.x61]);
             PayloadBytes [Byte.x61]] /\
    flushes c' = 1%nat.
Proof.
  eexists. split; [reflexivity|].
  destruct (writeFrame_all_or_nothing io_ok scope7 (header_lit true opText)
              [Byte.x61] (init true None) None _
              ltac:(split; [reflexivity | discriminate])
              ltac:(left; reflexivity) eq_refl)
    as [(_ & H1 & H2 & _)|(H & _)]; [|discriminate].
  split; [exact H1 | exact H2].
Defined.

(* ===================================================================== *)
(* Close                                                                 *)
(* ===================================================================== *)

Lemma close_closed t out err :
  spec (closed_with t out) (close_ err) (fun _ c' => closed_with t out c').
Proof.
  split.
  - intros c Hc u c' H. unfold close_ in H.
    destruct Hc as (H1 & H2 & H3 & H4). rewrite H2 in H.
    destruct H as [H|[]]. injection H as _ <-.
    destruct (closing c); [|repeat split; assumption].
    destruct c; simpl in *. repeat split; assumption.
  - intros c _. apply always_close_. exact I.
Qed.

Lemma writeClose_closed t out env p ce :
  spec (closed_with t out) (writeClose env p ce)
       (fun r c' => closed_with t out c' /\
                    refused (mkContext 1 (c_timeout env)) t r).
Proof.
  unfold writeClose.
  eapply spec_bind; [apply writeMessage_closed|]. intros err.
  eapply spec_bind with
    (Q1 := fun _ c' => closed_with t out c' /\
                       refused (mkContext 1 (c_timeout env)) t err).
  - destruct (close_closed t out (Some (ErrCloseError ce))) as [Hh Hr]. split.
    + intros c [Hc Hre] u c' H. split; [eapply Hh; eauto | exact Hre].
    + intros c [Hc _]. apply Hr, Hc.
  - intros []. destruct err as [e|].
    + apply spec_ret. auto.
    + apply spec_absurd. intros c [_ (e & He & _)]. discriminate.
Qed.

(** X6: a Close on a connection that is already closed is not a silent
    no-op: it returns at once with an error that carries the terminal error
    (or the cancellation error, when its 5-second scope has run out), writes
    nothing, and leaves the terminal error as it was. *)
Theorem Close_after_close
  (t : error) (out : list chunk) (env : CloseIO) (code : StatusCode)
  (reason : string) (c : Conn) :
  closed_with t out c ->
  refuses t out (Close env code reason) id (mkContext 1 (c_timeout env)) c.
Proof.
  intros Hc.
  eapply spec_refuses with
    (Q := fun r c' => closed_with t out c' /\
                      refused (mkContext 1 (c_timeout env)) t r);
    [| simpl; tauto | exact Hc].
  unfold Close.
  eapply spec_bind with
    (Q1 := fun r c' => closed_with t out c' /\
                       refused (mkContext 1 (c_timeout env)) t r).
  - unfold exportedClose. destruct (CloseError_bytes _); apply writeClose_closed.
  - intros [e|].
    + apply spec_ret. intros c0 [H0 Hr]. split; auto. apply refused_wrap, Hr.
    + apply spec_absurd. intros c0 [_ (e & He & _)]. discriminate.
Qed.

Lemma Close_after_close_witness :
  refuses (websocket_closed (Some peer_reset)) []
          (Close close_ok 1000 "bye") id (mkContext 1 false)
          (close_poison (close_latch (Some peer_reset) (init false None))).
Proof.
  apply (Close_after_close (websocket_closed (Some peer_reset)) [] close_ok 1000 "bye").
  repeat split; reflexivity.
Defined.

Lemma errors_Is_close_error ce :
  errors_Is (ErrCloseError ce) (websocket_closed (Some (ErrCloseError ce))) = true.
Proof. simpl. rewrite !bool_decide_eq_true_2 by reflexivity. reflexivity. Qed.

Lemma writeClose_ok (c : Conn) (env : CloseIO) (p : list Byte.byte) (ce : CloseError) :
  writable c -> io_clean (c_io env) -> c_timeout env = false ->
  exists c',
    writeClose env p ce c = [(None, c')] /\
    bw c' = bw c ++ close_frame (client c) p /\
    flushes c' = S (flushes c) /\ closed c' = true /\
    writeMsgLock c' = writeMsgLock c /\
    closeErr c' = Some (websocket_closed (Some (ErrCloseError ce))).
Proof.
  intros ([Hl Hl'] & Hc & Hf) (H1 & H2 & H3 & H4) Ht.
  pose proof (errors_Is_close_error ce) as HIs.
  destruct c, env as [io to], io. simpl in *. subst.
  unfold writeClose, writeMessage, writeMessage_frame, writeFrame, writeFrame_body,
    writeFrame_defers, acquireLock, select, bind, on_done, on_closed, race_close,
    close_, releaseLock, modify, gets, ret, coordinator_ready. simpl.
  unfold websocket_closed in HIs. simpl in HIs. rewrite HIs. simpl.
  eexists. split; [reflexivity|]. simpl.
  split; [rewrite <- app_assoc; reflexivity|]. auto.
Qed.

(** X7: on an open connection whose stream takes the close frame, Close
    returns nil, having written and flushed one close frame and closed the
    connection with the CloseError it sent as terminal cause, without
    touching the write-message slot.  What it sends is the caller's code and
    reason, or, when those have no encoding (reason too long, code not
    allowed on the wire), an internal-error CloseError with no reason. *)
Theorem Close_sends_and_records
  (c : Conn) (env : CloseIO) (code : StatusCode) (reason : string) :
  writable c -> io_clean (c_io env) -> c_timeout env = false ->
  exists payload c',
    CloseError_bytes (sent_close_error code reason) = Some payload /\
    Close env code reason c = [(None, c')] /\
    bw c' = bw c ++ close_frame (client c) payload /\
    flushes c' = S (flushes c) /\ closed c' = true /\
    writeMsgLock c' = writeMsgLock c /\
    closeErr c' = Some (websocket_closed
                          (Some (ErrCloseError (sent_close_error code reason)))).
Proof.
  intros Hw Hio Ht. unfold sent_close_error, Close, exportedClose.
  destruct (CloseError_bytes (mkCloseError code reason)) as [p|] eqn:E.
  - destruct (writeClose_ok c env p (mkCloseError code reason) Hw Hio Ht)
      as (c' & E1 & B & F & C & M & T).
    exists p, c'. split; [exact E|]. unfold bind. rewrite E1. simpl. auto 10.
  - destruct (writeClose_ok c env
                (default [] (CloseError_bytes (mkCloseError StatusInternalError "")))
                (mkCloseError StatusInternalError "") Hw Hio Ht)
      as (c' & E1 & B & F & C & M & T).
    eexists _, c'. split; [vm_compute; reflexivity|].
    unfold bind. rewrite E1. simpl. auto 10.
Qed.

Lemma Close_sends_and_records_witness :
  exists c',
    Close close_ok 1005 "" (init false None) = [(None, c')] /\
    closeErr c' = Some (websocket_closed
                          (Some (ErrCloseError (mkCloseError StatusInternalError "")))).
Proof.
  destruct (Close_sends_and_records (init false None) close_ok 1005 "")
    as (payload & c' & _ & E & _ & _ & _ & _ & T).
  - repeat split; try reflexivity. discriminate.
  - repeat split.
  - reflexivity.
  - exists c'. split; [exact E | exact T].
Defined.

(* ===================================================================== *)
(* Message slots that are not given back                                 *)
(* ===================================================================== *)

(** X8: Conn.reader never gives the read-message slot back: called with
    the slot free, every outcome either failed in the acquire and changed
    nothing, or returns with the slot taken, with a reader or with an error.
    In particular a call whose scope is cancelled while it waits for a
    message returns the cancellation error and keeps the slot, and on the
    connection it leaves, still open, every later reader call under a live
    scope parks. *)
Theorem reader_keeps_read_slot
  (env : CloseIO) (ctx : context) (c : Conn)
  (res : MessageType * option messageReader * option error) (c' : Conn) :
  latch_ok c -> readMsgLock c = false ->
  In (res, c') (reader env ctx c) ->
  (c' = c /\ snd res <> None) \/
  (readMsgLock c' = true /\
   (closed c' = false ->
    forall env2 ctx2, ctx_done ctx2 = false -> reader env2 ctx2 c' = [])).
Proof.
  intros Hl Hf H. unfold reader in H.
  apply In_bind in H. destruct H as (err & c1 & H1 & H).
  apply acquireLock_outcome in H1; [|exact Hl].
  destruct H1 as [(-> & _ & ->)|(Hn & ->)].
  - right. apply (frame_reader_wait true true) in H. apply frame_rm in H.
    assert (Ht : readMsgLock c' = true) by (rewrite H; destruct c; reflexivity).
    split; [exact Ht|].
    intros Hc env2 ctx2 Hd. unfold reader, bind.
    replace (acquireLock ctx2 ReadMsg c') with (@nil (option error * Conn));
      [reflexivity|].
    symmetry. apply (acquireLock_parks ctx2 ReadMsg c'). auto.
  - left. destruct err as [e|]; [|congruence].
    apply In_ret in H. injection H as -> ->. split; [reflexivity | discriminate].
Qed.

Lemma reader_keeps_read_slot_witness :
  In ((0, None, Some ErrCanceled), slot_set ReadMsg true (init false None))
     (reader close_ok (mkContext 7 true) (init false None)) /\
  reader close_ok scope7 (slot_set ReadMsg true (init false None)) = [].
Proof.
  assert (H : In ((0, None, Some ErrCanceled), slot_set ReadMsg true (init false None))
                 (reader close_ok (mkContext 7 true) (init false None))).
  { vm_compute. right. left. reflexivity. }
  split; [exact H|].
  destruct (reader_keeps_read_slot close_ok (mkContext 7 true) (init false None) _ _
              ltac:(split; [reflexivity | discriminate]) eq_refl H)
    as [[E _]|[_ Hp]].
  - discriminate.
  - apply Hp; reflexivity.
Defined.

(** X9: a messageWriter.close that fails (scope cancelled, connection
    closed, frame write failed) has already marked the writer closed and
    does not release the write-message slot; every later write or close
    through that writer returns the usage error and changes nothing, so the
    writer can no longer release the slot. *)
Theorem failed_writer_close_keeps_slot
  (io : WriteIO) (w : messageWriter) (c : Conn)
  (w' : messageWriter) (e : error) (c' : Conn) :
  w_closed w = false ->
  In ((w', Some e), c') (mw_close io w c) ->
  w_closed w' = true /\
  writeMsgLock c' = writeMsgLock c /\
  forall io2 p c2,
    mw_close io2 w' c2 = [((w', Some closed_writer), c2)] /\
    mw_write io2 w' p c2 = [((w', (0, Some closed_writer)), c2)].
Proof.
  intros Hw H.
  assert (Hm := mw_close_failed _ _ _ _ _ _ H).
  unfold mw_close in H. rewrite Hw in H.
  apply In_bind in H. destruct H as (err & c1 & _ & H).
  assert (Hc : w_closed w' = true).
  { destruct err as [e1|].
    - apply In_ret in H. injection H as -> _ _. reflexivity.
    - apply In_bind in H. destruct H as (u & c2 & _ & H).
      apply In_ret in H. discriminate. }
  split; [exact Hc|]. split; [exact Hm|].
  intros io2 p c2. unfold mw_close, mw_write. rewrite Hc. split; reflexivity.
Qed.

Lemma failed_writer_close_keeps_slot_witness :
  exists w' c',
    In ((w', Some ErrCanceled), c')
       (mw_close io_ok (mkMessageWriter (mkContext 7 true) opText false)
          (slot_set WriteMsg true (init false None))) /\
    w_closed w' = true /\ writeMsgLock c' = true /\ closed c' = false.
Proof.
  eexists _, _.
  assert (H : In ((mkMessageWriter (mkContext 7 true) opText true, Some ErrCanceled),
                  slot_set WriteMsg true (init false None))
                 (mw_close io_ok (mkMessageWriter (mkContext 7 true) opText false)
                    (slot_set WriteMsg true (init false None)))).
  { vm_compute. left. reflexivity. }
  split; [exact H|].
  destruct (failed_writer_close_keeps_slot io_ok
              (mkMessageWriter (mkContext 7 true) opText false) _ _ _ _ eq_refl H)
    as (H1 & H2 & _).
  split; [exact H1|]. split; [exact H2 | reflexivity].
Defined.

(* ===================================================================== *)
(* Reading a frame in several reads                                      *)
(* ===================================================================== *)

Lemma readable_set_readCtx x c : readable c -> readable (set_readCtx x c).
Proof. destruct c; auto. Qed.

(* A read that takes less than what remains of the frame. *)
Lemma mr_read_part (c : Conn) (io : ReadIO) (r : messageReader) (h : header)
  (plen : Z) :
  readable c -> read_clean io ->
  eofed r = false -> ctx_done (r_ctx r) = false -> r_h r = Some h ->
  0 < plen < payloadLength h ->
  mr_read io r plen c
  = [((mkMessageReader (r_ctx r) (mask_after h (maskPos r) plen)
         (Some (set_payloadLength (payloadLength h - plen) h)) false,
       (plen, None)),
      set_readCtx Background c)].
Proof.
  intros (Hc & Hf & Hd) (Hs & Hr) He Hx Hh Hp.
  assert (Hclamp : (payloadLength h <? plen) = false) by (apply Z.ltb_ge; lia).
  assert (Hnz : (payloadLength h - plen =? 0) = false) by (apply Z.eqb_neq; lia).
  destruct r as [rctx mp rh reof], rctx as [cid cdone], io as [rs rcl rr].
  destruct c. simpl in *. subst.
  unfold mr_read, mr_read_frame, mr_read_tail, acquireLock, select, bind, on_done,
    on_closed, race_close, releaseLock, modify, gets, ret, coordinator_ready,
    readMsgDone_ready, mask_after. simpl.
  rewrite Hclamp. simpl. rewrite Hnz. reflexivity.
Qed.

(* A read that takes all that remains of the frame. *)
Lemma mr_read_rest (c : Conn) (io : ReadIO) (r : messageReader) (h : header)
  (plen : Z) :
  readable c -> read_clean io ->
  eofed r = false -> ctx_done (r_ctx r) = false -> r_h r = Some h ->
  payloadLength h <= plen ->
  exists r' c',
    mr_read io r plen c
    = [((r', (payloadLength h, if fin h then Some ErrEOF else None)), c')] /\
    readMsgDone c' = false /\ closed c' = false /\
    if fin h
    then eofed r' = true /\ readMsgLock c' = false /\
         maskPos r' = mask_after h (maskPos r) (payloadLength h)
    else eofed r' = false /\ r_h r' = None /\ maskPos r' = 0 /\
         readMsgLock c' = readMsgLock c.
Proof.
  intros (Hc & Hf & Hd) (Hs & Hr) He Hx Hh Hp.
  assert (Hclamp : (if payloadLength h <? plen then payloadLength h else plen)
                   = payloadLength h).
  { destruct (payloadLength h <? plen) eqn:E; [reflexivity|].
    apply Z.ltb_ge in E. lia. }
  destruct r as [rctx mp rh reof], rctx as [cid cdone], io as [rs rcl rr].
  destruct c as [? ? ? ? ? ? ? ? ? rm ? ? ? ? ? ? ? ?]. simpl in *. subst.
  unfold mr_read, mr_read_frame, mr_read_tail, acquireLock, select, bind, on_done,
    on_closed, race_close, releaseLock, modify, gets, ret, coordinator_ready,
    readMsgDone_ready, mask_after. simpl.
  rewrite Hclamp, Z.sub_diag. simpl.
  destruct (fin h); simpl.
  - destruct rm; simpl; eexists _, _; (split; [reflexivity|]); simpl; auto.
  - eexists _, _. split; [reflexivity|]. simpl. auto 10.
Qed.

Lemma mask_after_add (h : header) (pos a b : Z) (n : Z) :
  mask_after (set_payloadLength n h) (mask_after h pos a) b = mask_after h pos (a + b).
Proof.
  unfold mask_after, fastXOR_pos. simpl. destruct (masked h); [|reflexivity].
  rewrite Z.add_mod_idemp_l by lia. f_equal. lia.
Qed.

Lemma sum_positive (l : list Z) :
  List.Forall (fun n => 0 < n) l -> l <> [] -> 0 < fold_right Z.add 0 l.
Proof.
  induction 1 as [|x l Hx Hl IH]; [congruence|]. intros _. simpl.
  destruct l as [|y l]; [simpl; lia|].
  assert (0 < fold_right Z.add 0 (y :: l)) by (apply IH; discriminate). lia.
Qed.

(** X10: reading the rest of a frame in several reads, each with a
    non-empty buffer and the buffers adding up to what remains, returns that
    many bytes in all; the pump is acknowledged once the last byte is taken,
    the last read returns io.EOF and releases the read-message slot for a
    FIN frame and nil with the header cleared otherwise, and for a masked
    FIN frame the mask position has advanced by the whole length mod 4, as
    if the payload had been unmasked in one piece. *)
Theorem read_frame_in_chunks (io : ReadIO) (plens : list Z) :
  read_clean io -> List.Forall (fun n => 0 < n) plens ->
  forall (c : Conn) (r : messageReader) (h : header),
    readable c -> eofed r = false -> ctx_done (r_ctx r) = false ->
    r_h r = Some h -> plens <> [] ->
    fold_right Z.add 0 plens = payloadLength h ->
    exists r' c',
      mr_reads io r plens c
      = [((r', (payloadLength h, if fin h then Some ErrEOF else None)), c')] /\
      readMsgDone c' = false /\
      if fin h
      then eofed r' = true /\ readMsgLock c' = false /\
           maskPos r' = mask_after h (maskPos r) (payloadLength h)
      else r_h r' = None /\ maskPos r' = 0 /\ readMsgLock c' = readMsgLock c.
Proof.
  intros Hio Hpos. induction Hpos as [|p ps Hp Hps IH]; [congruence|].
  intros c r h Hc He Hd Hh _ Hsum. simpl in Hsum.
  destruct ps as [|q qs].
  - simpl in Hsum. rewrite Z.add_0_r in Hsum. subst p.
    destruct (mr_read_rest c io r h (payloadLength h) Hc Hio He Hd Hh (Z.le_refl _))
      as (r' & c' & E & D & _ & F).
    exists r', c'. simpl. unfold bind. rewrite E. simpl.
    destruct (fin h); simpl.
    + split; [reflexivity|]. split; [exact D|]. exact F.
    + rewrite Z.add_0_r. split; [reflexivity|]. split; [exact D|].
      destruct F as (_ & F1 & F2 & F3). auto.
  - assert (Hrest : 0 < fold_right Z.add 0 (q :: qs))
      by (apply sum_positive; [exact Hps | discriminate]).
    assert (Hlt : 0 < p < payloadLength h) by lia.
    pose proof (mr_read_part c io r h p Hc Hio He Hd Hh Hlt) as E1.
    destruct (IH (set_readCtx Background c)
                (mkMessageReader (r_ctx r) (mask_after h (maskPos r) p)
                   (Some (set_payloadLength (payloadLength h - p) h)) false)
                (set_payloadLength (payloadLength h - p) h))
      as (r' & c' & E2 & D & F).
    + apply readable_set_readCtx, Hc.
    + reflexivity.
    + exact Hd.
    + reflexivity.
    + discriminate.
    + simpl. simpl in Hsum. lia.
    + exists r', c'.
      change (mr_reads io r (p :: q :: qs) c)
        with ((res <- mr_read io r p ;;
               match snd (snd res) with
               | Some e => ret res
               | None =>
                   rest <- mr_reads io (fst res) (q :: qs) ;;
                   ret (fst rest, (fst (snd res) + fst (snd rest), snd (snd rest)))
               end) c).
      unfold bind at 1. rewrite E1. cbn [flat_map fst snd].
      unfold bind at 1. rewrite E2. cbn [flat_map fst snd ret app].
      replace (p + payloadLength (set_payloadLength (payloadLength h - p) h))
        with (payloadLength h) by (simpl; lia).
      replace (fin (set_payloadLength (payloadLength h - p) h)) with (fin h) in *
        by reflexivity.
      split; [reflexivity|]. split; [exact D|].
      destruct (fin h).
      * destruct F as (F1 & F2 & F3). split; [exact F1|]. split; [exact F2|].
        rewrite F3. cbn [maskPos]. rewrite mask_after_add. f_equal.
        simpl. lia.
      * destruct F as (F1 & F2 & F3). split; [exact F1|]. split; [exact F2|].
        rewrite F3. destruct c; reflexivity.
Qed.

Lemma read_frame_in_chunks_witness :
  exists r' c',
    mr_reads read_ok (reader_on text_frame) [1; 1] awaiting_ack
      = [((r', (2, Some ErrEOF)), c')] /\ readMsgDone c' = false.
Proof.
  destruct (read_frame_in_chunks read_ok [1; 1]) with
    (c := awaiting_ack) (r := reader_on text_frame) (h := text_frame)
    as (r' & c' & E & D & _).
  - split; reflexivity.
  - repeat constructor.
  - repeat split.
  - reflexivity.
  - reflexivity.
  - reflexivity.
  - discriminate.
  - reflexivity.
  - exists r', c'. split; [exact E | exact D].
Defined.

(* ===================================================================== *)
(* Control frames                                                        *)
(* ===================================================================== *)

Lemma frame_writePong wm rm io timeout p :
  stable (frame wm rm) (writePong io timeout p).
Proof. apply frame_writeMessage_control. reflexivity. Qed.

Lemma frame_exportedClose wm rm env code reason :
  stable (frame wm rm) (exportedClose env code reason).
Proof. unfold exportedClose. frame_tac. Qed.

#[local] Hint Resolve frame_writePong frame_exportedClose : stable.

Lemma frame_handleControl wm rm env h : stable (frame wm rm) (handleControl env h).
Proof. unfold handleControl. frame_tac. Qed.

Lemma frame_Conn_readHeader wm rm res : stable (frame wm rm) (Conn_readHeader res).
Proof.
  unfold Conn_readHeader.
  pose proof (frame_acquire_frame_slot wm rm Background ReadFrame (or_intror eq_refl)).
  frame_tac.
Qed.

(** X11: a control frame that is too large (more than 125 bytes) or not
    final makes handleControl close the connection without reading the
    payload: every outcome returns with the connection closed, whatever the
    stream would have delivered; and on an open connection whose stream
    takes the close frame, the terminal cause is the protocol-error
    CloseError naming the violation. *)
Theorem bad_control_frame_closes (env : ControlIO) (h : header) (c : Conn) :
  latch_ok c ->
  maxControlFramePayload < payloadLength h \/ fin h = false ->
  (forall e c', In (e, c') (handleControl env h c) ->
                e = Handled /\ closed c' = true) /\
  (forall payload,
      handleControl (mkControlIO payload (hc_parse env) (hc_pong env)
                       (hc_pong_timeout env) (hc_close env) (hc_pong_open env)) h c
      = handleControl env h c) /\
  (writable c -> io_clean (c_io (hc_close env)) -> c_timeout (hc_close env) = false ->
   exists c',
     handleControl env h c = [(Handled, c')] /\
     closeErr c' = Some (websocket_closed (Some (ErrCloseError
                     (protocol_error
                        (if maxControlFramePayload <? payloadLength h
                         then "control frame too large"
                         else "control frame cannot be fragmented")))))).
Proof.
  intros Hl Hbad.
  assert (Hsel : (maxControlFramePayload <? payloadLength h) = true \/
                 ((maxControlFramePayload <? payloadLength h) = false /\
                  negb (fin h) = true)).
  { destruct (maxControlFramePayload <? payloadLength h) eqn:E; [auto|].
    right. split; [reflexivity|]. apply Z.ltb_ge in E.
    destruct Hbad as [Hbad | Hbad]; [lia | rewrite Hbad; reflexivity]. }
  split; [|split].
  - intros e c' H. unfold handleControl in H.
    assert (Hcl : forall reason,
               In (e, c') ((Close (hc_close env) StatusProtocolError reason ;;;
                            ret Handled) c) ->
               e = Handled /\ closed c' = true).
    { intros reason H0. apply In_bind in H0. destruct H0 as (u & c1 & H1 & H0).
      apply Close_closes in H1; [|exact Hl].
      apply In_ret in H0. injection H0 as -> ->. split; [reflexivity | apply H1]. }
    destruct Hsel as [E|[E1 E2]]; [rewrite E in H | rewrite E1, E2 in H];
      eapply Hcl; exact H.
  - intros payload. unfold handleControl. simpl.
    destruct Hsel as [E|[E1 E2]]; [rewrite E | rewrite E1, E2]; reflexivity.
  - intros Hw Hio Ht. unfold handleControl.
    destruct Hsel as [E|[E1 E2]]; [rewrite E | rewrite E1, E2];
      unfold Close, exportedClose.
    + replace (CloseError_bytes (mkCloseError StatusProtocolError "control frame too large"))
        with (Some (default [] (CloseError_bytes
                      (mkCloseError StatusProtocolError "control frame too large"))))
        by (vm_compute; reflexivity).
      destruct (writeClose_ok c (hc_close env)
                  (default [] (CloseError_bytes
                     (mkCloseError StatusProtocolError "control frame too large")))
                  (mkCloseError StatusProtocolError "control frame too large")
                  Hw Hio Ht) as (c' & E1 & _ & _ & _ & _ & T).
      exists c'. unfold bind. rewrite E1. simpl. split; [reflexivity | exact T].
    + replace (CloseError_bytes
                 (mkCloseError StatusProtocolError "control frame cannot be fragmented"))
        with (Some (default [] (CloseError_bytes
                      (mkCloseError StatusProtocolError
                         "control frame cannot be fragmented"))))
        by (vm_compute; reflexivity).
      destruct (writeClose_ok c (hc_close env)
                  (default [] (CloseError_bytes
                     (mkCloseError StatusProtocolError
                        "control frame cannot be fragmented")))
                  (mkCloseError StatusProtocolError "control frame cannot be fragmented")
                  Hw Hio Ht) as (c' & E3 & _ & _ & _ & _ & T).
      exists c'. unfold bind. rewrite E3. simpl. split; [reflexivity | exact T].
Qed.

Lemma bad_control_frame_closes_witness :
  exists c',
    handleControl control_ok fragmented_ping (init false None) = [(Handled, c')] /\
    closeErr c' = Some (websocket_closed (Some (ErrCloseError
                    (protocol_error "control frame cannot be fragmented")))).
Proof.
  destruct (bad_control_frame_closes control_ok fragmented_ping (init false None))
    as (_ & _ & H).
  - split; [reflexivity | discriminate].
  - right. reflexivity.
  - apply H.
    + repeat split; try reflexivity. discriminate.
    + repeat split.
    + reflexivity.
Defined.

(** X12: a pong wakes the ping it answers and no other: with the ping of
    identifier [id] registered and its channel still open, a well-formed
    unmasked pong whose payload is that identifier in decimal closes exactly
    that ping's channel; a pong for any other identifier is looked up as if
    this ping were not registered, and a pong that matches no entry is
    dropped.  A pong that finds its ping's channel closed already (a second
    pong for a ping that has not yet deregistered) ends in the panic of
    closing a closed channel.  The connection is left as it was. *)
Theorem pong_wakes_its_ping
  (env : ControlIO) (h : header) (c : Conn) (m : gmap string nat)
  (id id' : N) (pong : nat) :
  fin h = true -> payloadLength h <= maxControlFramePayload ->
  h_opcode h = opPong -> masked h = false ->
  activePings c = <[FormatUint id := pong]> m ->
  (hc_payload env = inl (ping_payload id) ->
   (hc_pong_open env = true ->
    handleControl env h c = [(PongClosed pong, c)]) /\
   (hc_pong_open env = false ->
    handleControl env h c = [(CloseOfClosedChannel pong, c)])) /\
  (id' <> id -> hc_payload env = inl (ping_payload id') ->
   handleControl env h c
   = [(match m !! FormatUint id' with
       | Some other =>
           if hc_pong_open env then PongClosed other
           else CloseOfClosedChannel other
       | None => Handled
       end, c)]).
Proof.
  intros Hf Hl Ho Hm Hap.
  assert (Hle : (maxControlFramePayload <? payloadLength h) = false)
    by (apply Z.ltb_ge; exact Hl).
  split.
  - intros Hp.
    assert (E : handleControl env h c
                = [(if hc_pong_open env then PongClosed pong
                    else CloseOfClosedChannel pong, c)]).
    { unfold handleControl. rewrite Hle, Hf, Hp, Hm, Ho. simpl.
      unfold bind, gets. simpl. rewrite Hap. unfold ping_payload.
      rewrite String.string_of_list_byte_of_string, lookup_insert_eq.
      destruct (hc_pong_open env); reflexivity. }
    split; intros Hopen; rewrite E, Hopen; reflexivity.
  - intros Hne Hp. unfold handleControl. rewrite Hle, Hf, Hp, Hm, Ho. simpl.
    unfold bind, gets. simpl. rewrite Hap. unfold ping_payload.
    rewrite String.string_of_list_byte_of_string, lookup_insert_ne.
    + destruct (m !! FormatUint id'); [destruct (hc_pong_open env)|]; reflexivity.
    + unfold FormatUint. intros E. apply Hne. symmetry.
      apply (inj pretty) in E. exact E.
Qed.

Lemma pong_wakes_its_ping_witness :
  handleControl (control_with (ping_payload 42)) (control_header opPong 2)
    (set_activePings (<[FormatUint 42 := 5%nat]> ∅) (init false None))
  = [(PongClosed 5, set_activePings (<[FormatUint 42 := 5%nat]> ∅) (init false None))].
Proof.
  refine (proj1 (proj1 (pong_wakes_its_ping (control_with (ping_payload 42))
                          (control_header opPong 2)
                          (set_activePings (<[FormatUint 42 := 5%nat]> ∅)
                             (init false None))
                          ∅ 42 0 5%nat eq_refl _ eq_refl eq_refl eq_refl) eq_refl)
            eq_refl).
  vm_compute. discriminate.
Defined.

(** X13: a well-formed ping on an open connection is answered at once:
    handleControl writes and flushes one FIN pong frame that carries the
    ping's (unmasked) payload, leaves the connection open, and does not
    touch the write-message slot, so the pong goes out also while a caller
    holds that slot between two fragments of a message. *)
Theorem ping_is_answered
  (env : ControlIO) (h : header) (c : Conn) (b : list Byte.byte) :
  writable c -> fin h = true -> payloadLength h <= maxControlFramePayload ->
  h_opcode h = opPing -> hc_payload env = inl b ->
  io_clean (hc_pong env) -> hc_pong_timeout env = false ->
  exists c',
    handleControl env h c = [(Handled, c')] /\
    bw c' = bw c ++
            [HeaderBytes (data_header true opPong (client c)
                            (if masked h then fastXOR (maskKey h) 0 b else b));
             PayloadBytes (if masked h then fastXOR (maskKey h) 0 b else b)] /\
    flushes c' = S (flushes c) /\ closed c' = false /\
    writeMsgLock c' = writeMsgLock c.
Proof.
  intros ([Hl Hl'] & Hc & Hfr) Hf Hlen Ho Hp (H1 & H2 & H3 & H4) Ht.
  assert (Hle : (maxControlFramePayload <? payloadLength h) = false)
    by (apply Z.ltb_ge; exact Hlen).
  unfold handleControl. rewrite Hle, Hf, Hp, Ho. simpl.
  generalize (if masked h then fastXOR (maskKey h) 0 b else b). intros b'.
  destruct c, env as [pl pa pio pto pcl], pio. simpl in *. subst.
  unfold writePong, writeMessage, writeMessage_frame, writeFrame, writeFrame_body,
    writeFrame_defers, acquireLock, select, bind, on_done, on_closed, race_close,
    close_, releaseLock, modify, gets, ret, coordinator_ready. simpl.
  eexists. split; [reflexivity|]. simpl.
  split; [rewrite <- app_assoc; reflexivity|]. auto.
Qed.

Lemma ping_is_answered_witness :
  exists c',
    handleControl (control_with [Byte.x58]) (control_header opPing 1)
      (slot_set WriteMsg true (init false None)) = [(Handled, c')] /\
    bw c' = [HeaderBytes (data_header true opPong false [Byte.x58]);
             PayloadBytes [Byte.x58]].
Proof.
  destruct (ping_is_answered (control_with [Byte.x58]) (control_header opPing 1)
              (slot_set WriteMsg true (init false None)) [Byte.x58])
    as (c' & E & B & _).
  - repeat split; try reflexivity. discriminate.
  - reflexivity.
  - vm_compute. discriminate.
  - reflexivity.
  - reflexivity.
  - repeat split.
  - reflexivity.
  - exists c'. split; [exact E | exact B].
Defined.

(* ===================================================================== *)
(* Reading up to the next data frame                                     *)
(* ===================================================================== *)

Lemma Conn_readHeader_header res c h c' :
  In (inl h, c') (Conn_readHeader res c) -> res = inl h.
Proof.
  unfold Conn_readHeader. intros H.
  apply In_bind in H. destruct H as (err & c1 & _ & H).
  destruct err as [e|]; [apply In_ret in H; discriminate|].
  apply In_bind in H. destruct H as (u & c2 & _ & H).
  destruct res; apply In_ret in H; congruence.
Qed.

(** X15: readTillMsg only ever hands on the header of a data frame: a
    header it returns has no reserved bit set and a text, binary or
    continuation opcode, never a control opcode, and it is the header of one
    of the frames that arrived.  When instead it returns a CloseError, that
    is a protocol error it has closed the connection with. *)
Theorem readTillMsg_returns_data_header (frames : list incoming) :
  forall (c : Conn) (res : header + error) (c' : Conn),
    latch_ok c ->
    In (res, c') (readTillMsg frames c) ->
    match res with
    | inl h =>
        rsv1 h = false /\ rsv2 h = false /\ rsv3 h = false /\
        (h_opcode h = opBinary \/ h_opcode h = opText \/ h_opcode h = opContinuation) /\
        controlOp (h_opcode h) = false /\
        exists f, In f frames /\ in_header f = inl h
    | inr (ErrCloseError ce) => Code ce = StatusProtocolError /\ closed c' = true
    | inr _ => True
    end.
Proof.
  induction frames as [|f frames IH]; intros c res c' Hl H; [destruct H|].
  simpl in H. apply In_bind in H. destruct H as (r & c1 & H1 & H).
  assert (Hl1 : latch_ok c1).
  { apply (frame_Conn_readHeader true true) in H1. apply H1, Hl. }
  destruct r as [h|e].
  2:{ apply In_ret in H. injection H as -> ->.
      unfold Conn_readHeader in H1.
      apply In_bind in H1. destruct H1 as (err & c2 & H2 & H1).
      destruct err as [e1|].
      - apply In_ret in H1. injection H1 as -> ->.
        destruct (acquireLock_cases Background ReadFrame c _ _ H2)
          as [(E & _)|[(E & _)|(E & Hc & _)]]; try discriminate.
        + injection E as ->. exact I.
        + destruct Hl as [_ Hl]. destruct (Hl Hc) as [cause Hcause].
          rewrite Hcause in E. injection E as ->. exact I.
      - apply In_bind in H1. destruct H1 as (u & c3 & _ & H1).
        destruct (in_header f); apply In_ret in H1; [discriminate|].
        injection H1 as -> _. exact I. }
  apply Conn_readHeader_header in H1.
  destruct (rsv1 h || rsv2 h || rsv3 h) eqn:Er.
  { apply In_bind in H. destruct H as (u & c2 & H2 & H).
    apply Close_closes in H2; [|exact Hl1].
    apply In_ret in H. injection H as -> ->. split; [reflexivity | apply H2]. }
  destruct (controlOp (h_opcode h)) eqn:Ec.
  { apply In_bind in H. destruct H as (e & c2 & H2 & H).
    assert (Hl2 : latch_ok c2).
    { apply (frame_handleControl true true) in H2. apply H2, Hl1. }
    destruct e; [| |destruct H|destruct H];
      (specialize (IH _ _ _ Hl2 H); destruct res as [h'|e'];
       [destruct IH as (A & B & C & D & E & (f' & Hf' & Hh')); repeat split; auto;
        exists f'; split; [right; exact Hf' | exact Hh']
       | exact IH]). }
  destruct ((h_opcode h =? opBinary) || (h_opcode h =? opText)
            || (h_opcode h =? opContinuation)) eqn:Eo.
  - apply In_ret in H. injection H as -> ->.
    apply orb_false_elim in Er. destruct Er as [Er E3].
    apply orb_false_elim in Er. destruct Er as [E1 E2].
    repeat split; auto.
    + apply orb_true_iff in Eo. destruct Eo as [Eo|Eo].
      * apply orb_true_iff in Eo. destruct Eo as [Eo|Eo];
          apply Z.eqb_eq in Eo; auto.
      * apply Z.eqb_eq in Eo. auto.
    + exists f. split; [left; reflexivity | exact H1].
  - apply In_bind in H. destruct H as (u & c2 & H2 & H).
    apply Close_closes in H2; [|exact Hl1].
    apply In_ret in H. injection H as -> ->. split; [reflexivity | apply H2].
Qed.

Lemma readTillMsg_returns_data_header_witness :
  exists c',
    In (inl text_frame, c') (readTillMsg ping_then_text (init false None)) /\
    controlOp (h_opcode text_frame) = false.
Proof.
  exists (snd (hd (inl text_frame, init false None)
                 (readTillMsg ping_then_text (init false None)))).
  assert (H : In (inl text_frame,
                  snd (hd (inl text_frame, init false None)
                         (readTillMsg ping_then_text (init false None))))
                 (readTillMsg ping_then_text (init false None))).
  { vm_compute. left. reflexivity. }
  split; [exact H|].
  pose proof (readTillMsg_returns_data_header ping_then_text (init false None)
                (inl text_frame) _
                ltac:(split; [reflexivity | discriminate]) H)
    as (_ & _ & _ & _ & E & _).
  exact E.
Defined.

(* ===================================================================== *)
(* Reading from a closed connection                                      *)
(* ===================================================================== *)

Lemma mr_read_closed io r plen c t :
  closed c = true -> closeErr c = Some t -> eofed r = false ->
  mr_read io r plen c = [((r, (0, Some t)), c)].
Proof.
  intros Hc Ht He.
  destruct r as [rctx mp rh reof], c. simpl in *. subst.
  unfold mr_read, mr_read_frame, select, bind, on_closed, ret_closeErr, ret,
    readMsg_ready, coordinator_ready. simpl.
  destruct rh as [h|]; reflexivity.
Qed.

(** X16: on a closed connection, Read on a message reader that has not
    reached EOF returns no bytes, and as its error plain io.EOF when the
    terminal error wraps io.EOF (as when the stream ended while the pump
    read a header), just as at the end of a message, and otherwise the
    terminal error wrapped with "failed to read". *)
Theorem Read_on_closed_connection
  (io : ReadIO) (r : messageReader) (plen : Z) (c : Conn) (t : error) :
  closed c = true -> closeErr c = Some t -> eofed r = false ->
  mr_Read io r plen c = [((r, (0, Some (Read_error t))), c)] /\
  (errors_Is ErrEOF t = true -> Read_error t = ErrEOF) /\
  (errors_Is ErrEOF t = false -> carries t (Read_error t)).
Proof.
  intros Hc Ht He. split; [|split].
  - unfold mr_Read, bind. rewrite (mr_read_closed io r plen c t Hc Ht He).
    simpl. unfold Read_error. destruct (errors_Is ErrEOF t); reflexivity.
  - intros E. unfold Read_error. rewrite E. reflexivity.
  - intros E. unfold Read_error. rewrite E. simpl. right.
    destruct t; simpl; auto.
Qed.

Lemma Read_on_closed_connection_witness :
  exists c,
    readLoop_turn (inr header_eof) (init false None) = [(tt, c)] /\
    mr_Read read_ok (reader_on text_fragment) 2 c
    = [((reader_on text_fragment, (0, Some ErrEOF)), c)].
Proof.
  exists (close_poison (close_latch (Some header_eof) (init false None))).
  split; [reflexivity|].
  exact (proj1 (Read_on_closed_connection read_ok (reader_on text_fragment) 2
                  (close_poison (close_latch (Some header_eof) (init false None)))
                  (websocket_closed (Some header_eof)) eq_refl eq_refl eq_refl)).
Defined.

(* ===================================================================== *)
(* Package wsjson                                                        *)
(* ===================================================================== *)

(* A clean close of an open writer leaves the connection open. *)
Lemma mw_close_stays_open (c : Conn) (io : WriteIO) (w : messageWriter) :
  writable c -> w_closed w = false -> ctx_done (w_ctx w) = false ->
  io_clean io ->
  forall r c', In (r, c') (mw_close io w c) -> closed c' = false.
Proof.
  intros ([Hl Hl'] & Hc & Hf) Hw Hd (H1 & H2 & H3 & H4) r c'.
  destruct c as [? ? ? ? ? ? ? wm ? ? ? ? ? ? ? ? ? ?], w as [wctx wop wcl], wctx, io.
  simpl in *. subst.
  unfold mw_close, writeFrame, writeFrame_body, writeFrame_defers, acquireLock,
    select, bind, on_done, on_closed, race_close, close_, releaseLock, modify,
    gets, ret, coordinator_ready. simpl.
  destruct wm; simpl; intros [H|[]]; inversion H; reflexivity.
Qed.

(** X17: wsjson's Write of a value that the encoder turns into the bytes
    [b], on an open connection with the write slots free and the stream
    taking every write, returns nil, having sent exactly one message: a
    non-FIN text frame with [b], then an empty FIN continuation frame; the
    writer is flushed once and the write-message slot is free again. *)
Theorem wsjson_Write_sends_one_message
  (c : Conn) (io1 io2 : WriteIO) (b : list Byte.byte) (ctx : context) :
  writable c -> writeMsgLock c = false -> ctx_done ctx = false ->
  io_clean io1 -> io_clean io2 ->
  exists c',
    wsjson_Write io1 io2 (inl b) ctx c = [(None, c')] /\
    bw c' = bw c ++ [HeaderBytes (data_header false opText (client c) b);
                     PayloadBytes b;
                     HeaderBytes (data_header true opContinuation (client c) []);
                     PayloadBytes []] /\
    flushes c' = S (flushes c) /\ writeMsgLock c' = false /\ closed c' = false.
Proof.
  intros Hc Hm Hd Hio1 Hio2.
  assert (E0 : Writer ctx MessageText c
               = [(inl (mkMessageWriter ctx MessageText false),
                   slot_set WriteMsg true c)]).
  { destruct Hc as (_ & Hcl & _). destruct c, ctx. simpl in *. subst.
    reflexivity. }
  assert (W0 : writable (slot_set WriteMsg true c)).
  { destruct Hc as (Hl & Hcl & Hf). destruct c. simpl in *.
    repeat split; auto; apply Hl. }
  destruct (mw_write_ok _ io1 (mkMessageWriter ctx MessageText false) b
              W0 eq_refl Hd Hio1) as (c1 & E1 & B1 & F1 & M1 & C1 & W1).
  destruct (mw_close_ok c1 io2 (mkMessageWriter ctx opContinuation false)
              W1 eq_refl Hd Hio2) as (c2 & E2 & B2 & F2 & M2).
  assert (EJ : json_Encode io1 (mkMessageWriter ctx MessageText false) (inl b)
                 (slot_set WriteMsg true c)
               = [((mkMessageWriter ctx opContinuation false, None), c1)]).
  { unfold json_Encode, mw_Write, bind. rewrite E1. reflexivity. }
  assert (EC : mw_Close io2 (mkMessageWriter ctx opContinuation false) c1
               = [((mkMessageWriter ctx opContinuation true, None), c2)]).
  { unfold mw_Close, bind. rewrite E2. reflexivity. }
  assert (EW : wsjson_write io1 io2 (inl b) ctx c = [(None, c2)]).
  { unfold wsjson_write. unfold bind at 1. rewrite E0.
    cbn [flat_map app fst snd]. unfold bind at 1. rewrite EJ.
    cbn [flat_map app fst snd]. unfold bind. rewrite EC. reflexivity. }
  exists c2. split.
  { unfold wsjson_Write, bind. rewrite EW. reflexivity. }
  split.
  { rewrite B2, B1, C1, <- app_assoc. destruct c; reflexivity. }
  split; [rewrite F2, F1; destruct c; reflexivity|].
  split; [exact M2|].
  apply (mw_close_stays_open c1 io2 (mkMessageWriter ctx opContinuation false)
           W1 eq_refl Hd Hio2 (mkMessageWriter ctx opContinuation true, None)).
  rewrite E2. left. reflexivity.
Qed.

Lemma wsjson_Write_sends_one_message_witness :
  exists c',
    wsjson_Write io_ok io_ok (inl [Byte.x31; Byte.x0a]) scope7 (init false None)
    = [(None, c')] /\ writeMsgLock c' = false.
Proof.
  destruct (wsjson_Write_sends_one_message (init false None) io_ok io_ok
              [Byte.x31; Byte.x0a] scope7)
    as (c' & E & _ & _ & M & _).
  - repeat split; try reflexivity. discriminate.
  - reflexivity.
  - reflexivity.
  - repeat split.
  - repeat split.
  - exists c'. split; [exact E | exact M].
Defined.

(** X18: when the encoder fails on the value, wsjson's Write returns the
    error wrapped with "failed to encode json" without closing the writer
    it opened: nothing is written, the connection stays open, and the
    write-message slot stays taken, so that every later Writer call under a
    live scope parks. *)
Theorem wsjson_Write_encode_error_keeps_slot
  (c : Conn) (io1 io2 : WriteIO) (e : error) (ctx : context) :
  writable c -> writeMsgLock c = false -> ctx_done ctx = false ->
  exists c',
    wsjson_Write io1 io2 (inr e) ctx c
    = [(Some (ErrWrap "failed to write json"
                (Some (ErrWrap "failed to encode json" (Some e)))), c')] /\
    bw c' = bw c /\ closed c' = false /\ writeMsgLock c' = true /\
    forall ctx2 typ, ctx_done ctx2 = false -> Writer ctx2 typ c' = [].
Proof.
  intros ([Hl Hl'] & Hc & Hf) Hm Hd.
  exists (slot_set WriteMsg true c). split; [|split; [|split; [|split]]].
  - destruct c, ctx. simpl in *. subst. reflexivity.
  - destruct c; reflexivity.
  - destruct c; exact Hc.
  - destruct c; reflexivity.
  - intros ctx2 typ Hd2. unfold Writer, writer, bind.
    replace (acquireLock ctx2 WriteMsg (slot_set WriteMsg true c))
      with (@nil (option error * Conn)); [reflexivity|].
    symmetry. apply (acquireLock_parks ctx2 WriteMsg _).
    destruct c; simpl in *; auto.
Qed.

Lemma wsjson_Write_encode_error_keeps_slot_witness :
  exists c',
    wsjson_Write io_ok io_ok (inr (ErrNew "json: unsupported type")) scope7
      (init false None)
    = [(Some (ErrWrap "failed to write json"
                (Some (ErrWrap "failed to encode json"
                         (Some (ErrNew "json: unsupported type"))))), c')] /\
    Writer scope7 opText c' = [].
Proof.
  destruct (wsjson_Write_encode_error_keeps_slot (init false None) io_ok io_ok
              (ErrNew "json: unsupported type") scope7)
    as (c' & E & _ & _ & _ & P).
  - repeat split; try reflexivity. discriminate.
  - reflexivity.
  - reflexivity.
  - exists c'. split; [exact E | apply P; reflexivity].
Defined.

(** X19: wsjson's read refuses a message that is not text: after c.Read
    has returned a message of another type, every outcome is the
    "unexpected frame type" error with the connection closed, and the bytes
    are never handed to the JSON decoder; on an open connection whose stream
    takes the close frame, the terminal cause is the CloseError with status
    1003 (unsupported data). *)
Theorem wsjson_read_refuses_non_text
  (env : CloseIO) (unmarshal : list Byte.byte -> option error)
  (typ : MessageType) (b : list Byte.byte) (c : Conn) :
  latch_ok c -> typ <> MessageText ->
  (forall e c', In (e, c') (wsjson_decode env unmarshal (typ, b, None) c) ->
                e = Some (unexpected_frame_type typ) /\ closed c' = true) /\
  (forall unmarshal2,
      wsjson_decode env unmarshal2 (typ, b, None) c
      = wsjson_decode env unmarshal (typ, b, None) c) /\
  (writable c -> io_clean (c_io env) -> c_timeout env = false ->
   exists c',
     wsjson_decode env unmarshal (typ, b, None) c
     = [(Some (unexpected_frame_type typ), c')] /\
     closeErr c' = Some (websocket_closed (Some (ErrCloseError
                     (mkCloseError StatusUnsupportedData only_text))))).
Proof.
  intros Hl Ht.
  assert (E : negb (typ =? MessageText) = true).
  { apply negb_true_iff, Z.eqb_neq, Ht. }
  unfold wsjson_decode. rewrite E. split; [|split].
  - intros e c' H. apply In_bind in H. destruct H as (u & c1 & H1 & H).
    apply Close_closes in H1; [|exact Hl].
    apply In_ret in H. injection H as -> ->. split; [reflexivity | apply H1].
  - reflexivity.
  - intros Hw Hio Hto. unfold Close, exportedClose.
    replace (CloseError_bytes (mkCloseError StatusUnsupportedData only_text))
      with (Some (default [] (CloseError_bytes
                    (mkCloseError StatusUnsupportedData only_text))))
      by (vm_compute; reflexivity).
    destruct (writeClose_ok c env
                (default [] (CloseError_bytes
                   (mkCloseError StatusUnsupportedData only_text)))
                (mkCloseError StatusUnsupportedData only_text) Hw Hio Hto)
      as (c' & E1 & _ & _ & _ & _ & T).
    exists c'. unfold bind. rewrite E1. simpl. split; [reflexivity | exact T].
Qed.

Lemma wsjson_read_refuses_non_text_witness :
  exists c',
    wsjson_decode close_ok (fun _ => None) (opBinary, [], None) (init false None)
    = [(Some (unexpected_frame_type opBinary), c')] /\
    closeErr c' = Some (websocket_closed (Some (ErrCloseError
                    (mkCloseError StatusUnsupportedData only_text)))).
Proof.
  destruct (wsjson_read_refuses_non_text close_ok (fun _ => None) opBinary []
              (init false None)) as (_ & _ & H).
  - split; [reflexivity | discriminate].
  - discriminate.
  - apply H.
    + repeat split; try reflexivity. discriminate.
    + repeat split.
    + reflexivity.
Defined.

(* ===================================================================== *)
(* Write and Ping on an open connection                                  *)
(* ===================================================================== *)

(** X20: Write of a data message on an open connection with both write
    slots free and the stream taking the write sends the message as a
    single FIN frame of that type, flushed, and leaves both slots free and
    the write deadline disarmed; while another caller holds the
    write-message slot, Write under a live scope parks. *)
Theorem Write_sends_one_frame
  (c : Conn) (io : WriteIO) (ctx : context) (typ : MessageType)
  (p : list Byte.byte) :
  closed c = false -> latch_ok c -> ctx_done ctx = false ->
  controlOp typ = false -> io_clean io ->
  (writeMsgLock c = true -> Write io ctx typ p c = []) /\
  (writeMsgLock c = false -> writeFrameLock c = false ->
   exists c',
     Write io ctx typ p c = [(None, c')] /\
     bw c' = bw c ++ [HeaderBytes (data_header true typ (client c) p);
                      PayloadBytes p] /\
     flushes c' = S (flushes c) /\
     writeMsgLock c' = false /\ writeFrameLock c' = false /\
     writeCtx c' = Background /\ closed c' = false).
Proof.
  intros Hc [Hl Hl'] Hd Hop (A1 & A2 & A3 & A4). split.
  - intros Hm. unfold Write, writeMessage. rewrite Hop. simpl. unfold bind.
    replace (acquireLock ctx WriteMsg c) with (@nil (option error * Conn));
      [reflexivity|].
    destruct c, ctx. simpl in *. subst. reflexivity.
  - intros Hm Hf. unfold Write, writeMessage. rewrite Hop. simpl.
    destruct c, ctx, io. simpl in *. subst.
    unfold writeMessage_frame, writeFrame, writeFrame_body, writeFrame_defers,
      acquireLock, select, bind, on_done, on_closed, race_close, close_,
      releaseLock, modify, gets, ret, coordinator_ready. simpl.
    eexists. split; [reflexivity|]. simpl.
    split; [rewrite <- app_assoc; reflexivity|]. auto 10.
Qed.

Lemma Write_sends_one_frame_witness :
  exists c',
    Write io_ok scope7 opText [Byte.x68; Byte.x69] (init true None) = [(None, c')] /\
    bw c' = [HeaderBytes (data_header true opText true [Byte.x68; Byte.x69]);
             PayloadBytes [Byte.x68; Byte.x69]].
Proof.
  destruct (Write_sends_one_frame (init true None) io_ok scope7 opText
              [Byte.x68; Byte.x69]) as [_ H].
  - reflexivity.
  - split; [reflexivity | discriminate].
  - reflexivity.
  - reflexivity.
  - repeat split.
  - destruct (H eq_refl eq_refl) as (c' & E & B & _).
    exists c'. split; [exact E | exact B].
Defined.

(** X21: a ping on an open connection whose stream takes the frame sends
    one flushed FIN ping frame whose payload is the identifier in decimal;
    when the pong has arrived by the time it waits, it returns nil, and the
    map of active pings is what the other pings made of it, without this
    ping's entry. *)
Theorem ping_answered_returns_nil (c : Conn) (env : PingIO) (ctx : context) :
  writable c -> ctx_done ctx = false -> io_clean (p_io env) ->
  p_cancelled env = false -> p_pong env = true ->
  exists c',
    ping env ctx c = [(None, c')] /\
    bw c' = bw c ++ [HeaderBytes (data_header true opPing (client c)
                                    (ping_payload (p_id env)));
                     PayloadBytes (ping_payload (p_id env))] /\
    flushes c' = S (flushes c) /\ closed c' = false /\
    activePings c'
    = delete (FormatUint (p_id env))
        (fold_left (fun m o => apply_ping_op o m) (p_others env)
           (<[FormatUint (p_id env) := p_chan env]> (activePings c))).
Proof.
  intros ([Hl Hl'] & Hc & Hf) Hd (A1 & A2 & A3 & A4) Hcan Hpong.
  destruct c, ctx, env as [pid pch pio poth pcan ppong], pio. simpl in *. subst.
  unfold ping, writeMessage, writeMessage_frame, writeFrame, writeFrame_body,
    writeFrame_defers, acquireLock, select, bind, on_done, on_closed, race_close,
    close_, releaseLock, modify, gets, ret, coordinator_ready, ping_payload. simpl.
  eexists. split; [reflexivity|]. simpl.
  split; [rewrite <- app_assoc; reflexivity|]. auto.
Qed.

Lemma ping_answered_returns_nil_witness :
  exists c',
    ping ping_answered scope7 (init false None) = [(None, c')] /\
    activePings c' = ∅.
Proof.
  destruct (ping_answered_returns_nil (init false None) ping_answered scope7)
    as (c' & E & _ & _ & _ & A).
  - repeat split; try reflexivity. discriminate.
  - reflexivity.
  - repeat split.
  - reflexivity.
  - reflexivity.
  - exists c'. split; [exact E|]. rewrite A. simpl. rewrite delete_insert_eq. apply delete_empty.
Defined.
